(** * Email-AI-Agent: the agent route (searchEmails, parseEmailData,
      calculateSum, callAgentWithRetry, agentSolveQuery, POST)

    A shallow embedding of the query route of the email agent and the
    properties its specification states about it.

    Conventions.
    - A JavaScript string is the list of its UTF-16 code units ([jsstring]);
      [length], [slice] and the regular expressions of the source all work on
      code units, so does the model.
    - A JavaScript number that holds an amount is a rational ([Q]); the
      rounding of IEEE doubles is not modelled.
    - Calls that leave the process (the reasoning service, the mail store,
      the token refresh, timers) are read from an environment indexed by a
      clock that advances at every such call, and are recorded in a log;
      [Math.random] is read from the same environment.
    - The text of a prompt is not modelled: a prompt is the record of the
      values interpolated into its template.
    - [JSON.parse], the base64 and UTF-8 decoding, [toLowerCase] outside
      ASCII, [toLocaleString] and [decodeURIComponent] are parameters; a
      parsed decision has the field types of the interface [AgentPlan]. *)

From Stdlib Require Import String Ascii.
From Stdlib Require Import List NArith ZArith QArith Qminmax Lia Bool Arith.
Import ListNotations.

Set Implicit Arguments.
Close Scope Q_scope.
Open Scope nat_scope.

(* ================================================================== *)
(** ** JavaScript strings *)
(* ================================================================== *)

Module JS.

Definition jsstring := list N.

(** An ASCII literal of the source as code units. *)
Definition lit (s : string) : jsstring :=
  map N_of_ascii (list_ascii_of_string s).

Definition streq (a b : jsstring) : bool :=
  if list_eq_dec N.eq_dec a b then true else false.

Lemma streq_true (a b : jsstring) : streq a b = true <-> a = b.
Proof. unfold streq; destruct (list_eq_dec N.eq_dec a b); split; congruence. Qed.

Lemma streq_refl (a : jsstring) : streq a a = true.
Proof. apply streq_true; reflexivity. Qed.

(** Truthiness of a string value: the empty string is falsy. *)
Definition truthy (s : jsstring) : bool :=
  match s with [] => false | _ => true end.

(** [x || d] on an optional string: [undefined] and the empty string fall
    through. *)
Definition or_else (x : option jsstring) (d : jsstring) : jsstring :=
  match x with
  | Some s => if truthy s then s else d
  | None => d
  end.

Definition in_range (lo hi c : N) : bool := (lo <=? c)%N && (c <=? hi)%N.

Definition is_digit (c : N) : bool := in_range 48 57 c.
Definition is_upper (c : N) : bool := in_range 65 90 c.
Definition is_lower (c : N) : bool := in_range 97 122 c.
Definition is_ascii (c : N) : bool := (c <? 128)%N.

(** WhiteSpace and LineTerminator of ECMAScript: what [trim] removes and
    what [\s] matches. *)
Definition is_space (c : N) : bool :=
  in_range 9 13 c || (c =? 32)%N || (c =? 160)%N || (c =? 5760)%N
  || in_range 8192 8202 c || (c =? 8232)%N || (c =? 8233)%N
  || (c =? 8239)%N || (c =? 8287)%N || (c =? 12288)%N || (c =? 65279)%N.

Fixpoint dropWhile (p : N -> bool) (s : jsstring) : jsstring :=
  match s with
  | [] => []
  | c :: t => if p c then dropWhile p t else s
  end.

Definition trimStart (s : jsstring) : jsstring := dropWhile is_space s.
Definition trimEnd (s : jsstring) : jsstring := rev (dropWhile is_space (rev s)).
Definition trim (s : jsstring) : jsstring := trimEnd (trimStart s).

Fixpoint startsWith (s p : jsstring) {struct p} : bool :=
  match p with
  | [] => true
  | a :: p' =>
      match s with
      | [] => false
      | b :: s' => (a =? b)%N && startsWith s' p'
      end
  end.

(** [s.includes(sub)]. *)
Fixpoint includes (s sub : jsstring) : bool :=
  startsWith s sub ||
  match s with
  | [] => false
  | _ :: t => includes t sub
  end.

(** [s.substring(n)] for a non-negative [n]. *)
Definition substring (n : nat) (s : jsstring) : jsstring := skipn n s.

(** [s.slice(0, n)] for a non-negative [n]. *)
Definition slice0 (n : nat) (s : jsstring) : jsstring := firstn n s.

(** [s.split(sep)] for a separator of one code unit. *)
Fixpoint split (sep : N) (s : jsstring) : list jsstring :=
  match s with
  | [] => [[]]
  | c :: t =>
      if (c =? sep)%N then [] :: split sep t
      else match split sep t with
           | [] => [[c]]
           | w :: ws => (c :: w) :: ws
           end
  end.

(** [parts.join(sep)]. *)
Fixpoint join (sep : jsstring) (parts : list jsstring) : jsstring :=
  match parts with
  | [] => []
  | [w] => w
  | w :: ws => w ++ sep ++ join sep ws
  end.

Definition lower_ascii (c : N) : N := if is_upper c then (c + 32)%N else c.
Definition upper_ascii (c : N) : N := if is_lower c then (c - 32)%N else c.

Section Case.
(** [String.prototype.toLowerCase] on a string that has a code unit outside
    ASCII is left to the platform. *)
Variable unicodeLower : jsstring -> jsstring.

Definition toLowerCase (s : jsstring) : jsstring :=
  if forallb is_ascii s then map lower_ascii s else unicodeLower s.
End Case.

(** *** parseFloat

    The decimal part of the StrDecimalLiteral grammar: leading white space,
    an optional sign, digits, an optional fraction.  Exponents and
    [Infinity] are not modelled; [None] is NaN. *)

Definition digit_val (c : N) : Z := Z.of_N (c - 48).

Fixpoint takeWhile (p : N -> bool) (s : jsstring) : jsstring :=
  match s with
  | [] => []
  | c :: t => if p c then c :: takeWhile p t else []
  end.

Definition int_of_digits (ds : jsstring) : Z :=
  fold_left (fun acc c => (acc * 10 + digit_val c)%Z) ds 0%Z.

Fixpoint pow10 (n : nat) : positive :=
  match n with
  | O => 1%positive
  | S n' => (10 * pow10 n')%positive
  end.

Definition unsigned_decimal (s : jsstring) : option Q :=
  let ip := takeWhile is_digit s in
  let rest := dropWhile is_digit s in
  let fp := match rest with
            | 46%N :: t => takeWhile is_digit t
            | _ => []
            end in
  match ip, fp with
  | [], [] => None
  | _, _ =>
      Some (Qplus (inject_Z (int_of_digits ip))
                  (Qmake (int_of_digits fp) (pow10 (length fp))))
  end.

Definition parseFloat (s : jsstring) : option Q :=
  match trimStart s with
  | 45%N :: t => option_map Qopp (unsigned_decimal t)
  | 43%N :: t => unsigned_decimal t
  | t => unsigned_decimal t
  end.

Example trim_blanks : trim (lit "  a b ") = lit "a b".
Proof. reflexivity. Qed.

Example split_spaces : split 32 (lit "a  b") = [lit "a"; []; lit "b"].
Proof. reflexivity. Qed.

Example join_or : join (lit " OR ") [lit "a"; lit "b"] = lit "a OR b".
Proof. reflexivity. Qed.

Example parseFloat_fraction : parseFloat (lit "1200.50") = Some 1200.50%Q.
Proof. reflexivity. Qed.

Example parseFloat_empty : parseFloat [] = None.
Proof. reflexivity. Qed.

Example parseFloat_prefix : parseFloat (lit "12abc") = Some 12%Q.
Proof. reflexivity. Qed.

End JS.

(* ================================================================== *)
(** ** Regular expressions: a backtracking matcher

    The patterns of the source are written in this syntax and run by a
    matcher that follows the ECMAScript algorithm: alternatives in order,
    greedy repetition that gives characters back, a repetition step that
    consumes nothing is refused, [$] without the [m] flag.  One capture
    group is enough for the patterns of the source. *)
(* ================================================================== *)

Module Regex.
Import JS.

Inductive regex : Type :=
| Eps
| Cls (p : N -> bool)
| Seq (r1 r2 : regex)
| Alt (r1 r2 : regex)
| Star (r : regex)
| Grp (r : regex)
| Eos.

Definition Plus (r : regex) : regex := Seq r (Star r).
Definition Opt (r : regex) : regex := Alt r Eps.

(** A pattern character; [i] is the ignoreCase flag.  Canonicalize never
    maps a code unit outside ASCII to an ASCII one, so for the characters of
    the patterns here it is the ASCII upper-casing. *)
Definition chr (i : bool) (c : N) : regex :=
  Cls (fun x => if i then (upper_ascii x =? upper_ascii c)%N else (x =? c)%N).

Fixpoint word (i : bool) (w : jsstring) : regex :=
  match w with
  | [] => Eps
  | [c] => chr i c
  | c :: t => Seq (chr i c) (word i t)
  end.

Definition str (i : bool) (s : string) : regex := word i (lit s).

Fixpoint alts (rs : list regex) : regex :=
  match rs with
  | [] => Cls (fun _ => false)
  | [r] => r
  | r :: t => Alt r (alts t)
  end.

Definition capture := option jsstring.

Section Matcher.
Variable R : Type.

Definition cont := jsstring -> capture -> option R.

Definition orelse (a : option R) (b : option R) : option R :=
  match a with Some x => Some x | None => b end.

(** RepeatMatcher for [r*]: [mr] runs one step of [r]. *)
Fixpoint star_loop (mr : jsstring -> capture -> cont -> option R) (k : cont)
         (n : nat) (s : jsstring) (c : capture) : option R :=
  match n with
  | O => k s c
  | S n' =>
      orelse
        (mr s c (fun s' c' =>
                   if length s' <? length s then star_loop mr k n' s' c'
                   else None))
        (k s c)
  end.

Fixpoint m (r : regex) (s : jsstring) (c : capture) (k : cont) : option R :=
  match r with
  | Eps => k s c
  | Cls p =>
      match s with
      | x :: s' => if p x then k s' c else None
      | [] => None
      end
  | Seq r1 r2 => m r1 s c (fun s' c' => m r2 s' c' k)
  | Alt r1 r2 => orelse (m r1 s c k) (m r2 s c k)
  | Star r' => star_loop (m r') k (S (length s)) s c
  | Grp r' =>
      m r' s c (fun s' _ => k s' (Some (firstn (length s - length s') s)))
  | Eos => match s with [] => k s c | _ :: _ => None end
  end.
End Matcher.

(** What a successful match reports: the text matched, group 1, and where it
    starts. *)
Record rmatch : Type := {
  m_index : nat;
  m_text : jsstring;
  m_group : capture
}.

(** One attempt at the head of [s]: the rest of the input and group 1. *)
Definition exec_at (r : regex) (s : jsstring) : option (jsstring * capture) :=
  m r s None (fun s' c' => Some (s', c')).

(** [RegExp.prototype.exec] from a position on: the leftmost start that
    matches. Returns the match and the input after it. *)
Fixpoint search (r : regex) (idx : nat) (s : jsstring)
  : option (rmatch * jsstring) :=
  match exec_at r s with
  | Some (rest, g) =>
      Some ({| m_index := idx;
               m_text := firstn (length s - length rest) s;
               m_group := g |}, rest)
  | None =>
      match s with
      | [] => None
      | _ :: t => search r (S idx) t
      end
  end.

(** The matches of a global pattern, left to right, not overlapping; after an
    empty match the position advances by one code unit. *)
Fixpoint matches_from (r : regex) (fuel : nat) (idx : nat) (s : jsstring)
  : list rmatch :=
  match fuel with
  | O => []
  | S f =>
      match search r idx s with
      | None => []
      | Some (mt, rest) =>
          mt ::
          match m_text mt with
          | [] => match rest with
                  | [] => []
                  | _ :: t => matches_from r f (S (m_index mt)) t
                  end
          | _ :: _ => matches_from r f (m_index mt + length (m_text mt)) rest
          end
      end
  end.

(** [[...s.matchAll(r)]] and [s.match(r)] for a pattern with the [g] flag. *)
Definition matchAll (r : regex) (s : jsstring) : list rmatch :=
  matches_from r (S (length s)) 0 s.

(** [s.match(r)] for a pattern without the [g] flag: the first match. *)
Definition match_first (r : regex) (s : jsstring) : option rmatch :=
  option_map fst (search r 0 s).

(** *** The words a pattern matches

    [matches r w rest c c']: [r] matches [w] when [rest] follows it in the
    input, and takes group 1 from [c] to [c']. *)
Inductive matches : regex -> jsstring -> jsstring -> capture -> capture -> Prop :=
| MEps rest c : matches Eps [] rest c c
| MCls (p : N -> bool) x rest c : p x = true -> matches (Cls p) [x] rest c c
| MSeq r1 r2 w1 w2 rest c c1 c2 :
    matches r1 w1 (w2 ++ rest) c c1 ->
    matches r2 w2 rest c1 c2 ->
    matches (Seq r1 r2) (w1 ++ w2) rest c c2
| MAltL r1 r2 w rest c c' :
    matches r1 w rest c c' -> matches (Alt r1 r2) w rest c c'
| MAltR r1 r2 w rest c c' :
    matches r2 w rest c c' -> matches (Alt r1 r2) w rest c c'
| MStar0 r rest c : matches (Star r) [] rest c c
| MStarS r w1 w2 rest c c1 c2 :
    w1 <> [] ->
    matches r w1 (w2 ++ rest) c c1 ->
    matches (Star r) w2 rest c1 c2 ->
    matches (Star r) (w1 ++ w2) rest c c2
| MGrp r w rest c c1 :
    matches r w rest c c1 -> matches (Grp r) w rest c (Some w)
| MEos c : matches Eos [] [] c c.

Section MatcherFacts.
Variable R : Type.
Implicit Types (k : cont R) (s w rest : jsstring) (c : capture).

Lemma orelse_some (a b : option R) x :
  orelse a b = Some x -> a = Some x \/ (a = None /\ b = Some x).
Proof. destruct a; simpl; intros H; [left | right]; auto. Qed.

Lemma firstn_consumed (w rest : jsstring) :
  firstn (length (w ++ rest) - length rest) (w ++ rest) = w.
Proof.
  rewrite length_app. replace (length w + length rest - length rest) with (length w) by lia.
  rewrite firstn_app, Nat.sub_diag, firstn_all. simpl. apply app_nil_r.
Qed.

(** Soundness of the repetition loop, given soundness of one step. *)
Lemma star_loop_sound (r : regex)
      (IH : forall s c k x, m r s c k = Some x ->
            exists w rest c', s = w ++ rest /\ matches r w rest c c' /\
                              k rest c' = Some x) :
  forall n s c k x,
    star_loop (m (R:=R) r) k n s c = Some x ->
    exists w rest c', s = w ++ rest /\ matches (Star r) w rest c c' /\
                      k rest c' = Some x.
Proof.
  induction n as [|n IHn]; intros s c k x H; simpl in H.
  - exists [], s, c. repeat split; auto. constructor.
  - apply orelse_some in H. destruct H as [H | [_ H]].
    + apply IH in H. destruct H as (w1 & rest1 & c1 & -> & Hm & Hk).
      destruct (length rest1 <? length (w1 ++ rest1)) eqn:Hlt; [|discriminate].
      apply IHn in Hk. destruct Hk as (w2 & rest & c2 & -> & Hs & Hk).
      exists (w1 ++ w2), rest, c2. rewrite <- app_assoc. repeat split; auto.
      apply MStarS with (c1 := c1); auto.
      intros ->. simpl in Hlt. apply Nat.ltb_lt in Hlt. lia.
    + exists [], s, c. repeat split; auto. constructor.
Qed.

(** Every success of the matcher is a match of the pattern. *)
Lemma m_sound (r : regex) :
  forall s c k x, m (R:=R) r s c k = Some x ->
    exists w rest c', s = w ++ rest /\ matches r w rest c c' /\
                      k rest c' = Some x.
Proof.
  induction r as [|p|r1 IH1 r2 IH2|r1 IH1 r2 IH2|r IH|r IH|];
    intros s c k x H; simpl in H.
  - exists [], s, c. repeat split; auto. constructor.
  - destruct s as [|a s']; [discriminate|].
    destruct (p a) eqn:Hp; [|discriminate].
    exists [a], s', c. repeat split; auto. constructor; auto.
  - apply IH1 in H. destruct H as (w1 & rest1 & c1 & -> & Hm1 & H).
    apply IH2 in H. destruct H as (w2 & rest & c2 & -> & Hm2 & H).
    exists (w1 ++ w2), rest, c2. rewrite <- app_assoc. repeat split; auto.
    econstructor; eauto.
  - apply orelse_some in H. destruct H as [H | [_ H]].
    + apply IH1 in H. destruct H as (w & rest & c' & -> & Hm & H).
      exists w, rest, c'. repeat split; auto. apply MAltL; auto.
    + apply IH2 in H. destruct H as (w & rest & c' & -> & Hm & H).
      exists w, rest, c'. repeat split; auto. apply MAltR; auto.
  - change (star_loop (m r) k (S (length s)) s c = Some x) in H.
    eapply star_loop_sound; eauto.
  - apply IH in H. destruct H as (w & rest & c' & -> & Hm & H).
    rewrite firstn_consumed in H.
    exists w, rest, (Some w). repeat split; auto. econstructor; eauto.
  - destruct s; [|discriminate].
    exists [], [], c. repeat split; auto. constructor.
Qed.

Lemma orelse_not_none_l (a b : option R) : a <> None -> orelse a b <> None.
Proof. destruct a; simpl; congruence. Qed.

Lemma orelse_not_none_r (a b : option R) : b <> None -> orelse a b <> None.
Proof. destruct a; simpl; congruence. Qed.

(** Completeness of the repetition loop, given completeness of one step. *)
Lemma star_loop_complete (r : regex)
      (IH : forall w rest c c' k, matches r w rest c c' ->
            k rest c' <> None -> m r (w ++ rest) c k <> None) :
  forall r0 w rest c c',
    matches r0 w rest c c' -> r0 = Star r ->
    forall n k, length (w ++ rest) < n -> k rest c' <> None ->
                star_loop (m (R:=R) r) k n (w ++ rest) c <> None.
Proof.
  induction 1; intros E; inversion E; subst; intros n k Hn Hk.
  - destruct n; simpl; auto. apply orelse_not_none_r; auto.
  - destruct n; [lia|]. simpl. apply orelse_not_none_l.
    rewrite <- app_assoc. apply IH with (c' := c1); auto.
    assert (Hw : length w1 > 0) by (destruct w1; simpl; [congruence | lia]).
    rewrite !length_app in *.
    replace (length w2 + length rest <? length w1 + (length w2 + length rest)) with true
      by (symmetry; apply Nat.ltb_lt; lia).
    apply IHmatches2; auto. lia.
Qed.

(** Whenever the pattern matches a prefix after which the continuation
    succeeds, the matcher succeeds (possibly on another, preferred
    match). *)
Lemma m_complete (r : regex) :
  forall w rest c c' k, matches r w rest c c' ->
    k rest c' <> None -> m (R:=R) r (w ++ rest) c k <> None.
Proof.
  induction r as [|p|r1 IH1 r2 IH2|r1 IH1 r2 IH2|r IH|r IH|];
    intros w rest c c' k Hm Hk.
  - inversion Hm; subst; simpl; auto.
  - inversion Hm; subst; simpl.
    match goal with Hp : p _ = true |- _ => rewrite Hp end. auto.
  - inversion Hm; subst; simpl.
    rewrite <- app_assoc. eapply IH1; eauto.
  - inversion Hm; subst; simpl.
    + apply orelse_not_none_l. eapply IH1; eauto.
    + apply orelse_not_none_r. eapply IH2; eauto.
  - change (star_loop (m r) k (S (length (w ++ rest))) (w ++ rest) c <> None).
    apply (star_loop_complete IH Hm eq_refl); auto.
  - inversion Hm; subst; simpl.
    eapply IH; eauto. rewrite firstn_consumed. auto.
  - inversion Hm; subst; simpl; auto.
Qed.
End MatcherFacts.

(** *** Inversions for the shapes the patterns use *)

Lemma matches_star_cls (p : N -> bool) w rest c c' :
  matches (Star (Cls p)) w rest c c' ->
  Forall (fun x => p x = true) w /\ c' = c.
Proof.
  remember (Star (Cls p)) as r eqn:E. induction 1; inversion E; subst.
  - split; auto.
  - destruct (IHmatches2 eq_refl) as [Hw2 ->].
    match goal with H : matches (Cls p) _ _ _ _ |- _ => inversion H; subst end.
    split; auto. simpl. constructor; auto.
Qed.

Lemma matches_plus_cls (p : N -> bool) w rest c c' :
  matches (Plus (Cls p)) w rest c c' ->
  w <> [] /\ Forall (fun x => p x = true) w /\ c' = c.
Proof.
  unfold Plus. intros H. inversion H; subst.
  match goal with H : matches (Cls p) _ _ _ _ |- _ => inversion H; subst end.
  match goal with H : matches (Star _) _ _ _ _ |- _ =>
    apply matches_star_cls in H; destruct H as [Hw ->] end.
  simpl. repeat split; auto. discriminate.
Qed.

Lemma matches_alts : forall rs w rest c c',
  matches (alts rs) w rest c c' -> exists r, In r rs /\ matches r w rest c c'.
Proof.
  induction rs as [|r rs IH]; intros w rest c c' H.
  - simpl in H. inversion H; subst. discriminate.
  - destruct rs as [|r' rs].
    + simpl in H. exists r. split; [left; reflexivity | exact H].
    + change (alts (r :: r' :: rs)) with (Alt r (alts (r' :: rs))) in H.
      inversion H as [| | |r1 r2 w0 r3 c0 c1 Hl|r1 r2 w0 r3 c0 c1 Hr| | | |]; subst.
      * exists r. split; [left; reflexivity | assumption].
      * apply IH in Hr. destruct Hr as (r0 & Hin & Hm).
        exists r0. split; [right; exact Hin | exact Hm].
Qed.

(** *** What [matchAll] returns *)

Lemma exec_at_sound r s rest g :
  exec_at r s = Some (rest, g) ->
  exists w, s = w ++ rest /\ matches r w rest None g.
Proof.
  unfold exec_at. intros H. apply m_sound in H.
  destruct H as (w & rest' & c' & -> & Hm & E). inversion E; subst. eauto.
Qed.

Lemma exec_at_text r s rest g :
  exec_at r s = Some (rest, g) ->
  matches r (firstn (length s - length rest) s) rest None g.
Proof.
  intros H. apply exec_at_sound in H. destruct H as (w & -> & Hm).
  rewrite firstn_consumed. exact Hm.
Qed.

Lemma search_sound r : forall s idx mt rest,
  search r idx s = Some (mt, rest) ->
  exists w rest', m_text mt = w /\ matches r w rest' None (m_group mt).
Proof.
  induction s as [|x s IH]; intros idx mt rest H; cbn [search] in H;
    match type of H with context [exec_at r ?t] =>
      destruct (exec_at r t) as [[rest0 g]|] eqn:E end;
    try discriminate;
    try (inversion H; subst; clear H; cbn [m_text m_group];
         apply exec_at_text in E; eauto).
  eapply IH; eauto.
Qed.

Lemma matches_from_sound r : forall fuel idx s mt,
  In mt (matches_from r fuel idx s) ->
  exists w rest, m_text mt = w /\ matches r w rest None (m_group mt).
Proof.
  induction fuel as [|f IH]; intros idx s mt H; simpl in H; [contradiction|].
  destruct (search r idx s) as [[m0 rest]|] eqn:E; [|contradiction].
  destruct H as [<- | H].
  - eapply search_sound; eauto.
  - destruct (m_text m0); [destruct rest; [contradiction|]|]; eapply IH; eauto.
Qed.

Lemma matchAll_sound r s mt :
  In mt (matchAll r s) ->
  exists rest, matches r (m_text mt) rest None (m_group mt).
Proof.
  intros H. apply matches_from_sound in H. destruct H as (w & rest & <- & Hm). eauto.
Qed.

(** *** Where [search] finds its match *)

Lemma exec_at_split r s rest g :
  exec_at r s = Some (rest, g) ->
  s = firstn (length s - length rest) s ++ rest.
Proof.
  intros H. apply exec_at_sound in H. destruct H as (w & -> & _).
  rewrite firstn_consumed. reflexivity.
Qed.

Lemma search_decomp r : forall s idx mt rest,
  search r idx s = Some (mt, rest) ->
  exists pre, s = pre ++ m_text mt ++ rest /\
              matches r (m_text mt) rest None (m_group mt).
Proof.
  induction s as [|x s IH]; intros idx mt rest H; cbn [search] in H;
    match type of H with context [exec_at r ?t] =>
      destruct (exec_at r t) as [[rest0 g]|] eqn:E end;
    try discriminate;
    try (inversion H; subst; clear H; cbn [m_text m_group];
         exists []; split; [apply (exec_at_split _ _ E) | apply (exec_at_text _ _ E)]).
  apply IH in H. destruct H as (pre & -> & Hm).
  exists (x :: pre). split; [reflexivity | exact Hm].
Qed.

Lemma search_finds r s :
  exec_at r s <> None -> forall pre idx, search r idx (pre ++ s) <> None.
Proof.
  intros H. induction pre as [|x pre IH]; intros idx.
  - simpl. destruct s; cbn [search];
      destruct (exec_at r _) as [[rest g]|]; congruence.
  - cbn [app search]. destruct (exec_at r (x :: pre ++ s)) as [[rest g]|];
      [discriminate | apply IH].
Qed.

Lemma matchAll_nonempty r s :
  matchAll r s <> [] <-> search r 0 s <> None.
Proof.
  unfold matchAll. cbn [matches_from].
  destruct (search r 0 s) as [[mt rest]|]; split; congruence.
Qed.

Lemma exec_at_complete r w rest g :
  matches r w rest None g -> exec_at r (w ++ rest) <> None.
Proof.
  intros H. unfold exec_at. eapply m_complete; eauto. discriminate.
Qed.

Lemma matches_chr_exact a w rest c c' :
  matches (chr false a) w rest c c' -> w = [a] /\ c' = c.
Proof.
  unfold chr. intros H. inversion H as [|p x r0 c0 Hp| | | | | | |]; subst.
  apply N.eqb_eq in Hp. subst. auto.
Qed.

Lemma matches_word_exact : forall k w rest c c',
  matches (word false k) w rest c c' -> w = k /\ c' = c.
Proof.
  induction k as [|a k IH]; intros w rest c c' H.
  - simpl in H. inversion H; subst. auto.
  - destruct k as [|b k].
    + simpl in H. apply matches_chr_exact in H. exact H.
    + change (word false (a :: b :: k))
        with (Seq (chr false a) (word false (b :: k))) in H.
      inversion H as [| |r1 r2 w1 w2 r3 c0 c1 c2 Ha Hk| | | | | |]; subst.
      apply matches_chr_exact in Ha. destruct Ha as [-> ->].
      apply IH in Hk. destruct Hk as [-> ->]. auto.
Qed.

Lemma word_matches : forall k rest c,
  matches (word false k) k rest c c.
Proof.
  induction k as [|a k IH]; intros rest c.
  - constructor.
  - destruct k as [|b k].
    + simpl. constructor. apply N.eqb_refl.
    + change (word false (a :: b :: k))
        with (Seq (chr false a) (word false (b :: k))).
      change (a :: b :: k) with ([a] ++ (b :: k)).
      econstructor; [|apply IH]. constructor. apply N.eqb_refl.
Qed.

Lemma alts_matches : forall rs r w rest c c',
  In r rs -> matches r w rest c c' -> matches (alts rs) w rest c c'.
Proof.
  induction rs as [|r0 rs IH]; intros r w rest c c' Hin Hm; [contradiction|].
  destruct rs as [|r1 rs].
  - destruct Hin as [<- | []]. exact Hm.
  - change (alts (r0 :: r1 :: rs)) with (Alt r0 (alts (r1 :: rs))).
    destruct Hin as [<- | Hin]; [apply MAltL; exact Hm|].
    apply MAltR. eapply IH; eauto.
Qed.

Lemma plus_cls_matches (p : N -> bool) : forall w rest c,
  w <> [] -> Forall (fun x => p x = true) w ->
  matches (Plus (Cls p)) w rest c c.
Proof.
  intros w rest c Hne Hw. destruct w as [|x w]; [congruence|].
  inversion Hw as [|x0 w0 Hx Hw']; subst.
  unfold Plus. change (x :: w) with ([x] ++ w).
  econstructor; [constructor; exact Hx|].
  clear Hne Hw Hx. induction Hw' as [|y w Hy _ IH]; [constructor|].
  change (y :: w) with ([y] ++ w).
  eapply MStarS; [discriminate | constructor; exact Hy | exact IH].
Qed.

(** *** Repetition of a character class *)

(** Greedy repetition of a character class, longest run first: what
    [star_loop] computes for [Cls p]. *)
Fixpoint scan (R : Type) (p : N -> bool) (k : cont R) (s : jsstring)
         (c : capture) : option R :=
  match s with
  | [] => k [] c
  | x :: s' => if p x then orelse (scan p k s' c) (k s c) else k s c
  end.

Lemma star_loop_scan (R : Type) (p : N -> bool) (k : cont R)
      (mr : jsstring -> capture -> cont R -> option R)
      (Hmr : forall s c k', mr s c k' = match s with
                                        | [] => None
                                        | x :: s' => if p x then k' s' c else None
                                        end) :
  forall s n c, length s < n -> star_loop mr k n s c = scan p k s c.
Proof.
  induction s as [|x s IH]; intros n c Hn; (destruct n as [|n]; [cbn in Hn; lia|]).
  - cbn [star_loop scan]. rewrite Hmr. reflexivity.
  - cbn [star_loop scan length] in *. rewrite Hmr.
    destruct (p x); [|reflexivity].
    replace (length s <? S (length s)) with true
      by (symmetry; apply Nat.ltb_lt; lia).
    rewrite IH by lia. reflexivity.
Qed.

Lemma search_hit r idx s rest g :
  exec_at r s = Some (rest, g) ->
  search r idx s = Some ({| m_index := idx;
                            m_text := firstn (length s - length rest) s;
                            m_group := g |}, rest).
Proof. intros H. destruct s; cbn [search]; rewrite H; reflexivity. Qed.

End Regex.

(* ================================================================== *)
(** ** parseEmailData: the message parser *)
(* ================================================================== *)

Module Parser.
Import JS.

(** A header of the payload: [{name, value}]. *)
Record header : Type := { h_name : jsstring; h_value : option jsstring }.

(** A node of the part tree: [part.body?.data] and [part.parts]
    ([None] when it is not an array). *)
#[warnings="-register-all"]
Inductive part : Type :=
| Part (data : option jsstring) (parts : option (list part)).

(** [emailData.payload]: the root part with the header list. *)
Record payload_t : Type := {
  headers : option (list header);
  root : part
}.

Record emailData : Type := {
  payload : option payload_t;
  snippet : option jsstring
}.

Definition nl : jsstring := [10%N].

(** [/[\u0000-\u001F\u007F-\u009F]/] *)
Definition is_control (c : N) : bool := in_range 0 31 c || in_range 127 159 c.

Definition strip_control (s : jsstring) : jsstring :=
  filter (fun c => negb (is_control c)) s.

(** [headers.find(h => h.name === name)?.value || dflt] *)
Definition header_or (hs : list header) (name dflt : jsstring) : jsstring :=
  match find (fun h => streq (h_name h) name) hs with
  | Some h => or_else (h_value h) dflt
  | None => dflt
  end.

Section Decode.
(** [Buffer.from(data, "base64").toString("utf-8")]; [None] when it
    throws, which the source catches and logs. *)
Variable decode : jsstring -> option jsstring.

(** What one part appends to [body]. *)
Definition append_part_data (data : option jsstring) (body : jsstring) : jsstring :=
  match data with
  | Some d =>
      if truthy d then
        match decode d with
        | Some content => body ++ strip_control content ++ nl
        | None => body
        end
      else body
  | None => body
  end.

(** [getBodyContent(part)], with the variable [body] it appends to passed
    in and out. *)
Fixpoint getBodyContent (p : part) (body : jsstring) : jsstring :=
  match p with
  | Part data parts =>
      let body1 := append_part_data data body in
      match parts with
      | Some ps =>
          (fix each (ps : list part) (b : jsstring) : jsstring :=
             match ps with
             | [] => b
             | q :: t => each t (getBodyContent q b)
             end) ps body1
      | None => body1
      end
  end.

(** The value of [body] after line
    [body = body.trim() || emailData.snippet || "No content available"]. *)
Definition email_body (e : emailData) : jsstring :=
  let body := match payload e with
              | Some pl => getBodyContent (root pl) []
              | None => []
              end in
  let t := trim body in
  if truthy t then t
  else or_else (snippet e) (lit "No content available").

(** [body.length > 200 ? body.slice(0, 200) + "..." : body] *)
Definition truncate (body : jsstring) : jsstring :=
  if 200 <? length body then slice0 200 body ++ lit "..." else body.

Definition email_headers (e : emailData) : list header :=
  match payload e with
  | Some pl => match headers pl with Some hs => hs | None => [] end
  | None => []
  end.

(** The three lines before the content line. *)
Definition head_lines (e : emailData) : jsstring :=
  let hs := email_headers e in
  let subject := header_or hs (lit "Subject") (lit "No Subject") in
  let from := header_or hs (lit "From") (lit "Unknown Sender") in
  let date := header_or hs (lit "Date") (lit "No Date") in
  lit "From: " ++ from ++ nl ++ lit "Subject: " ++ subject ++ nl
  ++ lit "Date: " ++ date ++ nl.

Definition parseEmailData (e : emailData) : jsstring :=
  head_lines e ++ lit "Content: " ++ truncate (email_body e).

(** *** The body as the specification words it

    The decoded fragments of the part tree in traversal order, each with
    its control characters removed and a newline after it. *)
Definition fragment (data : option jsstring) : list jsstring :=
  match data with
  | Some d =>
      if truthy d then
        match decode d with
        | Some content => [strip_control content ++ nl]
        | None => []
        end
      else []
  | None => []
  end.

Fixpoint fragments (p : part) : list jsstring :=
  match p with
  | Part data parts =>
      fragment data ++
      match parts with
      | Some ps =>
          (fix each (ps : list part) : list jsstring :=
             match ps with
             | [] => []
             | q :: t => fragments q ++ each t
             end) ps
      | None => []
      end
  end.

Definition decoded_body (e : emailData) : jsstring :=
  match payload e with
  | Some pl => trim (concat (fragments (root pl)))
  | None => []
  end.

(** The accumulating traversal computes the concatenation of the
    fragments. *)
Lemma append_part_data_fragment (data : option jsstring) (body : jsstring) :
  append_part_data data body = body ++ concat (fragment data).
Proof.
  unfold append_part_data, fragment.
  destruct data as [d|]; simpl; [|now rewrite app_nil_r].
  destruct (truthy d); simpl; [|now rewrite app_nil_r].
  destruct (decode d); simpl; now rewrite app_nil_r.
Qed.

Lemma getBodyContent_fragments :
  forall (p : part) (body : jsstring),
    getBodyContent p body = body ++ concat (fragments p).
Proof.
  fix IH 1. intros [data parts] body. simpl.
  rewrite concat_app, app_assoc, <- append_part_data_fragment.
  generalize (append_part_data data body) as b.
  destruct parts as [ps|]; [|intros b; simpl; now rewrite app_nil_r].
  induction ps as [|q t IHt]; intros b.
  - simpl. now rewrite app_nil_r.
  - rewrite IHt, IH. rewrite concat_app, app_assoc. reflexivity.
Qed.

Lemma truthy_nonempty (s : jsstring) : truthy s = true <-> s <> [].
Proof. destruct s; simpl; split; congruence. Qed.

Lemma email_body_decoded (e : emailData) :
  email_body e =
  if truthy (decoded_body e) then decoded_body e
  else or_else (snippet e) (lit "No content available").
Proof.
  unfold email_body, decoded_body.
  destruct (payload e) as [pl|]; [|reflexivity].
  rewrite getBodyContent_fragments. reflexivity.
Qed.

(** C5. For every raw message, the content is the trimmed concatenation of
    the decoded body fragments when that is not empty, otherwise the snippet
    when there is one (a non-empty string), otherwise the literal
    "No content available"; and the Content line of the summary carries the
    first 200 code units of the content followed by "..." when the content is
    longer than 200, and the content unchanged otherwise. *)
Theorem parseEmailData_content (e : emailData) :
  let body := decoded_body e in
  let content := email_body e in
  (body <> [] -> content = body) /\
  (body = [] -> forall s, snippet e = Some s -> s <> [] -> content = s) /\
  (body = [] -> snippet e = None \/ snippet e = Some [] ->
   content = lit "No content available") /\
  (200 < length content ->
   parseEmailData e =
   head_lines e ++ lit "Content: " ++ firstn 200 content ++ lit "...") /\
  (length content <= 200 ->
   parseEmailData e = head_lines e ++ lit "Content: " ++ content).
Proof.
  cbv zeta. rewrite email_body_decoded.
  set (body := decoded_body e).
  repeat split.
  - intros Hb. apply truthy_nonempty in Hb. now rewrite Hb.
  - intros Hb s Hs Hne. rewrite Hb, Hs. simpl.
    apply truthy_nonempty in Hne. now rewrite Hne.
  - intros Hb [Hs | Hs]; rewrite Hb, Hs; reflexivity.
  - intros Hlen. unfold parseEmailData, truncate. rewrite email_body_decoded.
    fold body. apply Nat.ltb_lt in Hlen. rewrite Hlen. reflexivity.
  - intros Hlen. unfold parseEmailData, truncate. rewrite email_body_decoded.
    fold body.
    replace (200 <? _) with false by (symmetry; apply Nat.ltb_ge; exact Hlen).
    reflexivity.
Qed.
End Decode.

(** A message whose only part decodes to two characters framed by blanks; a
    message with a snippet and no body; a message with neither; and a
    message whose body has 201 characters. *)
Definition sample_decode (d : jsstring) : option jsstring := Some d.

Definition message_with (data : option jsstring) (snip : option jsstring) : emailData :=
  {| payload := Some {| headers := Some [{| h_name := lit "Subject";
                                           h_value := Some (lit "Hi") |}];
                        root := Part None (Some [Part data None]) |};
     snippet := snip |}.

Definition sample_message : emailData :=
  message_with (Some (lit " ok ")) (Some (lit "snip")).

Definition long_message : emailData :=
  message_with (Some (repeat 97%N 201)) None.

Lemma parseEmailData_content_witness :
  (email_body sample_decode sample_message = lit "ok" /\
   parseEmailData sample_decode sample_message =
   lit "From: Unknown Sender" ++ nl ++ lit "Subject: Hi" ++ nl
   ++ lit "Date: No Date" ++ nl ++ lit "Content: ok") /\
  email_body sample_decode (message_with None (Some (lit "snip"))) = lit "snip" /\
  email_body sample_decode (message_with None None) = lit "No content available" /\
  parseEmailData sample_decode long_message =
  head_lines long_message ++ lit "Content: " ++ repeat 97%N 200 ++ lit "...".
Proof.
  assert (Hb : decoded_body sample_decode sample_message <> [])
    by (vm_compute; discriminate).
  destruct (parseEmailData_content sample_decode sample_message)
    as (H1 & _ & _ & _ & H5).
  destruct (parseEmailData_content sample_decode (message_with None (Some (lit "snip"))))
    as (_ & H2 & _).
  destruct (parseEmailData_content sample_decode (message_with None None))
    as (_ & _ & H3 & _).
  destruct (parseEmailData_content sample_decode long_message)
    as (_ & _ & _ & H4 & _).
  split; [split|split; [|split]].
  - rewrite (H1 Hb). reflexivity.
  - rewrite H5; [reflexivity | vm_compute; lia].
  - apply (H2 eq_refl (lit "snip") eq_refl). discriminate.
  - apply (H3 eq_refl). left. reflexivity.
  - rewrite H4; [reflexivity | vm_compute; lia].
Defined.

End Parser.

(* ================================================================== *)
(** ** calculateSum: the amount aggregator *)
(* ================================================================== *)

Module Aggregator.
Import JS Regex.

Definition rupee : N := 8377.
Definition comma : N := 44.
Definition dot : N := 46.
Definition colon : N := 58.
Definition space : N := 32.
Definition newline : N := 10.

(** [(?:₹|Rs\.?|INR|USD|\$)] *)
Definition currency_re (i : bool) : regex :=
  alts [chr i rupee; Seq (str i "Rs") (Opt (chr i dot)); str i "INR";
        str i "USD"; chr i 36].

Definition is_amount_char (c : N) : bool := is_digit c || (c =? comma)%N.

(** [([0-9,]+(?:\.[0-9]+)?)] *)
Definition amount_re : regex :=
  Grp (Seq (Plus (Cls is_amount_char))
           (Opt (Seq (chr true dot) (Plus (Cls is_digit))))).

(** [(?:₹|Rs\.?|INR|USD|\$)\s*([0-9,]+(?:\.[0-9]+)?)], flags [gi] *)
Definition money_re : regex :=
  Seq (currency_re true) (Seq (Star (Cls is_space)) amount_re).

(** [(?:k1|k2|...)(?:[:\s])*] followed by the money pattern, flags [gi] *)
Definition keyword_re (kws : list string) : regex :=
  Seq (alts (map (str true) kws))
      (Seq (Star (Cls (fun c => (c =? colon)%N || is_space c))) money_re).

(** The money pattern followed by [(?:[^0-9]|$)], flags [gi] *)
Definition bare_re : regex :=
  Seq (currency_re true)
      (Seq (Star (Cls is_space))
           (Seq amount_re (Alt (Cls (fun c => negb (is_digit c))) Eos))).

Definition amount_keywords : list string :=
  ["total"; "amount"; "fare"; "price"; "cost"]%string.

Definition plan_keywords : list string :=
  ["monthly"; "yearly"; "annual"; "subscription"; "plan"; "fee"]%string.

(** The object [patterns], keys in the order they are written. *)
Definition patterns : list (jsstring * list regex) :=
  [ (lit "default", [money_re]);
    (lit "flight", [keyword_re amount_keywords; bare_re]);
    (lit "subscription", [keyword_re plan_keywords; bare_re]) ].

Record detail : Type := {
  d_from : jsstring;
  d_subject : jsstring;
  d_date : jsstring;
  d_amount : Q;
  d_currency : jsstring;
  d_text : jsstring
}.

Record sumResult : Type := {
  total : Q;
  currency : jsstring;
  details : list detail
}.

(** [currencyCounts[key] = (currencyCounts[key] || 0) + 1] on an object whose
    keys keep their insertion order. *)
Fixpoint bump (key : jsstring) (counts : list (jsstring * nat))
  : list (jsstring * nat) :=
  match counts with
  | [] => [(key, 1)]
  | (k, n) :: t => if streq k key then (k, S n) :: t else (k, n) :: bump key t
  end.

(** The loop over [Object.entries(currencyCounts)]. *)
Definition dominant (counts : list (jsstring * nat)) : jsstring :=
  snd (fold_left (fun (acc : nat * jsstring) (kv : jsstring * nat) =>
                    if fst acc <? snd kv then (snd kv, fst kv) else acc)
                 counts (0, [])).

(** [lines.find(l => l.startsWith(prefix))?.substring(n) || ''] *)
Definition field (lines : list jsstring) (prefix : string) (n : nat) : jsstring :=
  match find (fun l => startsWith l (lit prefix)) lines with
  | Some l => substring n l
  | None => []
  end.

(** [match[1]]; group 1 takes part in every match of the patterns above. *)
Definition group1 (mt : rmatch) : jsstring :=
  match m_group mt with Some g => g | None => [] end.

Definition not_comma (c : N) : bool := negb (c =? comma)%N.

(** The string handed to [parseFloat]: [match[1].replace(/,/g, '')]. *)
Definition amount_text (mt : rmatch) : jsstring :=
  filter not_comma (group1 mt).

(** [fullMatch.match(/₹|Rs\.?|INR|USD|\$/) || ['']], element 0. *)
Definition currency_of (fullMatch : jsstring) : jsstring :=
  match match_first (currency_re false) fullMatch with
  | Some mt => m_text mt
  | None => []
  end.

(** The accumulators of [calculateSum]. *)
Record acc : Type := {
  a_counts : list (jsstring * nat);
  a_details : list detail;
  a_total : Q
}.

Definition acc0 : acc := {| a_counts := []; a_details := []; a_total := 0%Q |}.

(** The body of [matches.forEach]. *)
Definition on_match (from subject date : jsstring) (a : acc) (mt : rmatch) : acc :=
  let fullMatch := m_text mt in
  let cur := currency_of fullMatch in
  let counts := bump cur (a_counts a) in
  match parseFloat (amount_text mt) with
  | Some parsedAmount =>
      {| a_counts := counts;
         a_details := a_details a ++
                      [{| d_from := from; d_subject := subject; d_date := date;
                          d_amount := parsedAmount; d_currency := cur;
                          d_text := fullMatch |}];
         a_total := Qplus (a_total a) parsedAmount |}
  | None =>
      {| a_counts := counts; a_details := a_details a; a_total := a_total a |}
  end.

Definition searchText (email : jsstring) : jsstring :=
  let lines := split newline email in
  field lines "Subject:" 9 ++ [space] ++ field lines "Content:" 9.

(** The matches one email yields, pattern after pattern. *)
Definition email_matches (relevantPatterns : list regex) (email : jsstring)
  : list rmatch :=
  flat_map (fun pattern => matchAll pattern (searchText email)) relevantPatterns.

(** The body of [emails.forEach]. *)
Definition on_email (relevantPatterns : list regex) (a : acc) (email : jsstring) : acc :=
  let lines := split newline email in
  let from := field lines "From:" 6 in
  let subject := field lines "Subject:" 9 in
  let date := field lines "Date:" 6 in
  fold_left (on_match from subject date) (email_matches relevantPatterns email) a.

Section Lower.
Variable unicodeLower : jsstring -> jsstring.

(** [Object.keys(patterns).find(key =>
      category.toLowerCase().includes(key.toLowerCase())) || 'default'] *)
Definition categoryKey (category : jsstring) : jsstring :=
  match find (fun kv => includes (toLowerCase unicodeLower category)
                                 (toLowerCase unicodeLower (fst kv))) patterns with
  | Some kv => if truthy (fst kv) then fst kv else lit "default"
  | None => lit "default"
  end.

(** [patterns[categoryKey]] *)
Definition relevantPatterns (category : jsstring) : list regex :=
  match find (fun kv => streq (fst kv) (categoryKey category)) patterns with
  | Some kv => snd kv
  | None => []
  end.

Definition run (emails : list jsstring) (category : jsstring) : acc :=
  fold_left (on_email (relevantPatterns category)) emails acc0.

Definition calculateSum (emails : list jsstring) (category : jsstring) : sumResult :=
  let a := run emails category in
  let dominantCurrency := dominant (a_counts a) in
  {| total := a_total a;
     currency := if truthy dominantCurrency then dominantCurrency else [rupee];
     details := a_details a |}.
End Lower.

(** *** What the patterns capture *)

(** The text of group 1: digits and commas, then at most one decimal point
    with digits after it. *)
Definition amount_shape (g : jsstring) : Prop :=
  exists a b, g = a ++ b /\ a <> [] /\
    Forall (fun x => is_amount_char x = true) a /\
    (b = [] \/ exists d, b = dot :: d /\ d <> [] /\
                         Forall (fun x => is_digit x = true) d).

Lemma upper_ascii_dot (x : N) : upper_ascii x = dot -> x = dot.
Proof.
  unfold upper_ascii, is_lower, in_range, dot.
  destruct (97 <=? x)%N eqn:H1; destruct (x <=? 122)%N eqn:H2; simpl; auto.
  apply N.leb_le in H1. lia.
Qed.

Lemma matches_chr_dot w rest c c' :
  matches (chr true dot) w rest c c' -> w = [dot] /\ c' = c.
Proof.
  unfold chr. intros H. inversion H as [|p x r0 c0 Hp| | | | | | |]; subst.
  apply N.eqb_eq in Hp. change (upper_ascii dot) with dot in Hp.
  apply upper_ascii_dot in Hp. subst. auto.
Qed.

Lemma matches_amount w rest c c' :
  matches amount_re w rest c c' -> c' = Some w /\ amount_shape w.
Proof.
  unfold amount_re. intros H.
  inversion H as [| | | | | | |r0 w0 r1 c0 c1 Hseq|]; subst.
  split; [reflexivity|].
  inversion Hseq as [| |r1 r2 w1 w2 r3 c0 c2 c3 Hplus Hopt| | | | | |]; subst.
  apply matches_plus_cls in Hplus. destruct Hplus as (Ha & Hfa & ->).
  exists w1, w2. repeat split; auto.
  inversion Hopt as [| | |r1 r2 w0 r3 c0 c2 Hfrac|r1 r2 w0 r3 c0 c2 Heps| | | |]; subst.
  - right.
    inversion Hfrac as [| |r1 r2 w3 w4 r3 c0 c2 c3 Hdot Hdig| | | | | |]; subst.
    apply matches_chr_dot in Hdot. destruct Hdot as [-> ->].
    apply matches_plus_cls in Hdig. destruct Hdig as (Hd & Hfd & _).
    exists w4. repeat split; auto.
  - left. inversion Heps; subst. reflexivity.
Qed.

Lemma matches_money w rest c c' :
  matches money_re w rest c c' -> exists g, c' = Some g /\ amount_shape g.
Proof.
  unfold money_re. intros H. inversion H; subst.
  match goal with H : matches (Seq (Star _) _) _ _ _ _ |- _ => inversion H; subst end.
  match goal with H : matches amount_re _ _ _ _ |- _ =>
    apply matches_amount in H; destruct H as [-> Hs] end.
  eauto.
Qed.

Lemma matches_keyword kws w rest c c' :
  matches (keyword_re kws) w rest c c' -> exists g, c' = Some g /\ amount_shape g.
Proof.
  unfold keyword_re. intros H. inversion H; subst.
  match goal with H : matches (Seq (Star _) _) _ _ _ _ |- _ => inversion H; subst end.
  eapply matches_money; eauto.
Qed.

Lemma matches_bare w rest c c' :
  matches bare_re w rest c c' -> exists g, c' = Some g /\ amount_shape g.
Proof.
  unfold bare_re. intros H. inversion H; subst.
  match goal with H : matches (Seq (Star _) _) _ _ _ _ |- _ => inversion H; subst end.
  match goal with H : matches (Seq amount_re _) _ _ _ _ |- _ => inversion H; subst end.
  match goal with H : matches amount_re _ _ _ _ |- _ =>
    apply matches_amount in H; destruct H as [-> Hs] end.
  match goal with H : matches (Alt _ _) _ _ _ _ |- _ => inversion H; subst end;
  match goal with H : matches _ _ _ (Some _) _ |- _ => inversion H; subst end; eauto.
Qed.

(** *** parseFloat on the text of group 1 *)

Lemma takeWhile_all (p : N -> bool) (a b : jsstring) :
  Forall (fun x => p x = true) a ->
  takeWhile p (a ++ b) = a ++ takeWhile p b.
Proof. induction 1 as [|x a Hx _ IH]; simpl; [|rewrite Hx, IH]; reflexivity. Qed.

Lemma dropWhile_all (p : N -> bool) (a b : jsstring) :
  Forall (fun x => p x = true) a ->
  dropWhile p (a ++ b) = dropWhile p b.
Proof. induction 1 as [|x a Hx _ IH]; simpl; [|rewrite Hx, IH]; reflexivity. Qed.

Lemma takeWhile_id (p : N -> bool) (a : jsstring) :
  Forall (fun x => p x = true) a -> takeWhile p a = a.
Proof.
  intros H. rewrite <- (app_nil_r a) at 1. rewrite takeWhile_all by exact H.
  simpl. apply app_nil_r.
Qed.

Lemma digit_not_comma (c : N) : is_digit c = true -> not_comma c = true.
Proof.
  unfold is_digit, in_range, not_comma, comma. intros H.
  apply andb_prop in H. destruct H as [H1 H2]. apply N.leb_le in H1.
  apply negb_true_iff, N.eqb_neq. lia.
Qed.

Lemma digit_not_space (c : N) : is_digit c = true -> is_space c = false.
Proof.
  unfold is_digit, in_range. intros H.
  apply andb_prop in H. destruct H as [H1 H2].
  apply N.leb_le in H1, H2.
  unfold is_space, in_range.
  repeat (apply orb_false_iff; split);
    try (apply N.eqb_neq; lia);
    apply andb_false_iff; (left; apply N.leb_gt; lia) || (right; apply N.leb_gt; lia).
Qed.

Lemma digit_not_sign (c : N) : is_digit c = true -> c <> 45%N /\ c <> 43%N.
Proof.
  unfold is_digit, in_range. intros H.
  apply andb_prop in H. destruct H as [H1 H2]. apply N.leb_le in H1. lia.
Qed.

(** The digits of an amount prefix once the commas are removed. *)
Lemma filter_amount_chars (a : jsstring) :
  Forall (fun x => is_amount_char x = true) a ->
  Forall (fun x => is_digit x = true) (filter not_comma a) /\
  (filter not_comma a = [] <-> existsb is_digit a = false).
Proof.
  induction 1 as [|x a Hx _ [IH1 IH2]]; simpl.
  - split; [constructor | tauto].
  - unfold is_amount_char in Hx. apply orb_prop in Hx.
    destruct (is_digit x) eqn:Hd.
    + rewrite (digit_not_comma _ Hd). simpl. split; [constructor; auto|].
      split; discriminate.
    + destruct Hx as [Hx|Hx]; [discriminate|].
      unfold not_comma. rewrite Hx. simpl. auto.
Qed.

Lemma filter_digits_id (d : jsstring) :
  Forall (fun x => is_digit x = true) d -> filter not_comma d = d.
Proof.
  induction 1 as [|x d Hx _ IH]; simpl; [reflexivity|].
  rewrite (digit_not_comma _ Hx), IH. reflexivity.
Qed.

Lemma unsigned_decimal_digits (a b : jsstring) :
  Forall (fun x => is_digit x = true) a ->
  (b = [] \/ exists d, b = dot :: d /\ d <> [] /\
                       Forall (fun x => is_digit x = true) d) ->
  (unsigned_decimal (a ++ b) = None <-> a = [] /\ b = []).
Proof.
  intros Ha Hb. unfold unsigned_decimal.
  rewrite (takeWhile_all _ _ Ha), (dropWhile_all _ _ Ha).
  destruct Hb as [-> | (d & -> & Hd & Hfd)].
  - simpl. rewrite app_nil_r. destruct a; simpl; [tauto|].
    split; [discriminate | intros [E _]; discriminate].
  - change (takeWhile is_digit (dot :: d)) with (@nil N).
    change (dropWhile is_digit (dot :: d)) with (dot :: d).
    rewrite app_nil_r. change (Pos.to_nat 1) with 1.
    cbv iota beta. unfold dot at 1. rewrite (takeWhile_id _ Hfd).
    destruct a; destruct d; try congruence;
      (split; [discriminate | intros [E1 E2]; discriminate]).
Qed.

Lemma parseFloat_unsigned (t : jsstring) :
  match t with
  | [] => True
  | c :: _ => is_space c = false /\ c <> 45%N /\ c <> 43%N
  end -> parseFloat t = unsigned_decimal t.
Proof.
  unfold parseFloat, trimStart. destruct t as [|c t]; [reflexivity|].
  intros (Hs & H1 & H2). simpl. rewrite Hs.
  destruct c as [|p]; [reflexivity|].
  repeat (destruct p as [p|p|]; try reflexivity); try congruence.
Qed.

(** parseFloat gives NaN on the text of group 1 exactly when the group holds
    no digit, that is when it is made of commas only. *)
Lemma parseFloat_amount (g : jsstring) :
  amount_shape g ->
  (parseFloat (filter not_comma g) = None <-> existsb is_digit g = false).
Proof.
  intros (a & b & -> & Ha & Hfa & Hb).
  destruct (filter_amount_chars Hfa) as [Hda Hea].
  rewrite filter_app, existsb_app.
  assert (Hfb : filter not_comma b = b).
  { destruct Hb as [-> | (d & -> & _ & Hfd)]; [reflexivity|].
    simpl. rewrite (filter_digits_id Hfd). reflexivity. }
  rewrite Hfb.
  rewrite parseFloat_unsigned.
  - rewrite (unsigned_decimal_digits Hda Hb), Hea.
    rewrite orb_false_iff. split; intros [H1 H2]; split; auto.
    + subst b. reflexivity.
    + destruct Hb as [-> | (d & -> & Hd & Hfd)]; [reflexivity|].
      simpl in H2. destruct d as [|x d]; [congruence|].
      inversion Hfd; subst. simpl in H2.
      match goal with H : is_digit x = true |- _ => rewrite H in H2 end.
      discriminate.
  - destruct (filter not_comma a) as [|c t] eqn:E.
    + simpl. destruct Hb as [-> | (d & -> & _ & _)]; [exact I|].
      unfold dot. split; [reflexivity | split; discriminate].
    + simpl. inversion Hda; subst.
      split; [apply digit_not_space; auto | apply digit_not_sign; auto].
Qed.
(** *** What [calculateSum] does with the matches *)

Definition count_total (counts : list (jsstring * nat)) : nat :=
  fold_right (fun kv n => snd kv + n) 0 counts.

(** The amounts parseFloat reads from a list of matches; NaN leaves none. *)
Definition amounts (ms : list rmatch) : list Q :=
  flat_map (fun mt => match parseFloat (amount_text mt) with
                      | Some q => [q]
                      | None => []
                      end) ms.

Definition parses (mt : rmatch) : bool :=
  match parseFloat (amount_text mt) with Some _ => true | None => false end.

(** Group 1 of the match holds a digit. *)
Definition has_digit (mt : rmatch) : bool := existsb is_digit (group1 mt).

Definition Qsum (l : list Q) : Q := fold_right Qplus 0%Q l.

Lemma Qsum_app (l1 l2 : list Q) :
  Qeq (Qsum (l1 ++ l2)) (Qplus (Qsum l1) (Qsum l2)).
Proof.
  induction l1 as [|q l1 IH]; simpl; [ring|]. rewrite IH. ring.
Qed.

Lemma count_total_bump key counts :
  count_total (bump key counts) = S (count_total counts).
Proof.
  induction counts as [|[k n] t IH]; simpl; [reflexivity|].
  destruct (streq k key); simpl; [reflexivity|]. rewrite IH. lia.
Qed.

Lemma fold_on_match from subject date : forall ms a,
  let res := fold_left (on_match from subject date) ms a in
  count_total (a_counts res) = count_total (a_counts a) + length ms /\
  map d_text (a_details res) =
    map d_text (a_details a) ++ map m_text (filter parses ms) /\
  map d_amount (a_details res) = map d_amount (a_details a) ++ amounts ms /\
  Qeq (a_total res) (Qplus (a_total a) (Qsum (amounts ms))).
Proof.
  induction ms as [|mt ms IH]; intros a; cbn zeta.
  - simpl. rewrite !app_nil_r, Nat.add_0_r.
    split; [|split; [|split]]; try reflexivity. ring.
  - cbn [fold_left]. destruct (IH (on_match from subject date a mt)) as (I1 & I2 & I3 & I4).
    rewrite I1, I2, I3, I4. clear IH I1 I2 I3 I4.
    unfold on_match, parses, amounts. cbn [flat_map filter length].
    destruct (parseFloat (amount_text mt)) as [q|]; cbn [a_counts a_details a_total];
      rewrite count_total_bump.
    + rewrite !map_app, <- !app_assoc. simpl.
      split; [|split; [|split]]; try reflexivity; try lia. ring.
    + split; [|split; [|split]]; try reflexivity; try lia.
Qed.

Section Contributions.
Variable unicodeLower : jsstring -> jsstring.

(** All the matches of a call, in the order they are handled. *)
Definition all_matches (emails : list jsstring) (category : jsstring) : list rmatch :=
  flat_map (email_matches (relevantPatterns unicodeLower category)) emails.

Lemma fold_on_email ps : forall emails a,
  let ms := flat_map (email_matches ps) emails in
  let res := fold_left (on_email ps) emails a in
  count_total (a_counts res) = count_total (a_counts a) + length ms /\
  map d_text (a_details res) =
    map d_text (a_details a) ++ map m_text (filter parses ms) /\
  map d_amount (a_details res) = map d_amount (a_details a) ++ amounts ms /\
  Qeq (a_total res) (Qplus (a_total a) (Qsum (amounts ms))).
Proof.
  induction emails as [|e emails IH]; intros a; cbn zeta.
  - simpl. rewrite !app_nil_r, Nat.add_0_r.
    split; [|split; [|split]]; try reflexivity. ring.
  - cbn [fold_left flat_map].
    destruct (IH (on_email ps a e)) as (I1 & I2 & I3 & I4).
    rewrite I1, I2, I3, I4. clear IH I1 I2 I3 I4.
    unfold on_email.
    match goal with |- context [fold_left (on_match ?f ?s ?d) ?ms a] =>
      destruct (fold_on_match f s d ms a) as (J1 & J2 & J3 & J4) end.
    rewrite J1, J2, J3, J4.
    unfold amounts. rewrite !flat_map_app, filter_app, map_app, length_app.
    rewrite <- !app_assoc.
    split; [|split; [|split]]; try reflexivity; try lia.
    rewrite Qsum_app. ring.
Qed.

Lemma relevantPatterns_cases category r :
  In r (relevantPatterns unicodeLower category) ->
  r = money_re \/ r = keyword_re amount_keywords \/
  r = keyword_re plan_keywords \/ r = bare_re.
Proof.
  unfold relevantPatterns, categoryKey, patterns. cbn [find fst].
  repeat match goal with
         | |- context [includes ?a ?b] => destruct (includes a b)
         end;
    intros H; vm_compute in H;
    repeat (destruct H as [H|H];
            [subst r;
             first [ left; reflexivity | right; left; reflexivity
                   | right; right; left; reflexivity
                   | right; right; right; reflexivity ] | ]);
    contradiction.
Qed.

Lemma all_matches_shape emails category :
  Forall (fun mt => exists g, m_group mt = Some g /\ amount_shape g)
         (all_matches emails category).
Proof.
  apply Forall_forall. intros mt H. unfold all_matches in H.
  apply in_flat_map in H. destruct H as (e & _ & H).
  unfold email_matches in H. apply in_flat_map in H. destruct H as (r & Hr & H).
  apply matchAll_sound in H. destruct H as (rest & Hm).
  apply relevantPatterns_cases in Hr.
  destruct Hr as [-> | [-> | [-> | ->]]];
    [apply matches_money in Hm | apply matches_keyword in Hm
     | apply matches_keyword in Hm | apply matches_bare in Hm];
    exact Hm.
Qed.

Lemma parses_has_digit emails category mt :
  In mt (all_matches emails category) -> parses mt = has_digit mt.
Proof.
  intros H. pose proof (all_matches_shape emails category) as F.
  rewrite Forall_forall in F. destruct (F mt H) as (g & Hg & Hs).
  pose proof (parseFloat_amount Hs) as P.
  unfold parses, has_digit, amount_text, group1. rewrite Hg.
  fold not_comma.
  destruct (parseFloat (filter not_comma g)); destruct (existsb is_digit g);
    try reflexivity; destruct P as [P1 P2];
    [ discriminate (P2 eq_refl) | discriminate (P1 eq_refl) ].
Qed.
End Contributions.

Lemma amounts_parses (ms : list rmatch) :
  map (@Some Q) (amounts ms) =
  map (fun mt => parseFloat (amount_text mt)) (filter parses ms).
Proof.
  induction ms as [|mt ms IH]; simpl; [reflexivity|].
  unfold parses at 1. destruct (parseFloat (amount_text mt)) eqn:E; simpl.
  - rewrite E, IH. reflexivity.
  - exact IH.
Qed.

(** C10. In calculateSum every match has a group 1 made of digits and
    commas with at most one decimal point followed by digits, and the
    currency counter is incremented for every match; parseFloat gives NaN on
    the group with its commas removed exactly when the group holds no digit
    (it is made of commas only), and that is the one case the discard branch
    takes: the matches whose group holds a digit are exactly those that
    contribute to [details], in order, each with the amount parseFloat reads,
    and [total] is the sum of those amounts. *)
Theorem calculateSum_contributions (unicodeLower : jsstring -> jsstring)
        (emails : list jsstring) (category : jsstring) :
  let ms := all_matches unicodeLower emails category in
  let r := calculateSum unicodeLower emails category in
  Forall (fun mt => exists g, m_group mt = Some g /\ amount_shape g /\
                    (parseFloat (amount_text mt) = None <->
                     existsb is_digit g = false)) ms /\
  count_total (a_counts (run unicodeLower emails category)) = length ms /\
  map d_text (details r) = map m_text (filter has_digit ms) /\
  map (fun d => Some (d_amount d)) (details r) =
    map (fun mt => parseFloat (amount_text mt)) (filter has_digit ms) /\
  Qeq (total r) (Qsum (map d_amount (details r))).
Proof.
  cbv zeta. unfold calculateSum, run. cbn [total details].
  destruct (fold_on_email (relevantPatterns unicodeLower category) emails acc0)
    as (F1 & F2 & F3 & F4).
  fold (all_matches unicodeLower emails category) in F1, F2, F3, F4.
  cbn [acc0 a_counts a_details a_total map app] in F1, F2, F3, F4.
  assert (E : filter parses (all_matches unicodeLower emails category) =
              filter has_digit (all_matches unicodeLower emails category)).
  { apply filter_ext_in. intros mt H. eapply parses_has_digit; eauto. }
  split; [|split; [|split; [|split]]].
  - pose proof (all_matches_shape unicodeLower emails category) as S.
    rewrite Forall_forall in S |- *. intros mt H.
    destruct (S mt H) as (g & Hg & Hs). exists g. repeat split; auto.
    + unfold amount_text, group1. rewrite Hg. apply (parseFloat_amount Hs).
    + unfold amount_text, group1. rewrite Hg. apply (parseFloat_amount Hs).
  - exact F1.
  - rewrite F2, E. reflexivity.
  - rewrite <- E, <- amounts_parses, <- F3, map_map. reflexivity.
  - rewrite F4, F3. ring.
Qed.

(** A summary whose content names two currencies, the first followed by a
    comma. *)
Definition comma_email : jsstring :=
  lit "From: a@b" ++ [newline] ++ lit "Subject: Trip" ++ [newline] ++ lit "Date: today" ++ [newline]
  ++ lit "Content: pay in USD, not INR".

Definition no_lower (s : jsstring) : jsstring := s.

(** C10, as stated, fails: the one match of the summary above has the group
    [","], parseFloat reads NaN from the empty string left after the comma is
    removed, and the match is counted but adds nothing to details or
    total. *)
Lemma calculateSum_discards_comma_amount :
  all_matches no_lower [comma_email] (lit "misc") =
    [{| m_index := 12; m_text := lit "USD,"; m_group := Some (lit ",") |}] /\
  parseFloat (amount_text {| m_index := 12; m_text := lit "USD,";
                             m_group := Some (lit ",") |}) = None /\
  details (calculateSum no_lower [comma_email] (lit "misc")) = [] /\
  a_counts (run no_lower [comma_email] (lit "misc")) = [(lit "USD", 1)] /\
  total (calculateSum no_lower [comma_email] (lit "misc")) = 0%Q.
Proof. vm_compute. repeat split. Qed.

(** *** Summaries without an amount keyword *)

(** [p] is a prefix of [s] up to the case of ASCII letters. *)
Fixpoint startsWith_ci (s p : jsstring) {struct p} : bool :=
  match p with
  | [] => true
  | a :: p' =>
      match s with
      | [] => false
      | b :: s' => (upper_ascii b =? upper_ascii a)%N && startsWith_ci s' p'
      end
  end.

(** [sub] occurs in [s] up to the case of ASCII letters. *)
Fixpoint includes_ci (s sub : jsstring) : bool :=
  startsWith_ci s sub ||
  match s with
  | [] => false
  | _ :: t => includes_ci t sub
  end.

(** None of the keywords occurs in the text, in any letter case. *)
Definition no_keyword (kws : list string) (text : jsstring) : bool :=
  forallb (fun k => negb (includes_ci text (lit k))) kws.

Lemma matches_chr_ci a w rest c c' :
  matches (chr true a) w rest c c' ->
  exists x, w = [x] /\ (upper_ascii x =? upper_ascii a)%N = true /\ c' = c.
Proof.
  unfold chr. intros H. inversion H as [|p x r0 c0 Hp| | | | | | |]; subst. eauto.
Qed.

Lemma matches_word_ci : forall k w rest c c',
  matches (word true k) w rest c c' -> startsWith_ci (w ++ rest) k = true.
Proof.
  induction k as [|a k IH]; intros w rest c c' H; [reflexivity|].
  destruct k as [|b k].
  - simpl in H. apply matches_chr_ci in H. destruct H as (x & -> & Hx & _).
    simpl. rewrite Hx. reflexivity.
  - change (word true (a :: b :: k)) with (Seq (chr true a) (word true (b :: k))) in H.
    inversion H as [| |r1 r2 w1 w2 r3 c0 c1 c2 Ha Hk| | | | | |]; subst.
    apply matches_chr_ci in Ha. destruct Ha as (x & -> & Hx & _).
    apply IH in Hk.
    change (([x] ++ w2) ++ rest) with (x :: (w2 ++ rest)).
    change (startsWith_ci (x :: (w2 ++ rest)) (a :: b :: k))
      with ((upper_ascii x =? upper_ascii a)%N && startsWith_ci (w2 ++ rest) (b :: k)).
    rewrite Hx, Hk. reflexivity.
Qed.

(** A match of a keyword pattern starts with one of its keywords. *)
Lemma matches_keyword_start kws w rest c c' :
  matches (keyword_re kws) w rest c c' ->
  exists k, In k kws /\ startsWith_ci (w ++ rest) (lit k) = true.
Proof.
  unfold keyword_re. intros H.
  inversion H as [| |r1 r2 w1 w2 r3 c0 c1 c2 Ha Hk| | | | | |]; subst.
  apply matches_alts in Ha. destruct Ha as (r & Hin & Hm).
  apply in_map_iff in Hin. destruct Hin as (k & <- & Hin).
  exists k. split; [exact Hin|].
  apply matches_word_ci in Hm. rewrite <- app_assoc. exact Hm.
Qed.

Lemma no_keyword_here kws s k :
  no_keyword kws s = true -> In k kws -> startsWith_ci s (lit k) = false.
Proof.
  unfold no_keyword. rewrite forallb_forall. intros H Hin.
  specialize (H k Hin). apply negb_true_iff in H.
  destruct s; simpl in H; apply orb_false_iff in H; tauto.
Qed.

Lemma no_keyword_tail kws x s :
  no_keyword kws (x :: s) = true -> no_keyword kws s = true.
Proof.
  unfold no_keyword. rewrite !forallb_forall. intros H k Hin.
  specialize (H k Hin). apply negb_true_iff in H. apply negb_true_iff.
  simpl in H. apply orb_false_iff in H. tauto.
Qed.





Section Flights.
Variable unicodeLower : jsstring -> jsstring.

Lemma relevantPatterns_flights :
  relevantPatterns unicodeLower (lit "flights") =
  [keyword_re amount_keywords; bare_re].
Proof. reflexivity. Qed.

End Flights.

(** *** Summaries with one marker *)

(** The currency symbols of the patterns ("Rs." starts with "Rs"). *)
Definition symbols : list jsstring :=
  [[rupee]; lit "Rs"; lit "INR"; lit "USD"; lit "$"].

(** One of the symbols starts the text, in any letter case. *)
Definition starts_symbol (s : jsstring) : bool :=
  existsb (startsWith_ci s) symbols.

(** None of the symbols occurs in the text, in any letter case. *)
Definition no_symbol (s : jsstring) : bool :=
  forallb (fun sym => negb (includes_ci s sym)) symbols.

Lemma matches_currency_start w rest c c' :
  matches (currency_re true) w rest c c' -> starts_symbol (w ++ rest) = true.
Proof.
  intros H. unfold starts_symbol, symbols.
  apply (matches_alts [chr true rupee; Seq (str true "Rs") (Opt (chr true dot));
                       str true "INR"; str true "USD"; chr true 36]) in H.
  destruct H as (r & Hin & Hm). cbn [existsb].
  destruct Hin as [<- | [<- | [<- | [<- | [<- | []]]]]].
  - apply (matches_word_ci [rupee]) in Hm. rewrite Hm. reflexivity.
  - inversion Hm as [| |r1 r2 w1 w2 r3 c0 c1 c2 Ha Hb| | | | | |]; subst.
    apply (matches_word_ci (lit "Rs")) in Ha. rewrite <- app_assoc, Ha.
    apply orb_true_r.
  - apply (matches_word_ci (lit "INR")) in Hm. rewrite Hm.
    rewrite !orb_true_r. reflexivity.
  - apply (matches_word_ci (lit "USD")) in Hm. rewrite Hm.
    rewrite !orb_true_r. reflexivity.
  - apply (matches_word_ci (lit "$")) in Hm. rewrite Hm.
    rewrite !orb_true_r. reflexivity.
Qed.

(** Where no symbol starts, the bare pattern does not match. *)
Lemma bare_needs_symbol (s : jsstring) :
  starts_symbol s = false -> exec_at bare_re s = None.
Proof.
  intros H. destruct (exec_at bare_re s) as [[rest g]|] eqn:E; [|reflexivity].
  apply exec_at_sound in E. destruct E as (w & -> & Hm).
  unfold bare_re in Hm.
  inversion Hm as [| |r1 r2 w1 w2 r3 c0 c1 c2 Ha Hb| | | | | |]; subst.
  apply matches_currency_start in Ha. rewrite <- app_assoc in H. congruence.
Qed.

Lemma no_symbol_start (s : jsstring) :
  no_symbol s = true -> starts_symbol s = false.
Proof.
  unfold no_symbol, starts_symbol. intros H.
  apply not_true_is_false. intros E.
  apply existsb_exists in E. destruct E as (sym & Hin & Hs).
  rewrite forallb_forall in H. specialize (H sym Hin).
  apply negb_true_iff in H. destruct s; simpl in H;
    apply orb_false_iff in H; destruct H as [H _]; congruence.
Qed.

Lemma no_symbol_tail (x : N) (s : jsstring) :
  no_symbol (x :: s) = true -> no_symbol s = true.
Proof.
  unfold no_symbol. rewrite !forallb_forall. intros H sym Hin.
  specialize (H sym Hin). apply negb_true_iff in H. apply negb_true_iff.
  simpl in H. apply orb_false_iff in H. tauto.
Qed.

(** A text without symbols holds no match of the bare pattern. *)
Lemma no_symbol_search : forall s idx,
  no_symbol s = true -> search bare_re idx s = None.
Proof.
  induction s as [|x s IH]; intros idx H; cbn [search];
    rewrite (@bare_needs_symbol _ (@no_symbol_start _ H)); [reflexivity|].
  apply IH. eapply no_symbol_tail; eauto.
Qed.

(** White space before the next character of the text ends every attempt at
    a symbol that starts before it. *)
Lemma startsWith_ci_separated (sep : N) : forall k a b,
  forallb (fun x => negb (upper_ascii sep =? upper_ascii x)%N) k = true ->
  startsWith_ci (a ++ sep :: b) k = startsWith_ci a k.
Proof.
  induction k as [|x k IH]; intros a b H; [reflexivity|].
  cbn [forallb] in H. apply andb_prop in H. destruct H as [Hx Hk].
  apply negb_true_iff in Hx.
  destruct a as [|y a]; cbn [app startsWith_ci].
  - rewrite Hx. reflexivity.
  - rewrite (IH a b Hk). reflexivity.
Qed.



Lemma starts_symbol_separated (a b : jsstring) :
  starts_symbol (a ++ space :: b) = starts_symbol a.
Proof.
  unfold starts_symbol, symbols. cbn [existsb].
  rewrite !(startsWith_ci_separated space) by reflexivity. reflexivity.
Qed.

(** The search runs over a subject without symbols and the space after
    it. *)
Lemma search_past_subject (rest : jsstring) : forall subject idx,
  no_symbol subject = true ->
  search bare_re idx (subject ++ space :: rest)
  = search bare_re (S (idx + length subject)) rest.
Proof.
  induction subject as [|x s IH]; intros idx H.
  - cbn [app length]. cbn [search].
    rewrite (@bare_needs_symbol (space :: rest)) by reflexivity.
    rewrite Nat.add_0_r. reflexivity.
  - cbn [app length search].
    change (x :: s ++ space :: rest) with ((x :: s) ++ space :: rest).
    rewrite (@bare_needs_symbol ((x :: s) ++ space :: rest))
      by (rewrite starts_symbol_separated; apply no_symbol_start; exact H).
    rewrite IH by (eapply no_symbol_tail; eauto).
    f_equal. lia.
Qed.

(** The text that starts the marker: "Rs." and what follows. *)
Definition after_Rs (tail : jsstring) : jsstring := lit "Rs." ++ tail.

(** No match starts in a text without symbols that is followed by the
    marker: a symbol cannot take its last letters from "Rs.", except "INR",
    and then no amount follows. *)
Lemma bare_before_marker (a tail : jsstring) :
  a <> [] -> no_symbol a = true ->
  exec_at bare_re (a ++ after_Rs tail) = None.
Proof.
  intros Hne H. pose proof (@no_symbol_start _ H) as Hs.
  destruct a as [|x [|y [|z a]]]; [congruence| | |].
  - apply bare_needs_symbol. rewrite <- Hs.
    unfold starts_symbol, symbols, after_Rs. cbn.
    rewrite ?andb_false_r. reflexivity.
  - destruct (starts_symbol ([x; y] ++ after_Rs tail)) eqn:E;
      [|apply bare_needs_symbol; exact E].
    unfold starts_symbol, symbols, after_Rs, rupee in E, Hs. cbn in E, Hs.
    unfold exec_at, bare_re, currency_re, after_Rs, rupee. cbn.
    destruct (upper_ascii x =? 8377)%N eqn:T1;
      destruct (upper_ascii x =? 36)%N eqn:T5;
      destruct (upper_ascii x =? 82)%N eqn:T2;
      destruct (upper_ascii x =? 73)%N eqn:T3;
      destruct (upper_ascii x =? 85)%N eqn:T6;
      destruct (upper_ascii y =? 83)%N eqn:T7;
      destruct (upper_ascii y =? 78)%N eqn:T4;
      cbn in E, Hs; try discriminate; cbn; try reflexivity;
      repeat match goal with
             | T : (_ =? _)%N = true |- _ => apply N.eqb_eq in T
             end; congruence.
  - apply bare_needs_symbol. rewrite <- Hs. reflexivity.
Qed.

(** The search runs over a text without symbols up to the marker. *)
Lemma search_up_to_marker (tail : jsstring) : forall pre idx,
  no_symbol pre = true ->
  search bare_re idx (pre ++ after_Rs tail)
  = search bare_re (idx + length pre) (after_Rs tail).
Proof.
  induction pre as [|x pre IH]; intros idx H.
  - cbn [app length]. rewrite Nat.add_0_r. reflexivity.
  - cbn [app length search].
    change (x :: pre ++ after_Rs tail) with ((x :: pre) ++ after_Rs tail).
    rewrite (@bare_before_marker (x :: pre) tail) by (auto; discriminate).
    rewrite IH by (eapply no_symbol_tail; eauto).
    f_equal. lia.
Qed.

(** What follows the marker does not go on with the amount: it does not
    start with a digit, a comma, or a point and a digit. *)
Definition ends_amount (post : jsstring) : bool :=
  match post with
  | [] => true
  | c :: t =>
      negb (is_amount_char c)
      && negb ((c =? dot)%N && match t with d :: _ => is_digit d | [] => false end)
  end.



(** The part of [s] before its suffix [s']. *)
Definition consumed (s s' : jsstring) : jsstring :=
  firstn (length s - length s') s.






(** In a text without symbols around one marker, the bare pattern finds the
    marker and nothing else. *)
Lemma matchAll_one_marker (marker amount subject pre post : jsstring) :
  (forall p, ends_amount p = true ->
             exec_at bare_re (marker ++ p) = Some (skipn 1 p, Some amount)) ->
  (exists tail, marker = after_Rs tail) ->
  no_symbol subject = true -> no_symbol pre = true -> no_symbol post = true ->
  ends_amount post = true ->
  exists mt,
    matchAll bare_re (subject ++ [space] ++ pre ++ marker ++ post) = [mt] /\
    m_text mt = marker ++ firstn 1 post /\ m_group mt = Some amount.
Proof.
  intros Hexec (tail & Hmarker) Hs Hpre Hpost Hend.
  assert (Hne : marker <> []) by (subst marker; discriminate).
  unfold matchAll. cbn [matches_from app].
  rewrite search_past_subject by exact Hs.
  assert (Em : marker ++ post = after_Rs (tail ++ post))
    by (subst marker; unfold after_Rs; rewrite <- app_assoc; reflexivity).
  rewrite Em, search_up_to_marker by exact Hpre. rewrite <- Em.
  assert (Etext : firstn (length (marker ++ post) - length (skipn 1 post))
                         (marker ++ post) = marker ++ firstn 1 post).
  { rewrite <- (firstn_skipn 1 post) at 1 3. rewrite app_assoc.
    apply firstn_consumed. }
  assert (Esearch : forall idx,
             search bare_re idx (marker ++ post)
             = Some ({| m_index := idx;
                        m_text := marker ++ firstn 1 post;
                        m_group := Some amount |}, skipn 1 post)).
  { intros idx. rewrite (@search_hit _ idx _ _ _ (Hexec post Hend)), Etext. reflexivity. }
  rewrite Esearch.
  exists {| m_index := S (0 + length subject) + length pre;
            m_text := marker ++ firstn 1 post; m_group := Some amount |}.
  split; [|split; reflexivity].
  cbn [m_text m_index]. f_equal.
  destruct (marker ++ firstn 1 post) as [|x s] eqn:E;
    [destruct marker; [congruence | discriminate]|].
  assert (Hrest : no_symbol (skipn 1 post) = true)
    by (destruct post; [exact Hpost | eapply no_symbol_tail; exact Hpost]).
  rewrite !length_app. cbn [length]. rewrite Nat.add_succ_r. cbn [matches_from].
  rewrite (@no_symbol_search _ _ Hrest). reflexivity.
Qed.

(** *** The summaries of the flight scenario *)

(** The text has no line break. *)
Definition one_line (s : jsstring) : bool :=
  forallb (fun c => negb (c =? newline)%N) s.

(** A summary as parseEmailData writes it. *)
Definition summary (from subject date content : jsstring) : jsstring :=
  lit "From: " ++ from ++ [newline] ++ lit "Subject: " ++ subject ++ [newline]
  ++ lit "Date: " ++ date ++ [newline] ++ lit "Content: " ++ content.

Lemma split_one_line : forall a,
  one_line a = true -> split newline a = [a].
Proof.
  induction a as [|c a IH]; intros H; [reflexivity|].
  cbn [one_line forallb] in H. apply andb_prop in H. destruct H as [Hc Ha].
  apply negb_true_iff in Hc. cbn [split]. rewrite Hc, (IH Ha). reflexivity.
Qed.

Lemma split_line (b : jsstring) : forall a,
  one_line a = true -> split newline (a ++ newline :: b) = a :: split newline b.
Proof.
  induction a as [|c a IH]; intros H.
  - cbn [app split]. rewrite N.eqb_refl. reflexivity.
  - cbn [one_line forallb] in H. apply andb_prop in H. destruct H as [Hc Ha].
    apply negb_true_iff in Hc. cbn [app split]. rewrite Hc, (IH Ha). reflexivity.
Qed.

Lemma one_line_app (a b : jsstring) :
  one_line a = true -> one_line b = true -> one_line (a ++ b) = true.
Proof. unfold one_line. intros Ha Hb. rewrite forallb_app, Ha, Hb. reflexivity. Qed.

(** calculateSum searches the subject, a space and the content of such a
    summary. *)
Lemma searchText_summary (from subject date content : jsstring) :
  one_line from = true -> one_line subject = true -> one_line date = true ->
  one_line content = true ->
  searchText (summary from subject date content)
  = subject ++ [space] ++ content.
Proof.
  intros Hf Hs Hd Hc. unfold searchText.
  assert (E : summary from subject date content
              = (lit "From: " ++ from) ++ newline ::
                (lit "Subject: " ++ subject) ++ newline ::
                (lit "Date: " ++ date) ++ newline :: (lit "Content: " ++ content))
    by (unfold summary; rewrite <- !app_assoc; reflexivity).
  rewrite E.
  rewrite split_line by (apply one_line_app; [reflexivity | exact Hf]).
  rewrite split_line by (apply one_line_app; [reflexivity | exact Hs]).
  rewrite split_line by (apply one_line_app; [reflexivity | exact Hd]).
  rewrite split_one_line by (apply one_line_app; [reflexivity | exact Hc]).
  reflexivity.
Qed.




Definition flight_email_1 : jsstring :=
  summary (lit "bookings@air.example") (lit "Your flight booking") (lit "Mon")
          (lit "You paid " ++ lit "Rs. " ++ lit "4500" ++ lit " for Delhi to Goa").

Definition flight_email_2 : jsstring :=
  summary (lit "bookings@air.example") (lit "Your flight booking") (lit "Tue")
          ([] ++ lit "Rs. " ++ lit "3200" ++ lit ". Thank you").





Example money_re_example :
  map (fun mt => (m_index mt, m_text mt, m_group mt))
      (matchAll money_re (lit "Total: rs 1,200.50 and $3"))
  = [(7, lit "rs 1,200.50", Some (lit "1,200.50")); (23, lit "$3", Some (lit "3"))].
Proof. vm_compute. reflexivity. Qed.

Example bare_re_example :
  map (fun mt => (m_text mt, m_group mt)) (matchAll bare_re (lit "$2$3 USD 7."))
  = [(lit "$2$", Some (lit "2")); (lit "USD 7.", Some (lit "7"))].
Proof. vm_compute. reflexivity. Qed.

Example categoryKey_example :
  categoryKey no_lower (lit "My Flights") = lit "flight" /\
  categoryKey no_lower (lit "movies") = lit "default".
Proof. vm_compute. split; reflexivity. Qed.

End Aggregator.

(* ================================================================== *)
(** ** The world outside the process *)
(* ================================================================== *)

Module World.
Import JS Parser.

(** The fields of a thrown value that the source reads: [status],
    [error.type], [message], [code] and [errors[0].message]. *)
Record JsError : Type := {
  e_status : option Z;
  e_type : option jsstring;
  e_message : option jsstring;
  e_code : option Z;
  e_detail : option jsstring
}.

(** [new Error(msg)] *)
Definition Error (msg : jsstring) : JsError :=
  {| e_status := None; e_type := None; e_message := Some msg;
     e_code := None; e_detail := None |}.

(** The prompt sent to the reasoning service, by the data interpolated into
    its template: the user query, [Array.from(previousQueries)], the email
    batch, [forceFinal], the iteration number, and how many times the
    "already searched" note was appended. *)
Record Prompt : Type := {
  p_userQuery : jsstring;
  p_previous : list jsstring;
  p_emails : list jsstring;
  p_forceFinal : bool;
  p_iteration : nat;
  p_notes : nat
}.

(** What [anthropic.messages.create] does: it throws, or it answers with a
    content that has a text block or none. *)
Inductive llm_reply : Type :=
| LlmThrows (e : JsError)
| LlmContent (text : option jsstring).

(** The services, as functions of the clock and of their argument. *)
Record Env : Type := {
  llm : nat -> Prompt -> llm_reply;
  gmail_list : nat -> jsstring -> JsError + option (list jsstring);
  gmail_get : nat -> jsstring -> JsError + emailData;
  random : nat -> Q;
  refreshAccessToken : nat -> jsstring -> option JsError
}.

Inductive event : Type :=
| EvLlm (p : Prompt)            (* anthropic.messages.create *)
| EvSleep (ms : Q)              (* setTimeout(resolve, delay) *)
| EvList (q : jsstring)         (* gmail.users.messages.list *)
| EvGet (id : jsstring)         (* gmail.users.messages.get *)
| EvRefresh                     (* oauth2Client.refreshAccessToken *)
| EvReprompt                    (* a repeated query is refused *)
| EvSearch (query : jsstring)   (* searchEmails entered *)
| EvIteration (n : nat).        (* the agent loop starts iteration n *)

(** [previousQueries] is the module-level set of the source, in insertion
    order. *)
Record state : Type := {
  clock : nat;
  previousQueries : list jsstring;
  log : list event
}.

Inductive outcome (A : Type) : Type :=
| Returns (a : A)
| Throws (e : JsError)
| Unfinished.
Arguments Returns {A} a.
Arguments Throws {A} e.
Arguments Unfinished {A}.

Definition M (A : Type) : Type := state -> outcome A * state.

Definition ret {A} (a : A) : M A := fun st => (Returns a, st).
Definition throw {A} (e : JsError) : M A := fun st => (Throws e, st).
Definition unfinished {A} : M A := fun st => (Unfinished, st).

Definition bind {A B} (m : M A) (k : A -> M B) : M B :=
  fun st =>
    match m st with
    | (Returns a, st') => k a st'
    | (Throws e, st') => (Throws e, st')
    | (Unfinished, st') => (Unfinished, st')
    end.

(** [try { m } catch (error) { h error }] *)
Definition try_catch {A} (m : M A) (h : JsError -> M A) : M A :=
  fun st =>
    match m st with
    | (Throws e, st') => h e st'
    | r => r
    end.

(** The state once [ev] is logged. *)
Definition logged (ev : event) (st : state) : state :=
  {| clock := clock st; previousQueries := previousQueries st;
     log := log st ++ [ev] |}.

(** The state once a call that leaves the process is logged: the clock
    advances. *)
Definition advanced (ev : event) (st : state) : state :=
  {| clock := S (clock st); previousQueries := previousQueries st;
     log := log st ++ [ev] |}.

Definition emit (ev : event) : M unit :=
  fun st => (Returns tt, logged ev st).

Definition tick (ev : event) : M nat :=
  fun st => (Returns (clock st), advanced ev st).

Definition get_previous : M (list jsstring) :=
  fun st => (Returns (previousQueries st), st).

Definition set_previous (qs : list jsstring) : M unit :=
  fun st => (Returns tt, {| clock := clock st; previousQueries := qs;
                            log := log st |}).

Definition of_sum {A} (r : JsError + A) : M A :=
  match r with inl e => throw e | inr a => ret a end.

Module Notations.
Notation "'let*' x ':=' m 'in' k" := (bind m (fun x => k))
  (at level 10, x name, m at level 100, k at level 200).
End Notations.

(** The events a computation adds to the log. *)
Definition added (before after : state) : list event :=
  skipn (length (log before)) (log after).

(** *** Computations whose events all satisfy a test *)

Definition logs (P : event -> bool) {A : Type} (m : M A) : Prop :=
  forall st, exists new,
    log (snd (m st)) = log st ++ new /\ forallb P new = true.

Lemma logs_ret (P : event -> bool) A (a : A) : logs P (ret a).
Proof. intros st. exists []. cbn. rewrite app_nil_r. auto. Qed.

Lemma logs_throw (P : event -> bool) A (e : JsError) : logs P (@throw A e).
Proof. intros st. exists []. cbn. rewrite app_nil_r. auto. Qed.

Lemma logs_unfinished (P : event -> bool) A : logs P (@unfinished A).
Proof. intros st. exists []. cbn. rewrite app_nil_r. auto. Qed.

Lemma logs_of_sum (P : event -> bool) A (r : JsError + A) : logs P (of_sum r).
Proof. destruct r; [apply logs_throw | apply logs_ret]. Qed.

Lemma logs_emit (P : event -> bool) ev : P ev = true -> logs P (emit ev).
Proof. intros H st. exists [ev]. cbn. rewrite H. auto. Qed.

Lemma logs_tick (P : event -> bool) ev : P ev = true -> logs P (tick ev).
Proof. intros H st. exists [ev]. cbn. rewrite H. auto. Qed.

Lemma logs_get_previous (P : event -> bool) : logs P get_previous.
Proof. intros st. exists []. cbn. rewrite app_nil_r. auto. Qed.

Lemma logs_set_previous (P : event -> bool) qs : logs P (set_previous qs).
Proof. intros st. exists []. cbn. rewrite app_nil_r. auto. Qed.

Lemma logs_bind (P : event -> bool) A B (m : M A) (k : A -> M B) :
  logs P m -> (forall a, logs P (k a)) -> logs P (bind m k).
Proof.
  intros Hm Hk st. unfold bind. destruct (Hm st) as (new1 & Hl1 & Hp1).
  destruct (m st) as [[a|e|] st1]; cbn [snd] in *.
  - destruct (Hk a st1) as (new2 & Hl2 & Hp2).
    exists (new1 ++ new2). rewrite Hl2, Hl1, app_assoc, forallb_app, Hp1, Hp2. auto.
  - exists new1. auto.
  - exists new1. auto.
Qed.

Lemma logs_try_catch (P : event -> bool) A (m : M A) (h : JsError -> M A) :
  logs P m -> (forall e, logs P (h e)) -> logs P (try_catch m h).
Proof.
  intros Hm Hh st. unfold try_catch. destruct (Hm st) as (new1 & Hl1 & Hp1).
  destruct (m st) as [[a|e|] st1]; cbn [snd] in *.
  - exists new1. auto.
  - destruct (Hh e st1) as (new2 & Hl2 & Hp2).
    exists (new1 ++ new2). rewrite Hl2, Hl1, app_assoc, forallb_app, Hp1, Hp2. auto.
  - exists new1. auto.
Qed.

Lemma logs_weaken (P Q : event -> bool) A (m : M A) :
  (forall ev, P ev = true -> Q ev = true) -> logs P m -> logs Q m.
Proof.
  intros H Hm st. destruct (Hm st) as (new & Hl & Hp). exists new. split; [exact Hl|].
  rewrite forallb_forall in *. auto.
Qed.

End World.

(* ================================================================== *)
(** ** searchEmails: the search executor *)
(* ================================================================== *)

Module Search.
Import JS Regex Parser World World.Notations.

Definition colon : N := 58.
Definition space : N := 32.
Definition dquote : N := 34.

Definition operator_names : list string :=
  ["newer_than"; "older_than"; "after"; "before"; "from"; "to"; "subject";
   "in"; "has"; "is"; "label"]%string.

(** [/(newer_than|older_than|after|before|from|to|subject|in|has|is|label):[^\s]+/g] *)
Definition operator_re : regex :=
  Seq (alts (map (str false) operator_names))
      (Seq (chr false colon) (Plus (Cls (fun c => negb (is_space c))))).

(** [query.match(operator_re) || []] *)
Definition operators (query : jsstring) : list rmatch :=
  matchAll operator_re query.

(** The first query sent: [query] when [operators.length > 0], otherwise
    [query] between double quotes. *)
Definition tier1_query (query : jsstring) : jsstring :=
  if 0 <? length (operators query) then query
  else [dquote] ++ query ++ [dquote].

(** The class of [cleanQuery]: the two parentheses, the colon and the double
    quote. *)
Definition is_stripped (c : N) : bool :=
  (c =? 40)%N || (c =? 41)%N || (c =? colon)%N || (c =? dquote)%N.

(** [query.replace(..., ' ')]: each of those characters becomes a space. *)
Definition cleanQuery (query : jsstring) : jsstring :=
  map (fun c => if is_stripped c then space else c) query.

(** [cleanQuery.split(' ').filter(term => term.length > 1)] *)
Definition terms (query : jsstring) : list jsstring :=
  filter (fun term => 1 <? length term) (split space (cleanQuery query)).

(** The fallback query: the terms joined with [' OR ']. *)
Definition tier2_query (query : jsstring) : jsstring :=
  join (lit " OR ") (terms query).

Section Executor.
Variable decode : jsstring -> option jsstring.
Variable env : Env.

Definition messages_list (q : jsstring) : M (option (list jsstring)) :=
  let* t := tick (EvList q) in of_sum (gmail_list env t q).

Definition messages_get (id : jsstring) : M emailData :=
  let* t := tick (EvGet id) in of_sum (gmail_get env t id).

(** The loop over [response.data.messages]. *)
Fixpoint fetch (messages : list jsstring) (processedIds : list jsstring)
         (emails : list jsstring) : M (list jsstring) :=
  match messages with
  | [] => ret emails
  | id :: rest =>
      if existsb (streq id) processedIds then fetch rest processedIds emails
      else
        let* email := messages_get id in
        let emails' := emails ++ [parseEmailData decode email] in
        if 5 <=? length emails' then ret emails'
        else fetch rest (processedIds ++ [id]) emails'
  end.

Definition searchEmails (query : jsstring) : M (list jsstring) :=
  let* _ := emit (EvSearch query) in
  let* r1 := messages_list (tier1_query query) in
  let* r2 := match r1 with
             | None => messages_list (tier2_query query)
             | Some _ => ret r1
             end in
  match r2 with
  | None => ret []
  | Some messages => fetch messages [] []
  end.
End Executor.

(** *** Queries that carry a field operator *)

(** The query holds one of the operator names, a colon and at least one
    character that is not white space. *)
Definition has_operator (query : jsstring) : Prop :=
  exists pre op v post,
    In op operator_names /\ v <> [] /\
    Forall (fun c => is_space c = false) v /\
    query = pre ++ lit op ++ [colon] ++ v ++ post.

Lemma operator_re_matches op v post :
  In op operator_names -> v <> [] ->
  Forall (fun c => is_space c = false) v ->
  matches operator_re (lit op ++ [colon] ++ v) post None None.
Proof.
  intros Hop Hne Hv. unfold operator_re.
  econstructor.
  - eapply alts_matches; [apply in_map; exact Hop|]. apply word_matches.
  - econstructor.
    + constructor. apply N.eqb_refl.
    + apply plus_cls_matches; [exact Hne|].
      eapply Forall_impl; [|exact Hv]. intros a Ha. simpl. rewrite Ha. reflexivity.
Qed.

Lemma operator_re_inv w rest c c' :
  matches operator_re w rest c c' ->
  exists op v, In op operator_names /\ v <> [] /\
               Forall (fun c => is_space c = false) v /\
               w = lit op ++ [colon] ++ v.
Proof.
  unfold operator_re. intros H.
  inversion H as [| |r1 r2 w1 w2 r3 c0 c1 c2 Ha Hb| | | | | |]; subst.
  apply (matches_alts (map (str false) operator_names)) in Ha.
  destruct Ha as (r & Hin & Hm).
  apply in_map_iff in Hin. destruct Hin as (op & <- & Hin).
  apply matches_word_exact in Hm. destruct Hm as [-> _].
  inversion Hb as [| |r1 r2 w3 w4 r3 c0 c3 c4 Hc Hv| | | | | |]; subst.
  apply matches_chr_exact in Hc. destruct Hc as [-> _].
  apply matches_plus_cls in Hv. destruct Hv as (Hne & Hv & _).
  exists op, w4. repeat split; auto.
  eapply Forall_impl; [|exact Hv]. intros a Ha. simpl in Ha.
  apply negb_true_iff in Ha. exact Ha.
Qed.

(** The pattern finds an operator exactly in the queries that hold one. *)
Lemma operators_found (query : jsstring) :
  (0 <? length (operators query)) = true <-> has_operator query.
Proof.
  unfold operators. split.
  - intros H. apply Nat.ltb_lt in H.
    assert (Hne : matchAll operator_re query <> [])
      by (destruct (matchAll operator_re query); simpl in H; [lia | discriminate]).
    apply matchAll_nonempty in Hne.
    destruct (search operator_re 0 query) as [[mt rest]|] eqn:E; [|congruence].
    apply search_decomp in E. destruct E as (pre & Hq & Hm).
    apply operator_re_inv in Hm. destruct Hm as (op & v & Hop & Hne' & Hv & Hw).
    exists pre, op, v, rest. repeat split; auto.
    rewrite Hq, Hw. rewrite <- !app_assoc. reflexivity.
  - intros (pre & op & v & post & Hop & Hne & Hv & ->).
    pose proof (operator_re_matches post Hop Hne Hv) as Hm.
    apply exec_at_complete in Hm.
    pose proof (@search_finds _ _ Hm pre 0) as Hs.
    rewrite <- !app_assoc in Hs.
    apply matchAll_nonempty in Hs. apply Nat.ltb_lt.
    destruct (matchAll operator_re _); [congruence | simpl; lia].
Qed.

(** The first query is the query itself when it holds an operator, and the
    query between double quotes when it holds none. *)
Lemma tier1_query_cases (query : jsstring) :
  (has_operator query -> tier1_query query = query) /\
  (~ has_operator query -> tier1_query query = [dquote] ++ query ++ [dquote]).
Proof.
  unfold tier1_query. split; intros H.
  - apply operators_found in H. rewrite H. reflexivity.
  - destruct (0 <? length (operators query)) eqn:E; [|reflexivity].
    apply operators_found in E. contradiction.
Qed.

(** *** The queries a search sends *)

(** The queries of the [messages.list] calls among some events. *)
Definition issued (evs : list event) : list jsstring :=
  flat_map (fun ev => match ev with EvList q => [q] | _ => [] end) evs.

Lemma added_app (st st' : state) (new : list event) :
  log st' = log st ++ new -> added st st' = new.
Proof.
  unfold added. intros ->. rewrite skipn_app, skipn_all, Nat.sub_diag. reflexivity.
Qed.

Section Ladder.
Variable decode : jsstring -> option jsstring.
Variable env : Env.

(** Fetching the messages sends no query. *)
Lemma fetch_log : forall messages processedIds emails st,
  exists new, log (snd (fetch decode env messages processedIds emails st))
              = log st ++ new /\ issued new = [] /\
              clock st <= clock (snd (fetch decode env messages processedIds emails st)).
Proof.
  induction messages as [|id rest IH]; intros processedIds emails st.
  - exists []. simpl. rewrite app_nil_r. auto.
  - cbn [fetch]. destruct (existsb (streq id) processedIds); [apply IH|].
    cbv beta iota delta [bind messages_get tick of_sum throw ret advanced logged].
    destruct (gmail_get env (clock st) id) as [e|email];
      cbn [fst snd clock log previousQueries].
    + exists [EvGet id]. auto.
    + destruct (5 <=? length (emails ++ [parseEmailData decode email]));
        cbn [fst snd clock log previousQueries].
      * exists [EvGet id]. auto.
      * match goal with |- context [fetch decode env rest ?p ?e ?s] =>
          destruct (IH p e s) as (new & Hl & Hi & Hc) end.
        exists (EvGet id :: new). rewrite Hl. cbn [log clock] in *.
        rewrite <- app_assoc. repeat split; auto. lia.
Qed.

(** C1. searchEmails sends the first query (the input between double quotes,
    or unchanged when it holds an operator); it sends a second query exactly
    when the first answer carries no message list, and that query joins with
    " OR " the terms longer than one character that remain once the
    parentheses, colons and double quotes are replaced by spaces and the
    text is split at every space; it never sends a third query; and when
    neither answer carries a message list it returns the empty list. *)
Theorem searchEmails_ladder (query : jsstring) (st : state) :
  let q1 := tier1_query query in
  let q2 := tier2_query query in
  let out := searchEmails decode env query st in
  let qs := issued (added st (snd out)) in
  (qs = [q1] \/ qs = [q1; q2]) /\
  (qs = [q1; q2] <-> gmail_list env (clock st) q1 = inr None) /\
  (gmail_list env (clock st) q1 = inr None ->
   gmail_list env (S (clock st)) q2 = inr None ->
   fst out = Returns [] /\ qs = [q1; q2]).
Proof.
  cbv zeta.
  cbv beta iota delta [searchEmails bind emit messages_list tick of_sum throw ret
                       advanced logged].
  cbn [fst snd clock log previousQueries].
  destruct (gmail_list env (clock st) (tier1_query query)) as [e|[ms|]] eqn:E1;
    cbn [fst snd clock log previousQueries].
  - rewrite (@added_app st _ [EvSearch query; EvList (tier1_query query)])
      by (cbn; rewrite <- app_assoc; reflexivity).
    cbn. repeat split; auto; try discriminate; try (intros H; inversion H).
  - match goal with |- context [fetch decode env ms ?p ?e ?s] =>
      destruct (fetch_log ms p e s) as (new & Hl & Hi & _) end.
    cbn [log] in Hl.
    rewrite (@added_app st _ ([EvSearch query; EvList (tier1_query query)] ++ new))
      by (rewrite Hl, <- !app_assoc; reflexivity).
    unfold issued in *. rewrite flat_map_app, Hi. cbn.
    repeat split; auto; try discriminate; try (intros H; inversion H).
  - destruct (gmail_list env (S (clock st)) (tier2_query query)) as [e|[ms|]] eqn:E2;
      cbn [fst snd clock log previousQueries].
    + rewrite (@added_app st _ [EvSearch query; EvList (tier1_query query);
                                EvList (tier2_query query)])
        by (cbn; rewrite <- !app_assoc; reflexivity).
      cbn. repeat split; auto; try discriminate; try (intros H; inversion H).
    + match goal with |- context [fetch decode env ms ?p ?e ?s] =>
        destruct (fetch_log ms p e s) as (new & Hl & Hi & _) end.
      cbn [log] in Hl.
      rewrite (@added_app st _ ([EvSearch query; EvList (tier1_query query);
                                 EvList (tier2_query query)] ++ new))
        by (rewrite Hl, <- !app_assoc; reflexivity).
      unfold issued in *. rewrite flat_map_app, Hi. cbn.
      repeat split; auto; try discriminate; try (intros H; inversion H).
    + rewrite (@added_app st _ [EvSearch query; EvList (tier1_query query);
                                EvList (tier2_query query)])
        by (cbn; rewrite <- !app_assoc; reflexivity).
      cbn. repeat split; auto.
Qed.

(** Whatever the mail store answers, a search logs its entry and then its
    first query, before anything else. *)
Lemma searchEmails_starts (query : jsstring) (st : state) :
  exists rest,
    added st (snd (searchEmails decode env query st))
    = EvSearch query :: EvList (tier1_query query) :: rest.
Proof.
  cbv beta iota delta [searchEmails bind emit messages_list tick of_sum throw ret
                       advanced logged].
  cbn [fst snd clock log previousQueries].
  destruct (gmail_list env (clock st) (tier1_query query)) as [e|[ms|]];
    cbn [fst snd clock log previousQueries].
  - exists []. apply added_app. cbn. rewrite <- app_assoc. reflexivity.
  - match goal with |- context [fetch decode env ms ?p ?e ?s] =>
      destruct (fetch_log ms p e s) as (new & Hl & _) end.
    cbn [log] in Hl. exists new. apply added_app.
    rewrite Hl, <- !app_assoc. reflexivity.
  - destruct (gmail_list env (S (clock st)) (tier2_query query)) as [e|[ms|]];
      cbn [fst snd clock log previousQueries].
    + exists [EvList (tier2_query query)]. apply added_app.
      cbn. rewrite <- !app_assoc. reflexivity.
    + match goal with |- context [fetch decode env ms ?p ?e ?s] =>
        destruct (fetch_log ms p e s) as (new & Hl & _) end.
      cbn [log] in Hl. exists (EvList (tier2_query query) :: new). apply added_app.
      rewrite Hl, <- !app_assoc. reflexivity.
    + exists [EvList (tier2_query query)]. apply added_app.
      cbn. rewrite <- !app_assoc. reflexivity.
Qed.

(** C4. Whatever the mail store answers, the first call searchEmails makes
    to it, before any other, carries the input query unchanged when the
    query holds a recognized field operator (one of the eleven names, a
    colon, a value that starts with a character other than white space),
    and the input query between double quotes when it holds none. *)
Theorem searchEmails_first_query (query : jsstring) (st : state) :
  let new := added st (snd (searchEmails decode env query st)) in
  (has_operator query ->
   exists rest, new = EvSearch query :: EvList query :: rest) /\
  (~ has_operator query ->
   exists rest,
     new = EvSearch query :: EvList ([dquote] ++ query ++ [dquote]) :: rest).
Proof.
  cbv zeta. destruct (searchEmails_starts query st) as (rest & H).
  destruct (tier1_query_cases query) as [Y N].
  split; intros O; exists rest; rewrite H.
  - rewrite (Y O). reflexivity.
  - rewrite (N O). reflexivity.
Qed.
End Ladder.

(** A mail store that knows one message, found by the word [flight] alone. *)
Definition one_word_store : Env :=
  {| llm := fun _ _ => LlmContent None;
     gmail_list := fun _ q =>
       if streq q (lit "flight") then inr (Some [lit "m1"]) else inr None;
     gmail_get := fun _ _ => inr {| payload := None; snippet := None |};
     random := fun _ => 0%Q;
     refreshAccessToken := fun _ _ => None |}.

Definition state0 : state := {| clock := 0; previousQueries := []; log := [] |}.

Lemma searchEmails_ladder_witness :
  fst (searchEmails sample_decode one_word_store (lit "flight ticket") state0)
  = Returns [] /\
  issued (added state0
            (snd (searchEmails sample_decode one_word_store
                               (lit "flight ticket") state0)))
  = [tier1_query (lit "flight ticket"); tier2_query (lit "flight ticket")].
Proof.
  apply (searchEmails_ladder sample_decode one_word_store
                             (lit "flight ticket") state0); reflexivity.
Defined.

Lemma searchEmails_first_query_witness :
  has_operator (lit "from:alice invoice") /\
  ~ has_operator (lit "flight ticket") /\
  (exists rest,
      added state0 (snd (searchEmails sample_decode one_word_store
                                      (lit "from:alice invoice") state0))
      = EvSearch (lit "from:alice invoice")
        :: EvList (lit "from:alice invoice") :: rest) /\
  (exists rest,
      added state0 (snd (searchEmails sample_decode one_word_store
                                      (lit "flight ticket") state0))
      = EvSearch (lit "flight ticket")
        :: EvList ([dquote] ++ lit "flight ticket" ++ [dquote]) :: rest).
Proof.
  assert (H1 : has_operator (lit "from:alice invoice")).
  { exists [], "from"%string, (lit "alice"), (lit " invoice").
    repeat split; try discriminate.
    - simpl. tauto.
    - repeat constructor. }
  assert (H2 : ~ has_operator (lit "flight ticket")).
  { intros H. apply operators_found in H. vm_compute in H. discriminate. }
  split; [exact H1|]. split; [exact H2|]. split.
  - exact (proj1 (searchEmails_first_query sample_decode one_word_store
                    (lit "from:alice invoice") state0) H1).
  - exact (proj2 (searchEmails_first_query sample_decode one_word_store
                    (lit "flight ticket") state0) H2).
Defined.

(** C1, as stated, fails on its third tier: both queries of the search for
    "flight ticket" come back without messages, the first term alone would
    find one, and searchEmails returns the empty list without asking.  The
    second query keeps punctuation other than parentheses, colons and double
    quotes, and is split at spaces only: a comma and a tab stay inside their
    term. *)
Lemma searchEmails_no_third_tier :
  let out := searchEmails sample_decode one_word_store (lit "flight ticket") state0 in
  fst out = Returns [] /\
  log (snd out) = [EvSearch (lit "flight ticket");
                   EvList ([dquote] ++ lit "flight ticket" ++ [dquote]);
                   EvList (lit "flight OR ticket")] /\
  hd [] (terms (lit "flight ticket")) = lit "flight" /\
  gmail_list one_word_store 2 (lit "flight") = inr (Some [lit "m1"]) /\
  tier2_query (lit "hotel,spa bill") = lit "hotel,spa OR bill" /\
  tier2_query (lit "foo" ++ [9%N] ++ lit "bar baz")
  = lit "foo" ++ [9%N] ++ lit "bar OR baz".
Proof. vm_compute. repeat split. Qed.

(** *** The events of a search *)

Definition is_mail_event (ev : event) : bool :=
  match ev with EvSearch _ | EvList _ | EvGet _ => true | _ => false end.

Lemma fetch_events decode env : forall messages processedIds emails,
  logs is_mail_event (fetch decode env messages processedIds emails).
Proof.
  induction messages as [|id rest IH]; intros processedIds emails; cbn [fetch].
  - apply logs_ret.
  - destruct (existsb (streq id) processedIds); [apply IH|].
    apply logs_bind.
    + apply logs_bind; [apply logs_tick; reflexivity | intros; apply logs_of_sum].
    + intros email. destruct (5 <=? _); [apply logs_ret | apply IH].
Qed.

Lemma searchEmails_events decode env query :
  logs is_mail_event (searchEmails decode env query).
Proof.
  unfold searchEmails.
  apply logs_bind; [apply logs_emit; reflexivity | intros _].
  apply logs_bind.
  { apply logs_bind; [apply logs_tick; reflexivity | intros; apply logs_of_sum]. }
  intros r1. apply logs_bind.
  { destruct r1; [apply logs_ret|].
    apply logs_bind; [apply logs_tick; reflexivity | intros; apply logs_of_sum]. }
  intros [ms|]; [apply fetch_events | apply logs_ret].
Qed.

Example tier2_query_example :
  tier2_query (lit "subject:(trip to goa)") = lit "subject OR trip OR to OR goa".
Proof. vm_compute. reflexivity. Qed.

End Search.

(* ================================================================== *)
(** ** The reasoning gateway and the agent loop *)
(* ================================================================== *)

Module Agent.
Import JS Regex Parser Aggregator World World.Notations Search.

(** [plan.final]: the boolean flag, or an object that may carry
    [finalAnswer]. *)
Inductive final_field : Type :=
| FinalFlag (b : bool)
| FinalObject (finalAnswer : option jsstring).

(** The parsed decision, with the fields of the interface [AgentPlan];
    [None] is [undefined]. *)
Record AgentPlan : Type := {
  plan_action : option jsstring;
  plan_query : option jsstring;
  plan_finalAnswer : option jsstring;
  plan_sumCategory : option jsstring;
  plan_final : option final_field;
  plan_search : option (option jsstring);   (* search?.query *)
  plan_refine : option (option jsstring);   (* refine?.query *)
  plan_sum : option (option jsstring)       (* sum?.category *)
}.

Definition set_action (a : string) (p : AgentPlan) : AgentPlan :=
  {| plan_action := Some (lit a); plan_query := plan_query p;
     plan_finalAnswer := plan_finalAnswer p;
     plan_sumCategory := plan_sumCategory p; plan_final := plan_final p;
     plan_search := plan_search p; plan_refine := plan_refine p;
     plan_sum := plan_sum p |}.

Definition set_query (q : option jsstring) (p : AgentPlan) : AgentPlan :=
  {| plan_action := plan_action p; plan_query := q;
     plan_finalAnswer := plan_finalAnswer p;
     plan_sumCategory := plan_sumCategory p; plan_final := plan_final p;
     plan_search := plan_search p; plan_refine := plan_refine p;
     plan_sum := plan_sum p |}.

Definition set_finalAnswer (a : option jsstring) (p : AgentPlan) : AgentPlan :=
  {| plan_action := plan_action p; plan_query := plan_query p;
     plan_finalAnswer := a;
     plan_sumCategory := plan_sumCategory p; plan_final := plan_final p;
     plan_search := plan_search p; plan_refine := plan_refine p;
     plan_sum := plan_sum p |}.

(** Truthiness of an optional string. *)
Definition is_set (x : option jsstring) : bool :=
  match x with Some s => truthy s | None => false end.

(** [plan.action === a] *)
Definition action_is (a : string) (p : AgentPlan) : bool :=
  match plan_action p with Some x => streq x (lit a) | None => false end.

Definition is_search_or_refine (p : AgentPlan) : bool :=
  action_is "search" p || action_is "refine" p.

(** The plan returned when the retries are exhausted. *)
Definition exhausted_plan : AgentPlan :=
  {| plan_action := Some (lit "final"); plan_query := None;
     plan_finalAnswer := Some (lit "I'm having trouble processing your request. Based on the available information, I couldn't determine a specific answer.");
     plan_sumCategory := None; plan_final := None; plan_search := None;
     plan_refine := None; plan_sum := None |}.

Definition forced_answer : jsstring :=
  lit "Based on the available emails, I couldn't find specific information about your query. Please try a different search term.".

(** [error.status === 529 || error.error?.type === "overloaded_error" ||
     (error.message && error.message.includes("Overloaded"))] *)
Definition isOverloaded (e : JsError) : bool :=
  match e_status e with Some s => (s =? 529)%Z | None => false end
  || match e_type e with Some t => streq t (lit "overloaded_error") | None => false end
  || match e_message e with
     | Some msg => truthy msg && includes msg (lit "Overloaded")
     | None => false
     end.

(** [Math.min(1000 * Math.pow(2, retries) + Math.random() * 1000, 10000)] *)
Definition backoff (retries : nat) (rnd : Q) : Q :=
  Qmin (inject_Z (1000 * 2 ^ Z.of_nat retries) + rnd * 1000)%Q 10000%Q.

(** How one pass of the retry loop ends. *)
Inductive attempt : Type :=
| Return_ (plan : AgentPlan)   (* return plan *)
| Reprompt                     (* return callAgentWithRetry(...) *)
| Continue                     (* next turn of the while loop *)
| Break.                       (* break *)

(** [token] of the request body. *)
Record Token : Type := {
  accessToken : option jsstring;
  refreshToken : option jsstring
}.

(** The parsed request body [{ query, token }]; no token is [None]. *)
Record RequestBody : Type := {
  body_query : jsstring;
  body_token : option Token
}.

Inductive json : Type :=
| JString (s : jsstring)
| JStrings (l : list jsstring).

(** [NextResponse.json(fields, { status })] *)
Record Response : Type := {
  status : nat;
  fields : list (string * json)
}.

(** [fields.answer]: the value under the key, if the body has it. *)
Definition field_of (key : string) (r : Response) : option json :=
  option_map snd (find (fun kv => String.eqb (fst kv) key) (fields r)).

(** What the agent loop returns. *)
Record result : Type := { answer : jsstring; emails : list jsstring }.

(** The variables of the agent loop. *)
Record loop_state : Type := {
  currentEmails : option (list jsstring);
  allProcessedEmails : list jsstring;
  iterations : nat
}.

Definition maxIterations : nat := 5.

(** [!currentEmails || currentEmails.length === 0] *)
Definition no_emails (current : option (list jsstring)) : bool :=
  match current with
  | None => true
  | Some l => length l =? 0
  end.

(** The four rewrites of alternate shapes at the head of an iteration. *)
Definition normalize (p0 : AgentPlan) : AgentPlan :=
  let p1 := match plan_final p0 with
            | Some (FinalFlag true) =>
                if negb (is_set (plan_action p0)) then set_action "final" p0 else p0
            | _ => p0
            end in
  let p2 := match plan_search p1 with
            | Some q =>
                if is_set q && negb (is_set (plan_action p1))
                then set_query q (set_action "search" p1) else p1
            | None => p1
            end in
  let p3 := match plan_refine p2 with
            | Some q =>
                if is_set q && negb (is_set (plan_action p2))
                then set_query q (set_action "refine" p2) else p2
            | None => p2
            end in
  match plan_final p3 with
  | Some (FinalObject (Some a)) =>
      if negb (is_set (plan_action p3))
      then set_finalAnswer (Some a) (set_action "final" p3) else p3
  | _ => p3
  end.

Section Services.
Variable decode : jsstring -> option jsstring.
Variable unicodeLower : jsstring -> jsstring.
(** [JSON.parse] at the type [AgentPlan]; [None] when it throws. *)
Variable JSON_parse : jsstring -> option AgentPlan.
(** [n.toLocaleString('en-IN', {maximumFractionDigits: 2})] *)
Variable toLocaleString : Q -> jsstring.
Variable env : Env.

(** [parseAgentResponse(responseText)]; [inl] is what it throws. *)
Definition parseAgentResponse (responseText : jsstring) : JsError + AgentPlan :=
  match JSON_parse responseText with
  | Some plan => inr plan
  | None => inl (Error (lit "Failed to parse agent response as JSON: "
                        ++ responseText))
  end.

(** From the reply of the service to the parsed plan: the text block is
    looked up, trimmed and parsed; [inl] is what gets thrown. *)
Definition receive (reply : llm_reply) : JsError + AgentPlan :=
  match reply with
  | LlmThrows e => inl e
  | LlmContent None => inl (Error (lit "No text content in agent response"))
  | LlmContent (Some text) => parseAgentResponse (trim text)
  end.

(** The body of the [try] up to the parsed plan. *)
Definition call_llm (prompt : Prompt) : M AgentPlan :=
  let* t := tick (EvLlm prompt) in of_sum (receive (llm env t prompt)).

(** [Math.random()], read at the current clock. *)
Definition math_random : M Q :=
  fun st => (Returns (random env (clock st)), st).

(** The override applied when [forceFinal] is set. *)
Definition force (forceFinal : bool) (plan : AgentPlan) : AgentPlan :=
  if forceFinal && negb (action_is "final" plan) then
    let plan' := set_action "final" plan in
    if negb (is_set (plan_finalAnswer plan'))
    then set_finalAnswer (Some forced_answer) plan' else plan'
  else plan.

(** The statements of the [try] block after the plan is parsed. *)
Definition after_parse (forceFinal : bool) (plan : AgentPlan) : M attempt :=
  if is_search_or_refine plan && is_set (plan_query plan) then
    let q := toLowerCase unicodeLower (or_else (plan_query plan) []) in
    let* previous := get_previous in
    if existsb (streq q) previous then
      let* _ := emit EvReprompt in ret Reprompt
    else
      let* _ := set_previous (previous ++ [q]) in
      ret (Return_ (force forceFinal plan))
  else ret (Return_ (force forceFinal plan)).

(** The [catch] block. *)
Definition on_error (maxRetries retries : nat) (error : JsError) : M attempt :=
  if negb (isOverloaded error) then throw error
  else if maxRetries <=? S retries then ret Break
  else
    let* rnd := math_random in
    let* _ := emit (EvSleep (backoff (S retries) rnd)) in
    ret Continue.

Definition with_note (prompt : Prompt) : Prompt :=
  {| p_userQuery := p_userQuery prompt; p_previous := p_previous prompt;
     p_emails := p_emails prompt; p_forceFinal := p_forceFinal prompt;
     p_iteration := p_iteration prompt; p_notes := S (p_notes prompt) |}.

(** The while loop of [callAgentWithRetry]; [again] is the function itself,
    for the nested call, and [budget] counts the turns the loop has left. *)
Fixpoint attempts (again : Prompt -> nat -> bool -> M AgentPlan)
         (prompt : Prompt) (maxRetries : nat) (forceFinal : bool)
         (budget retries : nat) {struct budget} : M AgentPlan :=
  if retries <? maxRetries then
    match budget with
    | O => unfinished
    | S budget' =>
        let* a := try_catch
                    (let* plan := call_llm prompt in
                     after_parse forceFinal plan)
                    (on_error maxRetries retries) in
        match a with
        | Return_ plan => ret plan
        | Reprompt => again (with_note prompt) (maxRetries - retries) forceFinal
        | Continue => attempts again prompt maxRetries forceFinal budget' (S retries)
        | Break => ret exhausted_plan
        end
    end
  else ret exhausted_plan.

(** [callAgentWithRetry(prompt, maxRetries, forceFinal)]; [fuel] bounds the
    nested calls made when the service repeats a query. *)
Fixpoint callAgentWithRetry (fuel : nat) (prompt : Prompt) (maxRetries : nat)
         (forceFinal : bool) {struct fuel} : M AgentPlan :=
  match fuel with
  | O => unfinished
  | S fuel' =>
      attempts (callAgentWithRetry fuel') prompt maxRetries forceFinal
               maxRetries 0
  end.

(** [callAgent(userQuery, emailBatch, forceFinal, iteration)] *)
Definition callAgent (fuel : nat) (userQuery : jsstring)
           (emailBatch : option (list jsstring)) (forceFinal : bool)
           (iteration : nat) : M AgentPlan :=
  let* previous := get_previous in
  callAgentWithRetry fuel
    {| p_userQuery := userQuery; p_previous := previous;
       p_emails := match emailBatch with Some l => l | None => [] end;
       p_forceFinal := forceFinal; p_iteration := iteration; p_notes := 0 |}
    3 forceFinal.

(** One iteration ends the loop with a result or hands over new variables. *)
Inductive step : Type :=
| Done (r : result)
| Next (ls : loop_state).

(** The branch for the actions search and refine. *)
Definition on_search (plan : AgentPlan) (ls : loop_state)
           (current : option (list jsstring)) : M step :=
  if negb (is_set (plan_query plan)) then
    throw (Error (lit "Agent plan missing 'query' for search/refine action."))
  else
    let* searchResults := searchEmails decode env (or_else (plan_query plan) []) in
    let all := allProcessedEmails ls ++ searchResults in
    let current' :=
      if (length searchResults =? 0) && (0 <? length all)
      then firstn 5 all else searchResults in
    ret (Next {| currentEmails := Some current';
                 allProcessedEmails := all;
                 iterations := S (iterations ls) |}).

(** The branch for the action sum. *)
Definition on_sum (plan : AgentPlan) (ls : loop_state)
           (current : option (list jsstring)) : M step :=
  let* current1 :=
    if no_emails current then
      searchEmails decode env
        (or_else (plan_sumCategory plan) (or_else (plan_query plan) (lit "default")))
    else ret (match current with Some l => l | None => [] end) in
  let category :=
    or_else (plan_sumCategory plan)
            (or_else (match plan_sum plan with Some c => c | None => None end)
                     (lit "default")) in
  let sumResult := calculateSum unicodeLower current1 category in
  let formattedSum :=
    lit "Based on the emails, the total " ++ category ++ lit " amount is "
    ++ currency sumResult ++ toLocaleString (total sumResult) in
  ret (Next {| currentEmails := Some ((lit "CALCULATED SUM: " ++ formattedSum)
                                      :: current1);
               allProcessedEmails := allProcessedEmails ls;
               iterations := S (iterations ls) |}).

(** The branch for the action final. *)
Definition on_final (plan : AgentPlan) (current : option (list jsstring)) : M step :=
  if is_set (plan_finalAnswer plan) then
    ret (Done {| answer := or_else (plan_finalAnswer plan) [];
                 emails := match current with Some l => l | None => [] end |})
  else throw (Error (lit "Agent returned final action but no finalAnswer provided.")).

(** The chain of tests on [plan.action]. *)
Definition dispatch (plan : AgentPlan) (ls : loop_state)
           (current : option (list jsstring)) : M step :=
  if is_search_or_refine plan then on_search plan ls current
  else if action_is "sum" plan then on_sum plan ls current
  else if action_is "final" plan then on_final plan current
  else throw (Error (lit "Unrecognized action from agent: "
                     ++ match plan_action plan with
                        | Some a => a
                        | None => lit "undefined"
                        end)).

(** The fallback at the head of an iteration: with no current emails, up to
    five of those seen so far. *)
Definition batch (ls : loop_state) : option (list jsstring) :=
  if no_emails (currentEmails ls) && (0 <? length (allProcessedEmails ls))
  then Some (firstn 5 (allProcessedEmails ls))
  else currentEmails ls.

(** The body of the while loop. *)
Definition iteration (fuel : nat) (userQuery : jsstring) (ls : loop_state) : M step :=
  let* _ := emit (EvIteration (S (iterations ls))) in
  let forceFinal := iterations ls =? maxIterations - 1 in
  let current := batch ls in
  let* plan := callAgent fuel userQuery current forceFinal (S (iterations ls)) in
  dispatch (normalize plan) ls current.

(** The statements after the while loop. *)
Definition after_loop (ls : loop_state) : M result :=
  if 0 <? length (allProcessedEmails ls) then
    ret {| answer := lit "I found some potentially relevant emails but couldn't determine a specific answer. Please review these emails for the information you're looking for.";
           emails := firstn 5 (allProcessedEmails ls) |}
  else throw (Error (lit "Agent failed to provide a final answer after multiple iterations.")).

(** [while (iterations < maxIterations) { ... }] and what follows it;
    [turns] counts the turns the loop has left. *)
Fixpoint agent_loop (turns : nat) (fuel : nat) (userQuery : jsstring)
         (ls : loop_state) : M result :=
  if iterations ls <? maxIterations then
    match turns with
    | O => unfinished
    | S turns' =>
        let* s := iteration fuel userQuery ls in
        match s with
        | Done r => ret r
        | Next ls' => agent_loop turns' fuel userQuery ls'
        end
    end
  else after_loop ls.

(** [agentSolveQuery(userQuery, gmail)].  The loop is given more turns than
    [maxIterations], as many more as there is fuel: it is the counter
    [iterations] that ends it. *)
Definition agentSolveQuery (fuel : nat) (userQuery : jsstring) : M result :=
  let* _ := set_previous [] in
  agent_loop (maxIterations + fuel) fuel userQuery
    {| currentEmails := None; allProcessedEmails := []; iterations := 0 |}.

(** [decodeURIComponent]; [inl] when it throws. *)
Variable decodeURIComponent : jsstring -> JsError + jsstring.

(** The [catch] block of the handler. *)
Definition on_failure (error : JsError) : M Response :=
  if match e_code error with Some c => (c =? 403)%Z | None => false end
     && match e_detail error with
        | Some d => includes d (lit "Metadata scope")
        | None => false
        end
  then ret {| status := 403;
              fields := [("answer"%string, JString (lit "Authentication error: Please re-authenticate with full email access permissions."));
                         ("error"%string, JString (lit "Insufficient OAuth scopes"))] |}
  else ret {| status := 500;
              fields := ("answer"%string, JString (lit "An error occurred while processing your query."))
                        :: match e_message error with
                           | Some msg => [("error"%string, JString msg)]
                           | None => []
                           end |}.

(** The handler [POST]; [req] is what [req.json()] gives. *)
Definition POST (fuel : nat) (req : JsError + RequestBody) : M Response :=
  try_catch
    (let* body := of_sum req in
     match body_token body with
     | None =>
         ret {| status := 401;
                fields := [("message"%string,
                            JString (lit "Authentication required"))] |}
     | Some token =>
         if negb (is_set (refreshToken token)) then
           throw (Error (lit "Refresh token is missing!"))
         else
           let* refresh_token :=
             of_sum (decodeURIComponent (or_else (refreshToken token) [])) in
           if negb (truthy refresh_token) then
             throw (Error (lit "Refresh token is still missing after setting credentials."))
           else
             let* t := tick EvRefresh in
             match refreshAccessToken env t refresh_token with
             | Some e => throw e
             | None =>
                 let* r := agentSolveQuery fuel (body_query body) in
                 ret {| status := 200;
                        fields := [("answer"%string, JString (answer r));
                                   ("emails"%string, JStrings (emails r))] |}
             end
     end)
    on_failure.
End Services.

(** *** The log of the gateway *)

(** The delays of the timers among some events. *)
Definition sleeps (evs : list event) : list Q :=
  flat_map (fun ev => match ev with EvSleep d => [d] | _ => [] end) evs.

Definition is_llm (ev : event) : bool :=
  match ev with EvLlm _ => true | _ => false end.

Definition is_reprompt (ev : event) : bool :=
  match ev with EvReprompt => true | _ => false end.

Definition is_gateway_event (ev : event) : bool :=
  match ev with EvLlm _ | EvSleep _ | EvReprompt => true | _ => false end.

(** The calls to the reasoning service among some events. *)
Definition llm_calls (evs : list event) : nat := length (filter is_llm evs).

(** The refusals of a repeated query among some events. *)
Definition reprompts (evs : list event) : nat := length (filter is_reprompt evs).

(** What one call of the gateway with [maxRetries] may add to the log:
    calls, timers and refusals only; at most [maxRetries - 1] timers, each of
    at most ten seconds; and one call more than timers and refusals
    together, at most. *)
Definition gateway_run (maxRetries : nat) (st st' : state) : Prop :=
  exists new,
    log st' = log st ++ new /\
    forallb is_gateway_event new = true /\
    length (sleeps new) <= maxRetries - 1 /\
    llm_calls new <= 1 + length (sleeps new) + reprompts new /\
    Forall (fun d => Qle d 10000) (sleeps new).

Lemma gateway_run_nil mr st : gateway_run mr st st.
Proof.
  exists []. rewrite app_nil_r. cbn. repeat split; auto; lia.
Qed.

Lemma backoff_le (retries : nat) (rnd : Q) : Qle (backoff retries rnd) 10000.
Proof. unfold backoff. apply Q.le_min_r. Qed.

Section GatewayFacts.
Variable unicodeLower : jsstring -> jsstring.
Variable JSON_parse : jsstring -> option AgentPlan.
Variable env : Env.

Lemma call_llm_run prompt st :
  call_llm JSON_parse env prompt st =
  (match receive JSON_parse (llm env (clock st) prompt) with
   | inl e => Throws e
   | inr plan => Returns plan
   end, advanced (EvLlm prompt) st).
Proof.
  unfold call_llm, bind, tick, of_sum.
  destruct (receive JSON_parse (llm env (clock st) prompt)); reflexivity.
Qed.

(** The statements after the parse log nothing, or refuse the query. *)
Lemma after_parse_run forceFinal plan st :
  (exists plan', fst (after_parse unicodeLower forceFinal plan st) = Returns (Return_ plan') /\
                 log (snd (after_parse unicodeLower forceFinal plan st)) = log st) \/
  (fst (after_parse unicodeLower forceFinal plan st) = Returns Reprompt /\
   log (snd (after_parse unicodeLower forceFinal plan st)) = log st ++ [EvReprompt]).
Proof.
  unfold after_parse.
  destruct (is_search_or_refine plan && is_set (plan_query plan)).
  - cbv beta iota delta [bind get_previous emit set_previous ret logged].
    destruct (existsb _ (previousQueries st)); cbn [fst snd log].
    + right. auto.
    + left. eauto.
  - left. cbn. eauto.
Qed.

(** A plan that arrives with the action search or refine and a query is
    returned only when its lower-cased query was not tried before, and the
    query is then recorded. *)
Lemma after_parse_fresh forceFinal plan plan' st :
  is_search_or_refine plan && is_set (plan_query plan) = true ->
  fst (after_parse unicodeLower forceFinal plan st) = Returns (Return_ plan') ->
  let q := toLowerCase unicodeLower (or_else (plan_query plan) []) in
  ~ In q (previousQueries st) /\
  previousQueries (snd (after_parse unicodeLower forceFinal plan st))
  = previousQueries st ++ [q].
Proof.
  intros Hs. unfold after_parse. rewrite Hs.
  cbv beta iota delta [bind get_previous emit set_previous ret logged].
  destruct (existsb _ (previousQueries st)) eqn:E; cbn [fst snd previousQueries].
  - discriminate.
  - intros _. split; [|reflexivity]. intros Hin.
    assert (X : existsb (streq (toLowerCase unicodeLower (or_else (plan_query plan) [])))
                        (previousQueries st) = true).
    { apply existsb_exists. eexists. split; [exact Hin | apply streq_refl]. }
    congruence.
Qed.

(** The while loop, given that the nested call keeps to [gateway_run]. *)
Lemma attempts_run (again : Prompt -> nat -> bool -> M AgentPlan)
      (maxRetries : nat) (forceFinal : bool)
      (Hagain : forall prompt mr st,
          gateway_run mr st (snd (again prompt mr forceFinal st))) :
  forall budget retries prompt st,
    gateway_run (maxRetries - retries) st
                (snd (attempts unicodeLower JSON_parse env again prompt
                               maxRetries forceFinal budget retries st)).
Proof.
  induction budget as [|budget IH]; intros retries prompt st; cbn [attempts];
    destruct (retries <? maxRetries) eqn:Hlt;
    try apply gateway_run_nil.
  apply Nat.ltb_lt in Hlt.
  unfold bind at 1, try_catch, bind at 1. rewrite call_llm_run.
  destruct (receive JSON_parse (llm env (clock st) prompt)) as [e|plan].
  - (* the call throws *)
    unfold on_error.
    destruct (isOverloaded e); cbn [negb].
    + destruct (maxRetries <=? S retries) eqn:Hlast.
      * cbn. exists [EvLlm prompt]. cbn. repeat split; auto; lia.
      * apply Nat.leb_gt in Hlast.
        cbv beta iota delta [bind math_random emit ret logged].
        cbn [fst snd clock log previousQueries advanced].
        match goal with |- context [attempts _ _ _ _ _ _ _ _ _ ?s] =>
          destruct (IH (S retries) prompt s) as (new & Hl & Hg & Hs & Hc & Hd) end.
        cbn [log] in Hl.
        exists ([EvLlm prompt; EvSleep (backoff (S retries)
                                                (random env (S (clock st))))] ++ new).
        rewrite Hl, <- !app_assoc. cbn [app].
        unfold llm_calls, reprompts, sleeps in *. cbn.
        repeat split; auto; try lia.
        constructor; [apply backoff_le | exact Hd].
    + cbn. exists [EvLlm prompt]. cbn. repeat split; auto; lia.
  - (* a plan is parsed *)
    destruct (after_parse_run forceFinal plan (advanced (EvLlm prompt) st))
      as [(plan' & Hf & Hl) | (Hf & Hl)];
      destruct (after_parse unicodeLower forceFinal plan (advanced (EvLlm prompt) st))
        as [o st1]; cbn [fst snd] in Hf, Hl; subst o; cbn [fst snd ret].
    + exists [EvLlm prompt]. rewrite Hl. cbn. repeat split; auto; lia.
    + destruct (Hagain (with_note prompt) (maxRetries - retries) st1)
        as (new & Hl' & Hg & Hs & Hc & Hd).
      exists ([EvLlm prompt; EvReprompt] ++ new).
      rewrite Hl', Hl. cbn [advanced log]. rewrite <- !app_assoc. cbn [app].
      unfold llm_calls, reprompts, sleeps in *. cbn.
      repeat split; auto; lia.
Qed.

Lemma callAgentWithRetry_run : forall fuel prompt maxRetries forceFinal st,
  gateway_run maxRetries st
              (snd (callAgentWithRetry unicodeLower JSON_parse env fuel prompt
                                       maxRetries forceFinal st)).
Proof.
  induction fuel as [|fuel IH]; intros prompt maxRetries forceFinal st.
  - apply gateway_run_nil.
  - cbn [callAgentWithRetry].
    pose proof (@attempts_run (callAgentWithRetry unicodeLower JSON_parse env fuel)
                  maxRetries forceFinal
                  (fun p mr s => IH p mr forceFinal s)
                  maxRetries 0 prompt st) as H.
    rewrite Nat.sub_0_r in H. exact H.
Qed.

(** One turn of the while loop when the call fails with the overload
    signal. *)
Lemma attempts_overloaded again prompt maxRetries forceFinal budget retries st e :
  retries < maxRetries ->
  receive JSON_parse (llm env (clock st) prompt) = inl e ->
  isOverloaded e = true ->
  attempts unicodeLower JSON_parse env again prompt maxRetries forceFinal
           (S budget) retries st =
  if maxRetries <=? S retries
  then (Returns exhausted_plan, advanced (EvLlm prompt) st)
  else attempts unicodeLower JSON_parse env again prompt maxRetries forceFinal
                budget (S retries)
                (logged (EvSleep (backoff (S retries) (random env (S (clock st)))))
                        (advanced (EvLlm prompt) st)).
Proof.
  intros Hlt Hr Ho. apply Nat.ltb_lt in Hlt. cbn [attempts]. rewrite Hlt.
  unfold bind at 1, try_catch, bind at 1. rewrite call_llm_run, Hr.
  unfold on_error. rewrite Ho. cbn [negb].
  destruct (maxRetries <=? S retries); reflexivity.
Qed.

(** One turn of the while loop when the call fails with another error. *)
Lemma attempts_other_error again prompt maxRetries forceFinal budget retries st e :
  retries < maxRetries ->
  receive JSON_parse (llm env (clock st) prompt) = inl e ->
  isOverloaded e = false ->
  attempts unicodeLower JSON_parse env again prompt maxRetries forceFinal
           (S budget) retries st =
  (Throws e, advanced (EvLlm prompt) st).
Proof.
  intros Hlt Hr Ho. apply Nat.ltb_lt in Hlt. cbn [attempts]. rewrite Hlt.
  unfold bind at 1, try_catch, bind at 1. rewrite call_llm_run, Hr.
  unfold on_error. rewrite Ho. reflexivity.
Qed.

(** The delay before retry number [k]: a base that doubles with [k], a
    jitter below one second, ten seconds at most. *)
Lemma backoff_shape (k : nat) (rnd : Q) :
  Qle 0 rnd -> Qlt rnd 1 ->
  Qle (backoff k rnd) 10000 /\
  Qle 0 (rnd * 1000) /\ Qlt (rnd * 1000) 1000 /\
  (1000 * 2 ^ Z.of_nat (S k) = 2 * (1000 * 2 ^ Z.of_nat k))%Z /\
  (k <= 3 -> Qeq (backoff k rnd) (inject_Z (1000 * 2 ^ Z.of_nat k) + rnd * 1000)).
Proof.
  intros H0 H1. split; [apply backoff_le|].
  assert (J0 : Qle 0 (rnd * 1000)) by (apply Qmult_le_0_compat; [exact H0 | discriminate]).
  assert (J1 : Qlt (rnd * 1000) 1000).
  { setoid_replace 1000%Q with (1 * 1000)%Q at 2 by reflexivity.
    apply Qmult_lt_compat_r; [reflexivity | exact H1]. }
  split; [exact J0|]. split; [exact J1|]. split.
  - rewrite Nat2Z.inj_succ, Z.pow_succ_r by lia. ring.
  - intros Hk. unfold backoff. apply Q.min_l.
    assert (B : Qle (inject_Z (1000 * 2 ^ Z.of_nat k)) 8000).
    { assert (Hz : (1000 * 2 ^ Z.of_nat k <= 8000)%Z).
      { assert (2 ^ Z.of_nat k <= 2 ^ 3)%Z by (apply Z.pow_le_mono_r; lia).
        change (2 ^ 3)%Z with 8%Z in *. lia. }
      rewrite Zle_Qle in Hz. exact Hz. }
    apply Qle_trans with (8000 + 1000)%Q; [|discriminate].
    apply Qplus_le_compat; [exact B | apply Qlt_le_weak; exact J1].
Qed.

(** *** The attempts of one gateway call, read off its log *)

(** The errors that the [catch] block receives for the calls among some
    events, the first of these calls being made at clock [t]: what the
    service throws, a reply without text, a text that does not parse. *)
Fixpoint caught (t : nat) (evs : list event) : list JsError :=
  match evs with
  | [] => []
  | EvLlm prompt :: rest =>
      match receive JSON_parse (llm env t prompt) with
      | inl e => e :: caught (S t) rest
      | inr _ => caught (S t) rest
      end
  | _ :: rest => caught t rest
  end.

(** The attempts that failed with the overload signal. *)
Definition overloads (t : nat) (evs : list event) : nat :=
  length (filter isOverloaded (caught t evs)).

(** A delay of the gateway: retry number [k], below [cap], with the random
    number read at some clock. *)
Definition delay_of (cap : nat) (d : Q) : Prop :=
  exists k t, 1 <= k < cap /\ d = backoff k (random env t).

(** What a gateway call that may still fail [budget] times with the overload
    signal does, by its outcome [o] and the events [new] it logs from clock
    [t0] on. *)
Record trace_ok (cap budget t0 : nat) (o : outcome AgentPlan)
       (new : list event) : Prop := {
  tr_events : forallb is_gateway_event new = true;
  tr_overloads : overloads t0 new <= budget;
  tr_sleeps : length (sleeps new) <= overloads t0 new;
  tr_calls : llm_calls new <= overloads t0 new + reprompts new + 1;
  tr_delays : Forall (delay_of cap) (sleeps new);
  tr_exhausted :
    0 < budget -> overloads t0 new = budget ->
    o = Returns exhausted_plan /\
    llm_calls new = budget + reprompts new /\
    length (sleeps new) < budget;
  tr_other :
    forall e, In e (caught t0 new) -> isOverloaded e = false ->
              o = Throws e /\ exists pre p, new = pre ++ [EvLlm p];
  tr_thrown :
    forall e, o = Throws e -> In e (caught t0 new) /\ isOverloaded e = false
}.

Definition retry_trace (cap budget : nat) (st : state)
           (r : outcome AgentPlan * state) : Prop :=
  exists new,
    log (snd r) = log st ++ new /\
    clock (snd r) = clock st + llm_calls new /\
    trace_ok cap budget (clock st) (fst r) new.

(** Unfolds the counts of a short trace. *)
Ltac trace_counts :=
  unfold overloads, llm_calls, reprompts, sleeps in *;
  cbn [caught flat_map app filter is_llm is_reprompt forallb is_gateway_event
       andb length] in *.

Lemma trace_ok_nil cap budget t0 (o : outcome AgentPlan) :
  (forall e, o <> Throws e) -> trace_ok cap budget t0 o [].
Proof.
  intros Ht. constructor; trace_counts.
  - reflexivity.
  - lia.
  - lia.
  - lia.
  - constructor.
  - intros Hb H. lia.
  - intros e [].
  - intros e H. exfalso. exact (Ht e H).
Qed.

(** A call that gives a plan which is returned. *)
Lemma trace_ok_return cap budget t0 prompt plan plan' :
  receive JSON_parse (llm env t0 prompt) = inr plan ->
  trace_ok cap budget t0 (Returns plan') [EvLlm prompt].
Proof.
  intros Hr. constructor; trace_counts; rewrite ?Hr; cbn [filter length].
  - reflexivity.
  - lia.
  - lia.
  - lia.
  - constructor.
  - intros Hb H. lia.
  - intros e [].
  - discriminate.
Qed.

(** A call that fails with an error other than the overload signal. *)
Lemma trace_ok_throw cap budget t0 prompt e :
  receive JSON_parse (llm env t0 prompt) = inl e ->
  isOverloaded e = false ->
  trace_ok cap budget t0 (Throws e) [EvLlm prompt].
Proof.
  intros Hr Ho. constructor; trace_counts; rewrite ?Hr; cbn [filter];
    rewrite ?Ho; cbn [length].
  - reflexivity.
  - lia.
  - lia.
  - lia.
  - constructor.
  - intros Hb H. lia.
  - intros e' [<- | []] _. split; [reflexivity|]. exists [], prompt. reflexivity.
  - intros e' H. inversion H; subst. split; [left; reflexivity | exact Ho].
Qed.

(** The call whose failure uses up the budget. *)
Lemma trace_ok_break cap t0 prompt e :
  receive JSON_parse (llm env t0 prompt) = inl e ->
  isOverloaded e = true ->
  trace_ok cap 1 t0 (Returns exhausted_plan) [EvLlm prompt].
Proof.
  intros Hr Ho. constructor; trace_counts; rewrite ?Hr; cbn [filter];
    rewrite ?Ho; cbn [length].
  - reflexivity.
  - lia.
  - lia.
  - lia.
  - constructor.
  - intros _ _. split; [reflexivity|]. split; lia.
  - intros e' [<- | []] H. congruence.
  - discriminate.
Qed.

(** A call that fails with the overload signal, the timer, and what the
    loop does next. *)
Lemma trace_ok_retry cap budget t0 prompt e d o rest :
  receive JSON_parse (llm env t0 prompt) = inl e ->
  isOverloaded e = true ->
  delay_of cap d ->
  0 < budget ->
  trace_ok cap budget (S t0) o rest ->
  trace_ok cap (S budget) t0 o (EvLlm prompt :: EvSleep d :: rest).
Proof.
  intros Hr Ho Hd Hb [E O Sl C D X T R].
  constructor; trace_counts; rewrite ?Hr; cbn [filter]; rewrite ?Ho;
    cbn [length].
  - exact E.
  - lia.
  - lia.
  - lia.
  - constructor; assumption.
  - intros _ H. destruct X as (X1 & X2 & X3); [exact Hb | lia |].
    split; [exact X1|]. split; lia.
  - intros e' [<- | H] He; [congruence|].
    destruct (T e' H He) as (T1 & pre & p & ->). split; [exact T1|].
    exists (EvLlm prompt :: EvSleep d :: pre), p. reflexivity.
  - intros e' H. destruct (R e' H) as [R1 R2]. split; [right; exact R1 | exact R2].
Qed.

(** A call that gives a query tried before, the refusal, and what the
    nested call does. *)
Lemma trace_ok_reprompt cap budget t0 prompt plan o rest :
  receive JSON_parse (llm env t0 prompt) = inr plan ->
  trace_ok cap budget (S t0) o rest ->
  trace_ok cap budget t0 o (EvLlm prompt :: EvReprompt :: rest).
Proof.
  intros Hr [E O Sl C D X T R].
  constructor; trace_counts; rewrite ?Hr; cbn [length].
  - exact E.
  - lia.
  - lia.
  - lia.
  - exact D.
  - intros Hb H. destruct (X Hb H) as (X1 & X2 & X3).
    split; [exact X1|]. split; lia.
  - intros e' H He.
    destruct (T e' H He) as (T1 & pre & p & ->). split; [exact T1|].
    exists (EvLlm prompt :: EvReprompt :: pre), p. reflexivity.
  - exact R.
Qed.

(** The statements after the parse leave the clock alone; they log nothing,
    or the refusal of the query. *)
Lemma after_parse_effect forceFinal plan st :
  clock (snd (after_parse unicodeLower forceFinal plan st)) = clock st /\
  ((exists plan', fst (after_parse unicodeLower forceFinal plan st)
                  = Returns (Return_ plan') /\
                  log (snd (after_parse unicodeLower forceFinal plan st)) = log st) \/
   (fst (after_parse unicodeLower forceFinal plan st) = Returns Reprompt /\
    log (snd (after_parse unicodeLower forceFinal plan st))
    = log st ++ [EvReprompt])).
Proof.
  unfold after_parse.
  destruct (is_search_or_refine plan && is_set (plan_query plan)).
  - cbv beta iota delta [bind get_previous emit set_previous ret logged].
    destruct (existsb _ (previousQueries st)); cbn [fst snd log clock].
    + split; [reflexivity|]. right. auto.
    + split; [reflexivity|]. left. eauto.
  - cbn. split; [reflexivity|]. left. eauto.
Qed.

(** The while loop, given that the nested call keeps to [retry_trace]. *)
Lemma attempts_trace (again : Prompt -> nat -> bool -> M AgentPlan)
      (maxRetries cap : nat) (forceFinal : bool)
      (Hcap : maxRetries <= cap)
      (Hagain : forall prompt mr st,
          mr <= cap -> retry_trace cap mr st (again prompt mr forceFinal st)) :
  forall budget retries prompt st,
    retry_trace cap (maxRetries - retries) st
                (attempts unicodeLower JSON_parse env again prompt
                          maxRetries forceFinal budget retries st).
Proof.
  assert (Nil : forall b st (o : outcome AgentPlan),
             (forall e, o <> Throws e) -> retry_trace cap b st (o, st)).
  { intros b st o Ho. exists []. cbn [fst snd]. rewrite app_nil_r.
    split; [reflexivity|]. split; [cbn; lia|]. apply trace_ok_nil. exact Ho. }
  induction budget as [|budget IH]; intros retries prompt st; cbn [attempts];
    destruct (retries <? maxRetries) eqn:Hlt;
    try (apply Nil; discriminate).
  apply Nat.ltb_lt in Hlt.
  unfold bind at 1, try_catch, bind at 1. rewrite call_llm_run.
  destruct (receive JSON_parse (llm env (clock st) prompt)) as [e|plan] eqn:Hr.
  - (* the call throws *)
    unfold on_error.
    destruct (isOverloaded e) eqn:Ho; cbn [negb].
    + destruct (maxRetries <=? S retries) eqn:Hlast.
      * apply Nat.leb_le in Hlast.
        replace (maxRetries - retries) with 1 by lia.
        exists [EvLlm prompt]. cbn [fst snd ret bind log clock advanced].
        split; [reflexivity|]. split; [cbn; lia|].
        eapply trace_ok_break; eassumption.
      * apply Nat.leb_gt in Hlast.
        cbv beta iota delta [bind math_random emit ret logged].
        cbn [fst snd clock log previousQueries advanced].
        match goal with |- context [attempts _ _ _ _ _ _ _ _ _ ?s] =>
          destruct (IH (S retries) prompt s) as (new & Hl & Hc & Ht) end.
        cbn [log clock] in Hl, Hc, Ht.
        exists (EvLlm prompt
                :: EvSleep (backoff (S retries) (random env (S (clock st))))
                :: new).
        cbn [fst snd].
        split; [rewrite Hl, <- !app_assoc; reflexivity|].
        split; [rewrite Hc; unfold llm_calls; cbn; lia|].
        replace (maxRetries - retries) with (S (maxRetries - S retries)) by lia.
        eapply trace_ok_retry; try eassumption; try lia.
        exists (S retries), (S (clock st)). split; [lia | reflexivity].
    + exists [EvLlm prompt]. cbn [fst snd throw log clock advanced].
      split; [reflexivity|]. split; [cbn; lia|].
      eapply trace_ok_throw; eassumption.
  - (* a plan is parsed *)
    destruct (after_parse_effect forceFinal plan (advanced (EvLlm prompt) st))
      as [Hck [(plan' & Hf & Hl) | (Hf & Hl)]];
      destruct (after_parse unicodeLower forceFinal plan (advanced (EvLlm prompt) st))
        as [o st1]; cbn [fst snd advanced clock log] in Hf, Hl, Hck; subst o;
        unfold ret; cbn [fst snd].
    + exists [EvLlm prompt]. cbn [fst snd].
      split; [exact Hl|]. split; [rewrite Hck; cbn; lia|].
      eapply trace_ok_return; eassumption.
    + destruct (Hagain (with_note prompt) (maxRetries - retries) st1)
        as (new & Hl' & Hc' & Ht'); [lia|].
      exists (EvLlm prompt :: EvReprompt :: new). cbn [fst snd].
      split; [rewrite Hl', Hl, <- !app_assoc; reflexivity|].
      split; [rewrite Hc', Hck; unfold llm_calls; cbn; lia|].
      rewrite Hck in Ht'.
      eapply trace_ok_reprompt; eassumption.
Qed.

Lemma callAgentWithRetry_trace (cap : nat) :
  forall fuel prompt maxRetries forceFinal st,
    maxRetries <= cap ->
    retry_trace cap maxRetries st
                (callAgentWithRetry unicodeLower JSON_parse env fuel prompt
                                    maxRetries forceFinal st).
Proof.
  induction fuel as [|fuel IH]; intros prompt maxRetries forceFinal st Hcap.
  - exists []. cbn [callAgentWithRetry unfinished fst snd]. rewrite app_nil_r.
    split; [reflexivity|]. split; [cbn; lia|]. apply trace_ok_nil. discriminate.
  - cbn [callAgentWithRetry].
    pose proof (@attempts_trace (callAgentWithRetry unicodeLower JSON_parse env fuel)
                  maxRetries cap forceFinal Hcap
                  (fun p mr s H => IH p mr forceFinal s H)
                  maxRetries 0 prompt st) as H.
    rewrite Nat.sub_0_r in H. exact H.
Qed.


(** C3. One call of the gateway with [maxRetries] 3, whatever the service
    replies.  It logs calls, timers and refusals of repeated queries only.
    At most three of its attempts fail with the overload signal, nested
    calls included; it sets a timer only after such a failure, twice at
    most, for the delay of retry 1 or 2; and it calls the service at most
    three times, plus once for every repeated query it refuses.  An error
    that is not the overload signal, at whatever attempt it is caught, is
    thrown at once: the failed call is the last event; and the gateway
    throws nothing else.  When three attempts have failed with the overload
    signal the plan with the apology is returned; three such failures in a
    row give it after three calls and two timers with the bases 2000 and
    4000.  A delay is its base, doubled at each retry, plus a jitter below
    one second, capped at ten seconds. *)
Theorem callAgentWithRetry_retry_policy
        (fuel : nat) (prompt : Prompt) (forceFinal : bool) (st : state) :
  let run := callAgentWithRetry unicodeLower JSON_parse env (S fuel) prompt 3
                                forceFinal st in
  let new := added st (snd run) in
  let errors := caught (clock st) new in
  forallb is_gateway_event new = true /\
  length (filter isOverloaded errors) <= 3 /\
  length (sleeps new) <= length (filter isOverloaded errors) /\
  length (sleeps new) <= 2 /\
  llm_calls new <= 3 + reprompts new /\
  Forall (fun d => exists k t, (k = 1 \/ k = 2) /\ d = backoff k (random env t))
         (sleeps new) /\
  (forall e, In e errors -> isOverloaded e = false ->
             fst run = Throws e /\ exists pre p, new = pre ++ [EvLlm p]) /\
  (forall e, fst run = Throws e -> In e errors /\ isOverloaded e = false) /\
  (length (filter isOverloaded errors) = 3 -> fst run = Returns exhausted_plan) /\
  (forall e0 e1 e2,
      receive JSON_parse (llm env (clock st) prompt) = inl e0 ->
      receive JSON_parse (llm env (S (clock st)) prompt) = inl e1 ->
      receive JSON_parse (llm env (S (S (clock st))) prompt) = inl e2 ->
      isOverloaded e0 = true -> isOverloaded e1 = true -> isOverloaded e2 = true ->
      fst run = Returns exhausted_plan /\
      new = [EvLlm prompt; EvSleep (backoff 1 (random env (S (clock st))));
             EvLlm prompt; EvSleep (backoff 2 (random env (S (S (clock st)))));
             EvLlm prompt]) /\
  (forall k rnd, Qle 0 rnd -> Qlt rnd 1 ->
      Qle (backoff k rnd) 10000 /\
      Qle 0 (rnd * 1000) /\ Qlt (rnd * 1000) 1000 /\
      (1000 * 2 ^ Z.of_nat (S k) = 2 * (1000 * 2 ^ Z.of_nat k))%Z /\
      (k <= 3 -> Qeq (backoff k rnd)
                     (inject_Z (1000 * 2 ^ Z.of_nat k) + rnd * 1000))).
Proof.
  cbv zeta.
  destruct (@callAgentWithRetry_trace 3 (S fuel) prompt 3 forceFinal st (le_n 3))
    as (new & Hl & _ & [E O Sl C D X T R]).
  rewrite (@added_app st _ new Hl).
  unfold overloads in *.
  split; [exact E|]. split; [exact O|]. split; [exact Sl|].
  assert (S2 : length (sleeps new) <= 2).
  { destruct (Nat.eq_dec (length (filter isOverloaded (caught (clock st) new))) 3)
      as [Q | Q]; [destruct X as (_ & _ & X3); [lia | exact Q | lia] | lia]. }
  split; [exact S2|]. split.
  { destruct (Nat.eq_dec (length (filter isOverloaded (caught (clock st) new))) 3)
      as [Q | Q]; [destruct X as (_ & X2 & _); [lia | exact Q | lia] | lia]. }
  split.
  { eapply Forall_impl; [|exact D]. intros d (k & t & Hk & Hd).
    exists k, t. split; [lia | exact Hd]. }
  split; [exact T|]. split; [exact R|]. split.
  { intros Q. destruct X as (X1 & _); [lia | exact Q | exact X1]. }
  split.
  - intros e0 e1 e2 H0 H1 H2 O0 O1 O2.
    assert (Run : callAgentWithRetry unicodeLower JSON_parse env (S fuel) prompt 3
                                     forceFinal st
                  = (Returns exhausted_plan,
                     advanced (EvLlm prompt)
                       (logged (EvSleep (backoff 2 (random env (S (S (clock st))))))
                          (advanced (EvLlm prompt)
                             (logged (EvSleep (backoff 1 (random env (S (clock st)))))
                                (advanced (EvLlm prompt) st)))))).
    { cbn [callAgentWithRetry].
      rewrite (@attempts_overloaded _ _ _ _ _ _ _ e0) by (auto; lia).
      cbn [Nat.leb].
      rewrite (@attempts_overloaded _ _ _ _ _ _ _ e1) by (auto; lia).
      cbn [Nat.leb].
      rewrite (@attempts_overloaded _ _ _ _ _ _ _ e2) by (auto; lia).
      reflexivity. }
    rewrite Run in Hl |- *. cbn [fst snd log advanced logged] in Hl |- *.
    split; [reflexivity|].
    rewrite <- !app_assoc in Hl. apply app_inv_head in Hl. symmetry. exact Hl.
  - intros k rnd. apply backoff_shape.
Qed.
End GatewayFacts.

(** *** Alternate shapes of the decision *)

Definition empty_plan : AgentPlan :=
  {| plan_action := None; plan_query := None; plan_finalAnswer := None;
     plan_sumCategory := None; plan_final := None; plan_search := None;
     plan_refine := None; plan_sum := None |}.

(** The shape with [final] set to [true] and [finalAnswer] set to [x], no
    action. *)
Definition flag_plan (x : jsstring) : AgentPlan :=
  {| plan_action := None; plan_query := None; plan_finalAnswer := Some x;
     plan_sumCategory := None; plan_final := Some (FinalFlag true);
     plan_search := None; plan_refine := None; plan_sum := None |}.

(** The shape with a [search] object that holds [query], no action. *)
Definition nested_search (q : jsstring) : AgentPlan :=
  {| plan_action := None; plan_query := None; plan_finalAnswer := None;
     plan_sumCategory := None; plan_final := None;
     plan_search := Some (Some q); plan_refine := None; plan_sum := None |}.

(** The shape with a [refine] object that holds [query], no action. *)
Definition nested_refine (q : jsstring) : AgentPlan :=
  {| plan_action := None; plan_query := None; plan_finalAnswer := None;
     plan_sumCategory := None; plan_final := None;
     plan_search := None; plan_refine := Some (Some q); plan_sum := None |}.

(** The shape with a [final] object that holds [finalAnswer], no action. *)
Definition nested_final (a : jsstring) : AgentPlan :=
  {| plan_action := None; plan_query := None; plan_finalAnswer := None;
     plan_sumCategory := None; plan_final := Some (FinalObject (Some a));
     plan_search := None; plan_refine := None; plan_sum := None |}.

(** The canonical plans: an action with its field. *)
Definition search_plan (q : jsstring) : AgentPlan :=
  set_query (Some q) (set_action "search" empty_plan).
Definition refine_plan (q : jsstring) : AgentPlan :=
  set_query (Some q) (set_action "refine" empty_plan).
Definition final_plan (a : jsstring) : AgentPlan :=
  set_finalAnswer (Some a) (set_action "final" empty_plan).

(** Two plans with the same fields among those the dispatch reads. *)
Definition same_decision (p p' : AgentPlan) : Prop :=
  plan_action p = plan_action p' /\ plan_query p = plan_query p' /\
  plan_finalAnswer p = plan_finalAnswer p' /\
  plan_sumCategory p = plan_sumCategory p' /\ plan_sum p = plan_sum p'.

Section Shapes.
Variable decode : jsstring -> option jsstring.
Variable unicodeLower : jsstring -> jsstring.
Variable JSON_parse : jsstring -> option AgentPlan.
Variable toLocaleString : Q -> jsstring.
Variable env : Env.

Lemma dispatch_same_decision (p p' : AgentPlan) ls current :
  same_decision p p' ->
  dispatch decode unicodeLower toLocaleString env p ls current =
  dispatch decode unicodeLower toLocaleString env p' ls current.
Proof.
  intros (Ha & Hq & Hf & Hc & Hs).
  unfold dispatch, is_search_or_refine, action_is, on_search, on_sum, on_final.
  rewrite Ha, Hq, Hf, Hc, Hs. reflexivity.
Qed.

End Shapes.

(** *** The iterations of the agent loop *)

Definition is_iteration (ev : event) : bool :=
  match ev with EvIteration _ => true | _ => false end.

Definition not_iteration (ev : event) : bool := negb (is_iteration ev).

(** The iterations started among some events. *)
Definition iteration_count (evs : list event) : nat :=
  length (filter is_iteration evs).

Lemma iteration_count_app (a b : list event) :
  iteration_count (a ++ b) = iteration_count a + iteration_count b.
Proof. unfold iteration_count. rewrite filter_app, length_app. reflexivity. Qed.

Lemma iteration_count_quiet (evs : list event) :
  forallb not_iteration evs = true -> iteration_count evs = 0.
Proof.
  induction evs as [|ev evs IH]; [reflexivity|]. cbn [forallb].
  intros H. apply andb_prop in H. destruct H as [H1 H2].
  unfold iteration_count in *. cbn [filter]. unfold not_iteration in H1.
  apply negb_true_iff in H1. rewrite H1. auto.
Qed.

Section LoopFacts.
Variable decode : jsstring -> option jsstring.
Variable unicodeLower : jsstring -> jsstring.
Variable JSON_parse : jsstring -> option AgentPlan.
Variable toLocaleString : Q -> jsstring.
Variable env : Env.

Lemma callAgentWithRetry_quiet fuel prompt maxRetries forceFinal :
  logs not_iteration
       (callAgentWithRetry unicodeLower JSON_parse env fuel prompt maxRetries
                           forceFinal).
Proof.
  intros st.
  destruct (callAgentWithRetry_run unicodeLower JSON_parse env fuel prompt
                                   maxRetries forceFinal st)
    as (new & Hl & Hg & _).
  exists new. split; [exact Hl|].
  rewrite forallb_forall in *. intros ev Hin. specialize (Hg ev Hin).
  destruct ev; try discriminate; reflexivity.
Qed.

Lemma searchEmails_quiet query :
  logs not_iteration (searchEmails decode env query).
Proof.
  eapply logs_weaken; [|apply searchEmails_events].
  intros ev H. destruct ev; try discriminate; reflexivity.
Qed.

Lemma dispatch_quiet plan ls current :
  logs not_iteration
       (dispatch decode unicodeLower toLocaleString env plan ls current).
Proof.
  unfold dispatch.
  destruct (is_search_or_refine plan).
  { unfold on_search. destruct (negb _); [apply logs_throw|].
    apply logs_bind; [apply searchEmails_quiet | intros; apply logs_ret]. }
  destruct (action_is "sum" plan).
  { unfold on_sum. apply logs_bind; [|intros; apply logs_ret].
    destruct (no_emails current); [apply searchEmails_quiet | apply logs_ret]. }
  destruct (action_is "final" plan).
  { unfold on_final. destruct (is_set _); [apply logs_ret | apply logs_throw]. }
  apply logs_throw.
Qed.

(** An iteration logs its start once. *)
Lemma iteration_run fuel userQuery ls st :
  exists new,
    log (snd (iteration decode unicodeLower JSON_parse toLocaleString env
                        fuel userQuery ls st))
    = log st ++ EvIteration (S (iterations ls)) :: new /\
    forallb not_iteration new = true.
Proof.
  unfold iteration. unfold bind at 1, emit.
  match goal with |- context [bind ?m ?k (logged ?ev st)] =>
    assert (H : logs not_iteration (bind m k)) end.
  { apply logs_bind; [|intros; apply dispatch_quiet].
    unfold callAgent. apply logs_bind; [apply logs_get_previous|].
    intros. apply callAgentWithRetry_quiet. }
  destruct (H (logged (EvIteration (S (iterations ls))) st)) as (new & Hl & Hq).
  exists new. rewrite Hl. cbn [logged log]. rewrite <- app_assoc. auto.
Qed.

Lemma agent_loop_step turns fuel userQuery ls st :
  iterations ls < maxIterations ->
  agent_loop decode unicodeLower JSON_parse toLocaleString env
             (S turns) fuel userQuery ls st =
  match iteration decode unicodeLower JSON_parse toLocaleString env
                  fuel userQuery ls st with
  | (Returns (Done r), st1) => (Returns r, st1)
  | (Returns (Next ls'), st1) =>
      agent_loop decode unicodeLower JSON_parse toLocaleString env
                 turns fuel userQuery ls' st1
  | (Throws e, st1) => (Throws e, st1)
  | (Unfinished, st1) => (Unfinished, st1)
  end.
Proof.
  intros H. apply Nat.ltb_lt in H. cbn [agent_loop]. rewrite H. unfold bind.
  destruct (iteration _ _ _ _ _ _ _ _ _) as [[[r|ls']|e|] st1]; reflexivity.
Qed.

(** *** The loop is ended by its counter *)

Lemma filter_quiet (evs : list event) :
  forallb not_iteration evs = true -> filter is_iteration evs = [].
Proof.
  induction evs as [|ev evs IH]; [reflexivity|]. cbn [forallb filter].
  intros H. apply andb_prop in H. destruct H as [H1 H2].
  unfold not_iteration in H1. apply negb_true_iff in H1. rewrite H1. auto.
Qed.

Lemma reprompts_app (a b : list event) :
  reprompts (a ++ b) = reprompts a + reprompts b.
Proof. unfold reprompts. rewrite filter_app, length_app. reflexivity. Qed.

(** Fetching the messages of a list needs no fuel. *)
Lemma fetch_finishes : forall messages processedIds emails st,
  fst (fetch decode env messages processedIds emails st) <> Unfinished.
Proof.
  induction messages as [|id rest IH]; intros processedIds emails st;
    cbn [fetch]; [discriminate|].
  destruct (existsb (streq id) processedIds); [apply IH|].
  cbv beta iota delta [bind messages_get tick of_sum throw ret].
  destruct (gmail_get env (clock st) id) as [e|email]; cbn [fst snd];
    [discriminate|].
  destruct (5 <=? _); [discriminate | apply IH].
Qed.

Lemma searchEmails_finishes (query : jsstring) (st : state) :
  fst (searchEmails decode env query st) <> Unfinished.
Proof.
  cbv beta iota delta [searchEmails bind emit messages_list tick of_sum throw ret].
  cbn [fst snd].
  destruct (gmail_list env _ (tier1_query query)) as [e|[ms|]]; cbn [fst snd];
    [discriminate | apply fetch_finishes |].
  destruct (gmail_list env _ (tier2_query query)) as [e|[ms|]]; cbn [fst snd];
    [discriminate | apply fetch_finishes | discriminate].
Qed.

(** Every branch of the dispatch ends; the branches that hand over to the
    next iteration are followed by [iterations++]. *)
Lemma dispatch_next (plan : AgentPlan) (ls : loop_state)
      (current : option (list jsstring)) (st : state) :
  fst (dispatch decode unicodeLower toLocaleString env plan ls current st)
  <> Unfinished /\
  (forall ls', fst (dispatch decode unicodeLower toLocaleString env plan ls current st)
               = Returns (Next ls') ->
               iterations ls' = S (iterations ls)).
Proof.
  unfold dispatch.
  destruct (is_search_or_refine plan).
  { unfold on_search. destruct (negb _); [split; [discriminate | discriminate]|].
    unfold bind.
    pose proof (searchEmails_finishes (or_else (plan_query plan) []) st) as F.
    destruct (searchEmails decode env (or_else (plan_query plan) []) st)
      as [[l|e|] st1]; cbn [fst snd] in *.
    - split; [discriminate|]. intros ls' H. inversion H. reflexivity.
    - split; [discriminate | discriminate].
    - congruence. }
  destruct (action_is "sum" plan).
  { unfold on_sum, bind. destruct (no_emails current).
    - match goal with |- context [searchEmails decode env ?q st] =>
        pose proof (searchEmails_finishes q st) as F;
        destruct (searchEmails decode env q st) as [[l|e|] st1] end;
        cbn [fst snd] in *.
      + split; [discriminate|]. intros ls' H. inversion H. reflexivity.
      + split; [discriminate | discriminate].
      + congruence.
    - cbn [ret fst snd]. split; [discriminate|].
      intros ls' H. inversion H. reflexivity. }
  destruct (action_is "final" plan).
  { unfold on_final. destruct (is_set _); split; discriminate. }
  split; discriminate.
Qed.

Section Refusals.
Variable forceFinal : bool.
Variable n : nat.
Variable again : Prompt -> nat -> bool -> M AgentPlan.
Hypothesis again_unfinished : forall prompt mr st,
  fst (again prompt mr forceFinal st) = Unfinished ->
  reprompts (log st) + n <= reprompts (log (snd (again prompt mr forceFinal st))).

(** The while loop of the gateway never runs out of turns: it is left
    unfinished only by the nested call, after one more refusal. *)
Lemma attempts_unfinished (maxRetries : nat) :
  forall budget retries prompt st,
    maxRetries <= budget + retries ->
    fst (attempts unicodeLower JSON_parse env again prompt maxRetries
                  forceFinal budget retries st) = Unfinished ->
    reprompts (log st) + S n
    <= reprompts (log (snd (attempts unicodeLower JSON_parse env again prompt
                                     maxRetries forceFinal budget retries st))).
Proof.
  induction budget as [|budget IH]; intros retries prompt st Hb; cbn [attempts];
    destruct (retries <? maxRetries) eqn:Hlt;
    try discriminate.
  - apply Nat.ltb_lt in Hlt. lia.
  - apply Nat.ltb_lt in Hlt.
    unfold bind, try_catch. rewrite !call_llm_run.
    destruct (receive JSON_parse (llm env (clock st) prompt)) as [e|plan].
    + unfold on_error. destruct (isOverloaded e); cbn [negb].
      * destruct (maxRetries <=? S retries); [discriminate|].
        cbv beta iota delta [bind math_random emit ret logged].
        cbn [fst snd clock log previousQueries advanced].
        intros H. apply IH in H; [|lia]. cbn [log] in H.
        rewrite !reprompts_app in H. cbn in H. lia.
      * discriminate.
    + destruct (after_parse_run unicodeLower forceFinal plan
                                (advanced (EvLlm prompt) st))
        as [(plan' & Hf & Hl) | (Hf & Hl)];
        destruct (after_parse unicodeLower forceFinal plan
                              (advanced (EvLlm prompt) st))
          as [o st1]; cbn [fst snd] in Hf, Hl; subst o; cbn [fst snd ret].
      * discriminate.
      * intros H. apply again_unfinished in H.
        rewrite Hl in H. cbn [advanced log] in H.
        rewrite !reprompts_app in H. cbn in H. lia.
Qed.
End Refusals.

(** A call of the gateway is left unfinished only when the service has
    repeated an earlier query as many times as there is fuel. *)
Lemma callAgentWithRetry_unfinished :
  forall fuel prompt maxRetries forceFinal st,
    fst (callAgentWithRetry unicodeLower JSON_parse env fuel prompt maxRetries
                            forceFinal st) = Unfinished ->
    reprompts (log st) + fuel
    <= reprompts (log (snd (callAgentWithRetry unicodeLower JSON_parse env fuel
                                               prompt maxRetries forceFinal st))).
Proof.
  induction fuel as [|fuel IH]; intros prompt maxRetries forceFinal st.
  - cbn. lia.
  - cbn [callAgentWithRetry]. intros H.
    apply (@attempts_unfinished forceFinal fuel
             (callAgentWithRetry unicodeLower JSON_parse env fuel)) in H;
      [lia | | lia].
    intros p mr s. apply IH.
Qed.

(** One iteration: what it logs, where it leaves the counter, and when it
    is left unfinished. *)
Lemma iteration_next fuel userQuery ls st :
  let r := iteration decode unicodeLower JSON_parse toLocaleString env
                     fuel userQuery ls st in
  (exists new,
      log (snd r) = log st ++ EvIteration (S (iterations ls)) :: new /\
      forallb not_iteration new = true) /\
  (forall ls', fst r = Returns (Next ls') -> iterations ls' = S (iterations ls)) /\
  (fst r = Unfinished -> reprompts (log st) + fuel <= reprompts (log (snd r))).
Proof.
  cbv zeta. split; [apply iteration_run|].
  unfold iteration, callAgent, bind, emit, get_previous.
  cbn [fst snd].
  match goal with |- context [callAgentWithRetry _ _ _ fuel ?p 3 ?f ?s] =>
    pose proof (@callAgentWithRetry_unfinished fuel p 3 f s) as U;
    destruct (callAgentWithRetry unicodeLower JSON_parse env fuel p 3 f s)
      as [[plan|e|] st1] end; cbn [fst snd] in *.
  - match goal with |- context [dispatch _ _ _ _ ?pl ls ?c st1] =>
      destruct (dispatch_next pl ls c st1) as [D1 D2] end.
    split; [exact D2|]. intros H. contradiction.
  - split; discriminate.
  - split; [discriminate|]. intros _.
    specialize (U eq_refl). cbn [logged log] in U.
    rewrite reprompts_app in U. cbn in U. lia.
Qed.

(** The loop, for every budget of turns: the iterations it starts are
    numbered from the counter on, one by one, and stay below
    [maxIterations]; and with turns enough for the counter to reach
    [maxIterations] it is left unfinished only by the gateway. *)
Lemma agent_loop_counter : forall turns fuel userQuery ls st,
  let r := agent_loop decode unicodeLower JSON_parse toLocaleString env
                      turns fuel userQuery ls st in
  exists new k,
    log (snd r) = log st ++ new /\
    filter is_iteration new = map EvIteration (seq (S (iterations ls)) k) /\
    k <= maxIterations - iterations ls /\
    (maxIterations - iterations ls <= turns -> fst r = Unfinished ->
     fuel <= reprompts new).
Proof.
  induction turns as [|turns IH]; intros fuel userQuery ls st; cbv zeta;
    cbn [agent_loop]; destruct (iterations ls <? maxIterations) eqn:Hlt.
  - apply Nat.ltb_lt in Hlt.
    exists [], 0. cbn [fst snd unfinished]. rewrite app_nil_r.
    repeat split; [lia|]. intros H. lia.
  - exists [], 0. rewrite app_nil_r. unfold after_loop.
    destruct (0 <? _); cbn [fst snd ret throw];
      (repeat split; [lia | discriminate]).
  - apply Nat.ltb_lt in Hlt. unfold bind.
    destruct (iteration_next fuel userQuery ls st) as ((new1 & Hl1 & Hq1) & N & U).
    destruct (iteration decode unicodeLower JSON_parse toLocaleString env
                        fuel userQuery ls st) as [[[r|ls']|e|] st1];
      cbn [fst snd] in *.
    + exists (EvIteration (S (iterations ls)) :: new1), 1.
      split; [exact Hl1|]. cbn [filter is_iteration seq map].
      rewrite (filter_quiet _ Hq1).
      repeat split; [lia | discriminate].
    + specialize (N ls' eq_refl).
      destruct (IH fuel userQuery ls' st1) as (new2 & k & Hl2 & Hf2 & Hk2 & Hu2).
      exists ((EvIteration (S (iterations ls)) :: new1) ++ new2), (S k).
      split; [rewrite Hl2, Hl1, <- app_assoc; reflexivity|].
      split; [|split; [lia|]].
      * rewrite filter_app. cbn [filter is_iteration].
        rewrite (filter_quiet _ Hq1), Hf2, N. reflexivity.
      * intros Ht Hu. rewrite reprompts_app.
        apply Hu2 in Hu; lia.
    + exists (EvIteration (S (iterations ls)) :: new1), 1.
      split; [exact Hl1|]. cbn [filter is_iteration seq map].
      rewrite (filter_quiet _ Hq1).
      repeat split; [lia | discriminate].
    + exists (EvIteration (S (iterations ls)) :: new1), 1.
      split; [exact Hl1|]. cbn [filter is_iteration seq map].
      rewrite (filter_quiet _ Hq1).
      repeat split; [lia|]. intros _ _.
      specialize (U eq_refl). rewrite Hl1, reprompts_app in U. lia.
  - exists [], 0. rewrite app_nil_r. unfold after_loop.
    destruct (0 <? _); cbn [fst snd ret throw];
      (repeat split; [lia | discriminate]).
Qed.

(** Every call to the reasoning service fails with the overload signal. *)
Definition always_overloaded : Prop :=
  forall t p, exists e, llm env t p = LlmThrows e /\ isOverloaded e = true.

(** Three overload signals in a row: the gateway returns the plan with the
    apology. *)
Lemma callAgentWithRetry_exhausted fuel prompt forceFinal st :
  always_overloaded ->
  fst (callAgentWithRetry unicodeLower JSON_parse env (S fuel) prompt 3
                          forceFinal st) = Returns exhausted_plan.
Proof.
  intros H.
  destruct (H (clock st) prompt) as (e0 & H0 & O0).
  destruct (H (S (clock st)) prompt) as (e1 & H1 & O1).
  destruct (H (S (S (clock st))) prompt) as (e2 & H2 & O2).
  cbn [callAgentWithRetry].
  rewrite (@attempts_overloaded _ _ _ _ _ _ _ _ _ _ e0)
    by (auto; try lia; rewrite H0; reflexivity).
  cbn [Nat.leb].
  rewrite (@attempts_overloaded _ _ _ _ _ _ _ _ _ _ e1)
    by (auto; try lia; cbn [clock logged advanced]; rewrite H1; reflexivity).
  cbn [Nat.leb].
  rewrite (@attempts_overloaded _ _ _ _ _ _ _ _ _ _ e2)
    by (auto; try lia; cbn [clock logged advanced]; rewrite H2; reflexivity).
  reflexivity.
Qed.

(** C2. For every query, services, state and fuel, agentSolveQuery starts
    at most five iterations, and they are numbered 1, 2, ... in this order:
    the loop, for whatever number of turns it is given, starts no iteration
    once the counter has reached [maxIterations], and every iteration that
    hands over has added one to the counter.  The run is left unfinished
    only when the reasoning service, within one call of the gateway, has
    repeated an earlier query as many times as there is fuel.  And when
    every call to the reasoning service fails with the overload signal it
    returns, without throwing, a result whose answer is not the empty
    string, after one iteration. *)
Theorem agentSolveQuery_bounded (fuel : nat) (userQuery : jsstring) (st : state) :
  let run := agentSolveQuery decode unicodeLower JSON_parse toLocaleString env
                             fuel userQuery st in
  let new := added st (snd run) in
  (exists k, k <= maxIterations /\
             filter is_iteration new = map EvIteration (seq 1 k)) /\
  iteration_count new <= 5 /\
  (forall turns ls st1,
      iteration_count
        (added st1 (snd (agent_loop decode unicodeLower JSON_parse toLocaleString
                                    env turns fuel userQuery ls st1)))
      <= maxIterations - iterations ls) /\
  (fst run = Unfinished -> fuel <= reprompts new) /\
  (always_overloaded -> 0 < fuel ->
   exists r, fst run = Returns r /\ answer r <> [] /\ iteration_count new = 1).
Proof.
  cbv zeta.
  set (st0 := {| clock := clock st; previousQueries := []; log := log st |}).
  set (ls0 := {| currentEmails := None; allProcessedEmails := []; iterations := 0 |}).
  change (agentSolveQuery decode unicodeLower JSON_parse toLocaleString env
                          fuel userQuery st)
    with (agent_loop decode unicodeLower JSON_parse toLocaleString env
                     (maxIterations + fuel) fuel userQuery ls0 st0).
  destruct (agent_loop_counter (maxIterations + fuel) fuel userQuery ls0 st0)
    as (new & k & Hl & Hf & Hk & Hu).
  cbv zeta in Hl, Hu. cbn [iterations ls0] in Hf, Hk, Hu.
  rewrite (@added_app st _ new Hl).
  split; [exists k; split; [lia | exact Hf]|].
  split; [unfold iteration_count; rewrite Hf, length_map, length_seq;
          unfold maxIterations in Hk; lia|].
  split.
  { intros turns ls st1.
    destruct (agent_loop_counter turns fuel userQuery ls st1)
      as (new' & k' & Hl' & Hf' & Hk' & _).
    cbv zeta in Hl'. rewrite (@added_app st1 _ new' Hl').
    unfold iteration_count. rewrite Hf', length_map, length_seq. exact Hk'. }
  split; [intros U; apply Hu; [lia | exact U]|].
  intros Hov Hfuel. destruct fuel as [|fuel]; [lia|].
  revert Hl. change (maxIterations + S fuel) with (S (4 + S fuel)).
  rewrite agent_loop_step by (cbn; unfold maxIterations; lia).
  destruct (iteration_run (S fuel) userQuery ls0 st0) as (new1 & Hl1 & Hq1).
  assert (Hit : fst (iteration decode unicodeLower JSON_parse toLocaleString env
                               (S fuel) userQuery ls0 st0)
                = Returns (Done {| answer := or_else (plan_finalAnswer exhausted_plan) [];
                                   emails := [] |})).
  { unfold iteration. unfold bind at 1, emit. unfold bind at 1.
    unfold callAgent. unfold bind at 1, get_previous.
    match goal with |- context [callAgentWithRetry _ _ _ _ ?p _ ?f ?s] =>
      pose proof (@callAgentWithRetry_exhausted fuel p f s Hov) as Hx;
      destruct (callAgentWithRetry unicodeLower JSON_parse env (S fuel) p 3 f s)
        as [o s1] end.
    cbn [fst] in Hx. subst o. reflexivity. }
  destruct (iteration decode unicodeLower JSON_parse toLocaleString env
                      (S fuel) userQuery ls0 st0) as [o st1].
  cbn [fst snd] in *. subst o. intros Hl.
  eexists. split; [reflexivity|]. split; [discriminate|].
  assert (E : new = EvIteration 1 :: new1).
  { cbn [fst snd] in Hl. rewrite Hl1 in Hl. apply app_inv_head in Hl.
    symmetry. exact Hl. }
  rewrite E.
  change (EvIteration 1 :: new1) with ([EvIteration 1] ++ new1).
  rewrite iteration_count_app, (iteration_count_quiet _ Hq1). reflexivity.
Qed.
(** *** Alternate shapes in the loop *)

(** The prompt of an iteration, by the variables of the loop. *)
Definition prompt_of (userQuery : jsstring) (ls : loop_state) (st : state) : Prompt :=
  {| p_userQuery := userQuery; p_previous := previousQueries st;
     p_emails := match batch ls with Some l => l | None => [] end;
     p_forceFinal := iterations ls =? maxIterations - 1;
     p_iteration := S (iterations ls); p_notes := 0 |}.

(** The state once an iteration has started and its first call to the
    service is answered. *)
Definition after_call (userQuery : jsstring) (ls : loop_state) (st : state) : state :=
  advanced (EvLlm (prompt_of userQuery ls st))
           (logged (EvIteration (S (iterations ls))) st).

(** An iteration whose decision parses to a plan that is not tagged search
    or refine: the gateway applies its override and hands the plan over, the
    loop rewrites the alternate shapes and dispatches. *)
Lemma iteration_untagged (plan : AgentPlan) (text userQuery : jsstring)
      (fuel : nat) (ls : loop_state) (st : state) :
  llm env (clock st) (prompt_of userQuery ls st) = LlmContent (Some text) ->
  JSON_parse (trim text) = Some plan ->
  is_search_or_refine plan = false ->
  iteration decode unicodeLower JSON_parse toLocaleString env
            (S fuel) userQuery ls st
  = dispatch decode unicodeLower toLocaleString env
             (normalize (force (iterations ls =? maxIterations - 1) plan))
             ls (batch ls) (after_call userQuery ls st).
Proof.
  intros Hllm Hparse Htag.
  unfold iteration, callAgent, bind, emit, get_previous. cbn [fst snd].
  cbn [callAgentWithRetry attempts Nat.ltb Nat.leb].
  unfold bind, try_catch. rewrite call_llm_run.
  change (llm env (clock (logged (EvIteration (S (iterations ls))) st)) _)
    with (llm env (clock st) (prompt_of userQuery ls st)).
  rewrite Hllm. unfold receive, parseAgentResponse. rewrite Hparse.
  unfold after_parse. rewrite Htag. cbn [andb ret fst snd].
  reflexivity.
Qed.

(** C8. An iteration of the loop, which the loop runs as long as the
    counter is below [maxIterations], whose decision parses to an alternate
    shape.  The shape with [final] set to [true] and a [finalAnswer] (no
    action) ends the loop with that answer, at every iteration, as the
    canonical final plan does.  Before the last iteration the nested shapes
    that hold a query are dispatched as the canonical search and refine
    plans, and the nested shape that holds a final answer ends the loop with
    that answer.  At the last iteration the gateway has tagged the decision
    final before the loop looks at its shape: the nested shapes are not
    rewritten, and the loop ends with the stock answer of the override, for
    the nested final shape too, whose own answer is lost. *)
Theorem iteration_alternate_shapes (x q a text userQuery : jsstring)
        (fuel : nat) (ls : loop_state) (st : state) :
  x <> [] -> q <> [] -> a <> [] ->
  iterations ls < maxIterations ->
  llm env (clock st) (prompt_of userQuery ls st) = LlmContent (Some text) ->
  let run := iteration decode unicodeLower JSON_parse toLocaleString env
                       (S fuel) userQuery ls st in
  let st1 := after_call userQuery ls st in
  let shown := match batch ls with Some l => l | None => [] end in
  (forall turns,
      agent_loop decode unicodeLower JSON_parse toLocaleString env
                 (S turns) (S fuel) userQuery ls st
      = match run with
        | (Returns (Done r), st') => (Returns r, st')
        | (Returns (Next ls'), st') =>
            agent_loop decode unicodeLower JSON_parse toLocaleString env
                       turns (S fuel) userQuery ls' st'
        | (Throws e, st') => (Throws e, st')
        | (Unfinished, st') => (Unfinished, st')
        end) /\
  (JSON_parse (trim text) = Some (flag_plan x) ->
   run = (Returns (Done {| answer := x; emails := shown |}), st1)) /\
  (JSON_parse (trim text) = Some (final_plan a) ->
   run = (Returns (Done {| answer := a; emails := shown |}), st1)) /\
  (iterations ls <> maxIterations - 1 ->
   (JSON_parse (trim text) = Some (nested_search q) ->
    run = dispatch decode unicodeLower toLocaleString env (search_plan q)
                   ls (batch ls) st1) /\
   (JSON_parse (trim text) = Some (nested_refine q) ->
    run = dispatch decode unicodeLower toLocaleString env (refine_plan q)
                   ls (batch ls) st1) /\
   (JSON_parse (trim text) = Some (nested_final a) ->
    run = (Returns (Done {| answer := a; emails := shown |}), st1))) /\
  (iterations ls = maxIterations - 1 ->
   JSON_parse (trim text) = Some (nested_search q) \/
   JSON_parse (trim text) = Some (nested_refine q) \/
   JSON_parse (trim text) = Some (nested_final a) ->
   run = (Returns (Done {| answer := forced_answer; emails := shown |}), st1)).
Proof.
  intros Hx Hq Ha Hit Hllm. cbv zeta.
  destruct x as [|cx x]; [congruence|].
  destruct q as [|cq q]; [congruence|].
  destruct a as [|ca a]; [congruence|].
  split; [intros turns; apply agent_loop_step; exact Hit|].
  split; [|split; [|split]].
  - intros P. rewrite (@iteration_untagged _ _ _ fuel _ _ Hllm P eq_refl).
    destruct (iterations ls =? maxIterations - 1); reflexivity.
  - intros P. rewrite (@iteration_untagged _ _ _ fuel _ _ Hllm P eq_refl).
    destruct (iterations ls =? maxIterations - 1); reflexivity.
  - intros Hi. apply Nat.eqb_neq in Hi.
    split; [|split]; intros P;
      rewrite (@iteration_untagged _ _ _ fuel _ _ Hllm P eq_refl), Hi.
    + erewrite dispatch_same_decision; [reflexivity|]. vm_compute. repeat split.
    + erewrite dispatch_same_decision; [reflexivity|]. vm_compute. repeat split.
    + reflexivity.
  - intros Hi. apply Nat.eqb_eq in Hi.
    intros [P | [P | P]];
      rewrite (@iteration_untagged _ _ _ fuel _ _ Hllm P eq_refl), Hi; reflexivity.
Qed.
End LoopFacts.

(** *** Sample services *)

(** A JSON string literal: the text between double quotes. *)
Definition quoted (s : string) : jsstring := [dquote] ++ lit s ++ [dquote].

(** The text with [final] set to [true] and the [finalAnswer] X. *)
Definition json_flag_X : jsstring :=
  lit "{" ++ quoted "final" ++ lit ": true, " ++ quoted "finalAnswer"
  ++ lit ": " ++ quoted "X" ++ lit "}".

(** The text with a [search] object that holds the [query] foo. *)
Definition json_nested_foo : jsstring :=
  lit "{" ++ quoted "search" ++ lit ": {" ++ quoted "query" ++ lit ": "
  ++ quoted "foo" ++ lit "}}".

(** The text with the [action] final and the [finalAnswer] done. *)
Definition json_final_done : jsstring :=
  lit "{" ++ quoted "action" ++ lit ": " ++ quoted "final" ++ lit ", "
  ++ quoted "finalAnswer" ++ lit ": " ++ quoted "done" ++ lit "}".

(** [JSON.parse] on the three texts above. *)
Definition sample_parse (text : jsstring) : option AgentPlan :=
  if streq text json_flag_X then Some (flag_plan (lit "X"))
  else if streq text json_nested_foo then Some (nested_search (lit "foo"))
  else if streq text json_final_done then Some (final_plan (lit "done"))
  else None.

Definition sample_locale (q : Q) : jsstring := lit "0".

Definition overloaded_error : JsError :=
  {| e_status := Some 529%Z; e_type := Some (lit "overloaded_error");
     e_message := Some (lit "Overloaded"); e_code := None; e_detail := None |}.

(** Services whose reasoning service gives the replies of a list, one per
    iteration of the loop, and whose mail store holds nothing. *)
Definition scripted (replies : list llm_reply) : Env :=
  {| llm := fun _ p => nth (p_iteration p - 1) replies (LlmContent None);
     gmail_list := fun _ _ => inr None;
     gmail_get := fun _ _ => inr {| payload := None; snippet := None |};
     random := fun _ => (1 # 2)%Q;
     refreshAccessToken := fun _ _ => None |}.

(** Services whose reasoning service gives one reply to every call. *)
Definition answering (reply : llm_reply) : Env :=
  {| llm := fun _ _ => reply;
     gmail_list := fun _ _ => inr None;
     gmail_get := fun _ _ => inr {| payload := None; snippet := None |};
     random := fun _ => (1 # 2)%Q;
     refreshAccessToken := fun _ _ => None |}.

(** Services whose reasoning service is always overloaded. *)
Definition busy : Env := answering (LlmThrows overloaded_error).

Definition sample_prompt : Prompt :=
  {| p_userQuery := lit "when is my flight"; p_previous := []; p_emails := [];
     p_forceFinal := false; p_iteration := 1; p_notes := 0 |}.

Lemma busy_always_overloaded : always_overloaded busy.
Proof. intros t p. exists overloaded_error. split; reflexivity. Qed.

Definition bad_request_error : JsError :=
  {| e_status := Some 400%Z; e_type := Some (lit "invalid_request_error");
     e_message := Some (lit "Bad request"); e_code := None; e_detail := None |}.

(** The text with the [action] search and the [query] foo. *)
Definition json_search_foo : jsstring :=
  lit "{" ++ quoted "action" ++ lit ": " ++ quoted "search" ++ lit ", "
  ++ quoted "query" ++ lit ": " ++ quoted "foo" ++ lit "}".

(** [JSON.parse] on that text and on the three texts above. *)
Definition retry_parse (text : jsstring) : option AgentPlan :=
  if streq text json_search_foo then Some (search_plan (lit "foo"))
  else sample_parse text.

(** Services whose reasoning service gives the replies of a list, one per
    call, by the clock. *)
Definition timed (replies : list llm_reply) : Env :=
  {| llm := fun t _ => nth t replies (LlmContent None);
     gmail_list := fun _ _ => inr None;
     gmail_get := fun _ _ => inr {| payload := None; snippet := None |};
     random := fun _ => (1 # 2)%Q;
     refreshAccessToken := fun _ _ => None |}.

(** A session in which foo was searched for already. *)
Definition searched_foo : state :=
  {| clock := 0; previousQueries := [lit "foo"]; log := [] |}.

Lemma callAgentWithRetry_retry_policy_witness :
  (fst (callAgentWithRetry no_lower sample_parse busy 1 sample_prompt 3 false state0)
   = Returns exhausted_plan /\
   sleeps (added state0
             (snd (callAgentWithRetry no_lower sample_parse busy 1 sample_prompt
                                      3 false state0)))
   = [(5000 # 2)%Q; (9000 # 2)%Q]) /\
  fst (callAgentWithRetry no_lower sample_parse
         (answering (LlmThrows bad_request_error)) 1 sample_prompt 3 false state0)
  = Throws bad_request_error /\
  (fst (callAgentWithRetry no_lower sample_parse
          (timed [LlmThrows overloaded_error; LlmThrows bad_request_error])
          1 sample_prompt 3 false state0)
   = Throws bad_request_error /\
   exists pre p,
     added state0
       (snd (callAgentWithRetry no_lower sample_parse
               (timed [LlmThrows overloaded_error; LlmThrows bad_request_error])
               1 sample_prompt 3 false state0))
     = pre ++ [EvLlm p]) /\
  Qle (backoff 3 (1 # 2)) 10000.
Proof.
  destruct (callAgentWithRetry_retry_policy no_lower sample_parse busy 0
              sample_prompt false state0)
    as (_ & _ & _ & _ & _ & _ & _ & _ & _ & H & B).
  destruct (H overloaded_error overloaded_error overloaded_error)
    as [H1 H2]; try reflexivity.
  destruct (callAgentWithRetry_retry_policy no_lower sample_parse
              (answering (LlmThrows bad_request_error)) 0
              sample_prompt false state0)
    as (_ & _ & _ & _ & _ & _ & E & _).
  destruct (callAgentWithRetry_retry_policy no_lower sample_parse
              (timed [LlmThrows overloaded_error; LlmThrows bad_request_error]) 0
              sample_prompt false state0)
    as (_ & _ & _ & _ & _ & _ & L & _).
  split; [split|split; [|split]].
  - exact H1.
  - rewrite H2. reflexivity.
  - apply (E bad_request_error); [left; reflexivity | reflexivity].
  - apply (L bad_request_error); [right; left; reflexivity | reflexivity].
  - apply (B 3 (1 # 2)%Q); [discriminate | reflexivity].
Defined.

(** C3, as stated, fails on its three attempts in all: a reply that repeats
    an earlier query is refused and the service is asked again by a nested
    call, which takes over what is left of the three failures but counts no
    attempt.  Two overload signals, then the query foo that was searched
    already, then a final plan: the fourth call gives the plan returned.
    And a service that keeps repeating the query is called again for as long
    as the nested calls go on. *)
Lemma callAgentWithRetry_fourth_call :
  let run := callAgentWithRetry no_lower retry_parse
               (timed [LlmThrows overloaded_error; LlmThrows overloaded_error;
                       LlmContent (Some json_search_foo);
                       LlmContent (Some json_final_done)])
               2 sample_prompt 3 false searched_foo in
  (fst run = Returns (final_plan (lit "done")) /\
   log (snd run)
   = [EvLlm sample_prompt; EvSleep (5000 # 2)%Q;
      EvLlm sample_prompt; EvSleep (9000 # 2)%Q;
      EvLlm sample_prompt; EvReprompt;
      EvLlm (with_note sample_prompt)] /\
   llm_calls (log (snd run)) = 4) /\
  (forall n prompt,
      let again := callAgentWithRetry no_lower retry_parse
                     (answering (LlmContent (Some json_search_foo)))
                     n prompt 3 false searched_foo in
      fst again = Unfinished /\ llm_calls (log (snd again)) = n).
Proof.
  cbv zeta. split; [vm_compute; repeat split|].
  assert (Step : forall n prompt st,
             previousQueries st = [lit "foo"] ->
             callAgentWithRetry no_lower retry_parse
               (answering (LlmContent (Some json_search_foo)))
               (S n) prompt 3 false st
             = callAgentWithRetry no_lower retry_parse
                 (answering (LlmContent (Some json_search_foo)))
                 n (with_note prompt) 3 false
                 (logged EvReprompt (advanced (EvLlm prompt) st))).
  { intros n prompt st Hp.
    cbn [callAgentWithRetry attempts Nat.ltb Nat.leb].
    unfold bind at 1, try_catch, bind at 1. rewrite call_llm_run.
    change (receive retry_parse
              (llm (answering (LlmContent (Some json_search_foo))) (clock st) prompt))
      with (@inr JsError AgentPlan (search_plan (lit "foo"))).
    unfold after_parse.
    change (is_search_or_refine (search_plan (lit "foo"))
            && is_set (plan_query (search_plan (lit "foo")))) with true.
    cbv beta iota delta [bind get_previous emit ret].
    cbn [previousQueries advanced fst snd]. rewrite Hp.
    change (existsb _ [lit "foo"]) with true. cbv iota.
    reflexivity. }
  assert (G : forall n prompt st,
             previousQueries st = [lit "foo"] ->
             fst (callAgentWithRetry no_lower retry_parse
                    (answering (LlmContent (Some json_search_foo)))
                    n prompt 3 false st) = Unfinished /\
             llm_calls (log (snd (callAgentWithRetry no_lower retry_parse
                                    (answering (LlmContent (Some json_search_foo)))
                                    n prompt 3 false st)))
             = llm_calls (log st) + n).
  { induction n as [|n IH]; intros prompt st Hp.
    - cbn. split; [reflexivity | lia].
    - rewrite (Step n prompt st Hp).
      destruct (IH (with_note prompt)
                   (logged EvReprompt (advanced (EvLlm prompt) st)) Hp) as [I1 I2].
      split; [exact I1|]. rewrite I2. cbn [log logged advanced].
      unfold llm_calls. rewrite !filter_app, !length_app. cbn. lia. }
  intros n prompt. destruct (G n prompt searched_foo eq_refl) as [G1 G2].
  split; [exact G1 | exact G2].
Qed.

(** Services whose reasoning service always answers with the nested search
    shape for the query foo. *)
Definition searching : Env := answering (LlmContent (Some json_nested_foo)).

Lemma agentSolveQuery_bounded_witness :
  (exists r,
      fst (agentSolveQuery sample_decode no_lower sample_parse sample_locale busy
                           1 (lit "when is my flight") state0) = Returns r /\
      answer r <> []) /\
  iteration_count
    (added state0
       (snd (agentSolveQuery sample_decode no_lower sample_parse sample_locale
                             searching 40 (lit "where is foo") state0))) <= 5 /\
  filter is_iteration
    (log (snd (agentSolveQuery sample_decode no_lower sample_parse sample_locale
                               searching 40 (lit "where is foo") state0)))
  = map EvIteration [1; 2; 3; 4; 5] /\
  fst (agentSolveQuery sample_decode no_lower sample_parse sample_locale
                       searching 40 (lit "where is foo") state0)
  = Returns {| answer := forced_answer; emails := [] |}.
Proof.
  split; [|split; [|split]].
  - destruct (agentSolveQuery_bounded sample_decode no_lower sample_parse
                sample_locale busy 1 (lit "when is my flight") state0)
      as (_ & _ & _ & _ & H).
    destruct (H busy_always_overloaded (Nat.lt_0_succ 0)) as (r & Hr & Ha & _).
    exists r. split; assumption.
  - apply (agentSolveQuery_bounded sample_decode no_lower sample_parse
             sample_locale searching 40 (lit "where is foo") state0).
  - vm_compute. reflexivity.
  - vm_compute. reflexivity.
Defined.

(** The text with a [final] object that holds the [finalAnswer] A. *)
Definition json_nested_A : jsstring :=
  lit "{" ++ quoted "final" ++ lit ": {" ++ quoted "finalAnswer" ++ lit ": "
  ++ quoted "A" ++ lit "}}".

(** [JSON.parse] on that text and on the three texts above. *)
Definition shapes_parse (text : jsstring) : option AgentPlan :=
  if streq text json_nested_A then Some (nested_final (lit "A"))
  else sample_parse text.

(** The variables of the loop at the head of iteration [S n], no email
    found so far. *)
Definition turn (n : nat) : loop_state :=
  {| currentEmails := None; allProcessedEmails := []; iterations := n |}.

Lemma iteration_alternate_shapes_witness :
  fst (iteration sample_decode no_lower shapes_parse sample_locale
                 (answering (LlmContent (Some json_nested_A)))
                 1 (lit "anything new") (turn 0) state0)
  = Returns (Done {| answer := lit "A"; emails := [] |}) /\
  fst (iteration sample_decode no_lower shapes_parse sample_locale
                 (answering (LlmContent (Some json_nested_A)))
                 1 (lit "anything new") (turn 4) state0)
  = Returns (Done {| answer := forced_answer; emails := [] |}) /\
  fst (agentSolveQuery sample_decode no_lower shapes_parse sample_locale
         (scripted [LlmContent (Some json_nested_foo);
                    LlmContent (Some json_nested_foo);
                    LlmContent (Some json_nested_foo);
                    LlmContent (Some json_nested_foo);
                    LlmContent (Some json_nested_A)])
         1 (lit "where is foo") state0)
  = Returns {| answer := forced_answer; emails := [] |}.
Proof.
  destruct (@iteration_alternate_shapes sample_decode no_lower shapes_parse
              sample_locale (answering (LlmContent (Some json_nested_A)))
              (lit "X") (lit "foo") (lit "A") json_nested_A (lit "anything new")
              0 (turn 0) state0) as (_ & _ & _ & F & _);
    try discriminate; [unfold maxIterations; cbn; lia | reflexivity |].
  destruct F as (_ & _ & F); [discriminate|].
  destruct (@iteration_alternate_shapes sample_decode no_lower shapes_parse
              sample_locale (answering (LlmContent (Some json_nested_A)))
              (lit "X") (lit "foo") (lit "A") json_nested_A (lit "anything new")
              0 (turn 4) state0) as (_ & _ & _ & _ & L);
    try discriminate; [unfold maxIterations; cbn; lia | reflexivity |].
  split; [rewrite F; reflexivity|].
  split; [rewrite L; [reflexivity | reflexivity | right; right; reflexivity]|].
  vm_compute. reflexivity.
Defined.

(** *** Queries sent twice *)

(** The queries of the searches among some events. *)
Definition searches (evs : list event) : list jsstring :=
  flat_map (fun ev => match ev with EvSearch q => [q] | _ => [] end) evs.

(** C7, on the source: the reasoning service answers twice with the nested
    search shape for the query foo and then with a final plan; the gateway
    lets both pass, since the plan has no action yet when it looks for
    repeated queries, and the loop searches for foo twice in the one
    session; the set of tried queries stays empty. *)
Theorem agentSolveQuery_repeats_nested_query :
  let run := agentSolveQuery sample_decode no_lower sample_parse sample_locale
               (scripted [LlmContent (Some json_nested_foo);
                          LlmContent (Some json_nested_foo);
                          LlmContent (Some json_final_done)])
               1 (lit "where is foo") state0 in
  fst run = Returns {| answer := lit "done"; emails := [] |} /\
  searches (log (snd run)) = [lit "foo"; lit "foo"] /\
  previousQueries (snd run) = [].
Proof. vm_compute. repeat split. Qed.

(** *** The handler without a token *)

Section Handler.
Variable decode : jsstring -> option jsstring.
Variable unicodeLower : jsstring -> jsstring.
Variable JSON_parse : jsstring -> option AgentPlan.
Variable toLocaleString : Q -> jsstring.
Variable env : Env.
Variable decodeURIComponent : jsstring -> JsError + jsstring.

(** C9, on the source: for a body without a token the handler answers with
    the status 401 and the one field [message]; the body has no field
    [answer]. *)
Theorem POST_without_token (fuel : nat) (query : jsstring) (st : state) :
  let run := POST decode unicodeLower JSON_parse toLocaleString env
                  decodeURIComponent fuel
                  (inr {| body_query := query; body_token := None |}) st in
  run = (Returns {| status := 401;
                    fields := [("message"%string,
                                JString (lit "Authentication required"))] |}, st) /\
  (forall r, fst run = Returns r -> field_of "answer" r = None).
Proof.
  cbv zeta. split; [reflexivity|].
  intros r H. cbn in H. inversion H; subst. reflexivity.
Qed.
End Handler.

End Agent.

(* ================================================================== *)
(** ** parseEmailData: bounds of the content and control characters *)
(* ================================================================== *)

Module ParserFacts.
Import JS Parser.

Lemma Forall_dropWhile (P : N -> Prop) (p : N -> bool) (s : jsstring) :
  Forall P s -> Forall P (dropWhile p s).
Proof.
  induction 1 as [|x s Hx Hs IH]; simpl; [constructor|].
  destruct (p x); [exact IH | constructor; assumption].
Qed.

Lemma Forall_trim (P : N -> Prop) (s : jsstring) :
  Forall P s -> Forall P (trim s).
Proof.
  intros H. unfold trim, trimEnd, trimStart.
  apply Forall_rev, Forall_dropWhile, Forall_rev, Forall_dropWhile, H.
Qed.

(** A code unit is a control character only if it is the line feed. *)
Definition only_line_feeds (c : N) : Prop := is_control c = true -> c = 10%N.

Lemma strip_control_clean (s : jsstring) :
  Forall only_line_feeds (strip_control s).
Proof.
  unfold strip_control. apply Forall_forall. intros c H.
  apply filter_In in H. destruct H as [_ H]. apply negb_true_iff in H.
  intros E. congruence.
Qed.

Section Facts.
Variable decode : jsstring -> option jsstring.

Lemma fragment_clean (data : option jsstring) :
  Forall only_line_feeds (concat (fragment decode data)).
Proof.
  unfold fragment. destruct data as [d|]; [|constructor].
  destruct (truthy d); [|constructor].
  destruct (decode d); [|constructor].
  simpl. rewrite app_nil_r. apply Forall_app. split; [apply strip_control_clean|].
  repeat constructor.
Qed.

Lemma fragments_clean : forall p : part,
  Forall only_line_feeds (concat (fragments decode p)).
Proof.
  fix IH 1. intros [data parts]. simpl. rewrite concat_app.
  apply Forall_app. split; [apply fragment_clean|].
  destruct parts as [ps|]; [|constructor].
  induction ps as [|q t IHt]; [constructor|].
  rewrite concat_app. apply Forall_app. split; [apply IH | exact IHt].
Qed.

Lemma email_body_nonempty (e : emailData) : email_body decode e <> [].
Proof.
  unfold email_body.
  destruct (truthy (trim _)) eqn:T; [apply truthy_nonempty; exact T|].
  unfold or_else. destruct (snippet e) as [s|]; [|discriminate].
  destruct (truthy s) eqn:Ts; [apply truthy_nonempty; exact Ts | discriminate].
Qed.

Lemma truncate_bounds (body : jsstring) :
  body <> [] -> truncate body <> [] /\ length (truncate body) <= 203.
Proof.
  intros Hb. unfold truncate, slice0.
  destruct (200 <? length body) eqn:L.
  - apply Nat.ltb_lt in L. split.
    + intros E. apply app_eq_nil in E. destruct E as [_ E]. discriminate.
    + rewrite length_app, length_firstn.
      change (length (lit "...")) with 3. lia.
  - apply Nat.ltb_ge in L. split; [exact Hb | lia].
Qed.

(** X1. For every message, the content that parseEmailData writes after
    "Content: " is not empty and has at most 203 code units. *)
Theorem content_line_bounds (e : emailData) :
  exists content,
    parseEmailData decode e = head_lines e ++ lit "Content: " ++ content /\
    content <> [] /\ length content <= 203.
Proof.
  exists (truncate (email_body decode e)). split; [reflexivity|].
  apply truncate_bounds, email_body_nonempty.
Qed.

(** X2. When the decoded body of a message is not empty, the only control
    characters left in it are line feeds: every other code unit in the
    ranges 0 to 31 and 127 to 159 has been removed from the parts. *)
Theorem email_body_control_free (e : emailData) (pl : payload_t) :
  payload e = Some pl ->
  trim (getBodyContent decode (root pl) []) <> [] ->
  Forall only_line_feeds (email_body decode e).
Proof.
  intros Hp Hne. unfold email_body. rewrite Hp.
  apply truthy_nonempty in Hne. rewrite Hne.
  apply Forall_trim. rewrite getBodyContent_fragments. apply fragments_clean.
Qed.
End Facts.

Definition bell_message : emailData :=
  message_with (Some (lit "a" ++ [7%N; 13%N] ++ lit "b")) None.

Lemma email_body_control_free_witness :
  email_body sample_decode bell_message = lit "ab" /\
  Forall only_line_feeds (email_body sample_decode bell_message).
Proof.
  split; [reflexivity|].
  apply (@email_body_control_free sample_decode bell_message
           {| headers := Some [{| h_name := lit "Subject"; h_value := Some (lit "Hi") |}];
              root := Part None (Some [Part (Some (lit "a" ++ [7%N; 13%N] ++ lit "b")) None]) |}).
  - reflexivity.
  - vm_compute. discriminate.
Defined.

End ParserFacts.


(* ================================================================== *)
(** ** EmailCard: the card the client draws from a summary *)
(* ================================================================== *)

Module Client.
Import JS Parser Aggregator ParserFacts.

(** What the card of an email shows: the four texts of [EmailCard]. *)
Record card : Type := {
  card_subject : jsstring;
  card_from : jsstring;
  card_date : jsstring;
  card_content : jsstring
}.

(** [lines.find(line => line.startsWith(prefix))?.substring(n) || dflt] *)
Definition card_field (lines : list jsstring) (prefix : string) (n : nat)
           (dflt : jsstring) : jsstring :=
  match find (fun line => startsWith line (lit prefix)) lines with
  | Some line => or_else (Some (substring n line)) dflt
  | None => dflt
  end.

(** [EmailCard({ email })], by the texts it renders. *)
Definition EmailCard (email : jsstring) : card :=
  let lines := split newline email in
  let from := card_field lines "From:" 6 (lit "Unknown") in
  let subject := card_field lines "Subject:" 9 (lit "No Subject") in
  let date := card_field lines "Date:" 6 [] in
  let content := card_field lines "Content:" 9 [] in
  {| card_subject := subject; card_from := from; card_date := date;
     card_content := content |}.

(** The text up to the first line break. *)
Definition first_line (s : jsstring) : jsstring := hd [] (split newline s).

Lemma split_cons (s : jsstring) :
  split newline s = first_line s :: tl (split newline s).
Proof.
  unfold first_line. destruct s as [|c s]; [reflexivity|].
  cbn [split]. destruct (c =? newline)%N; [reflexivity|].
  destruct (split newline s); reflexivity.
Qed.

(** A prefix without line break stays on the first line. *)
Lemma split_prefix (b : jsstring) : forall a,
  one_line a = true ->
  split newline (a ++ b) = (a ++ first_line b) :: tl (split newline b).
Proof.
  induction a as [|c a IH]; intros H.
  - apply split_cons.
  - cbn [one_line forallb] in H. apply andb_prop in H. destruct H as [Hc Ha].
    apply negb_true_iff in Hc. cbn [app split]. rewrite Hc, (IH Ha). reflexivity.
Qed.

Lemma one_line_first_line (s : jsstring) : one_line (first_line s) = true.
Proof.
  unfold first_line. induction s as [|c s IH]; [reflexivity|].
  cbn [split]. destruct (c =? newline)%N eqn:E; [reflexivity|].
  destruct (split newline s) as [|w ws]; cbn [hd] in *.
  - cbn. rewrite E. reflexivity.
  - cbn [one_line forallb]. rewrite E. exact IH.
Qed.

(** The lines of a summary whose header values have no line break. *)
Lemma split_summary (from subject date content : jsstring) :
  one_line from = true -> one_line subject = true -> one_line date = true ->
  split newline (summary from subject date content) =
  (lit "From: " ++ from) :: (lit "Subject: " ++ subject)
  :: (lit "Date: " ++ date) :: (lit "Content: " ++ first_line content)
  :: tl (split newline content).
Proof.
  intros Hf Hs Hd.
  assert (E : summary from subject date content
              = (lit "From: " ++ from) ++ newline ::
                (lit "Subject: " ++ subject) ++ newline ::
                (lit "Date: " ++ date) ++ newline :: (lit "Content: " ++ content))
    by (unfold summary; rewrite <- !app_assoc; reflexivity).
  rewrite E.
  rewrite split_line by (apply one_line_app; [reflexivity | exact Hf]).
  rewrite split_line by (apply one_line_app; [reflexivity | exact Hs]).
  rewrite split_line by (apply one_line_app; [reflexivity | exact Hd]).
  rewrite split_prefix by reflexivity. reflexivity.
Qed.

Lemma header_or_nonempty (hs : list header) (name dflt : jsstring) :
  dflt <> [] -> header_or hs name dflt <> [].
Proof.
  intros Hd. unfold header_or.
  destruct (find _ hs) as [h|]; [|exact Hd].
  unfold or_else. destruct (h_value h) as [v|]; [|exact Hd].
  destruct (truthy v) eqn:T; [apply truthy_nonempty; exact T | exact Hd].
Qed.

Lemma or_else_nonempty (s d : jsstring) : s <> [] -> or_else (Some s) d = s.
Proof. destruct s; [congruence | reflexivity]. Qed.

Section RoundTrip.
Variable decode : jsstring -> option jsstring.

Lemma parseEmailData_summary (e : emailData) :
  parseEmailData decode e =
  summary (header_or (email_headers e) (lit "From") (lit "Unknown Sender"))
          (header_or (email_headers e) (lit "Subject") (lit "No Subject"))
          (header_or (email_headers e) (lit "Date") (lit "No Date"))
          (truncate (email_body decode e)).
Proof.
  unfold parseEmailData, head_lines, summary, nl. cbv zeta.
  rewrite <- !app_assoc. reflexivity.
Qed.

(** X3. For a message whose From, Subject and Date values (or the defaults
    that stand for them) hold no line break, the card that the client draws
    from the summary of parseEmailData shows exactly those three values, and
    as content the first line of the content of the summary. *)
Theorem EmailCard_parseEmailData (e : emailData) :
  let hs := email_headers e in
  let from := header_or hs (lit "From") (lit "Unknown Sender") in
  let subject := header_or hs (lit "Subject") (lit "No Subject") in
  let date := header_or hs (lit "Date") (lit "No Date") in
  one_line from = true -> one_line subject = true -> one_line date = true ->
  EmailCard (parseEmailData decode e) =
  {| card_subject := subject; card_from := from; card_date := date;
     card_content := first_line (truncate (email_body decode e)) |}.
Proof.
  cbv zeta. intros Hf Hs Hd.
  rewrite parseEmailData_summary. unfold EmailCard.
  rewrite (@split_summary _ _ _ _ Hf Hs Hd).
  unfold card_field. cbn [find startsWith lit app].
  cbn -[or_else first_line header_or truncate email_body].
  rewrite !or_else_nonempty by (apply header_or_nonempty; discriminate).
  f_equal.
  destruct (first_line (truncate (email_body decode e))); reflexivity.
Qed.
End RoundTrip.

Definition two_part_message : emailData :=
  {| payload := Some {| headers := Some [{| h_name := lit "From";
                                           h_value := Some (lit "a@b.example") |};
                                        {| h_name := lit "subject";
                                           h_value := Some (lit "lower case") |}];
                        root := Part None (Some [Part (Some (lit "plain")) None;
                                                 Part (Some (lit "<p>html</p>")) None]) |};
     snippet := None |}.

Lemma EmailCard_parseEmailData_witness :
  EmailCard (parseEmailData sample_decode two_part_message) =
  {| card_subject := lit "No Subject"; card_from := lit "a@b.example";
     card_date := lit "No Date"; card_content := lit "plain" |}.
Proof.
  apply (@EmailCard_parseEmailData sample_decode two_part_message); reflexivity.
Defined.

End Client.


(* ================================================================== *)
(** ** calculateSum: currencies, signs and summaries without amounts *)
(* ================================================================== *)

Module AggregatorFacts.
Import JS Regex Parser Aggregator ParserFacts Client.

(** *** Summaries written by parseEmailData *)

Section Parsed.
Variable decode : jsstring -> option jsstring.

(** X4. For a message whose From, Subject and Date values hold no line
    break, calculateSum searches in its summary the subject, a space and the
    first line of the content, nothing else, and it labels the rows it finds
    with the three header values. *)
Theorem on_email_parseEmailData (ps : list regex) (a : acc) (e : emailData) :
  let hs := email_headers e in
  let from := header_or hs (lit "From") (lit "Unknown Sender") in
  let subject := header_or hs (lit "Subject") (lit "No Subject") in
  let date := header_or hs (lit "Date") (lit "No Date") in
  let text := subject ++ [space] ++ first_line (truncate (email_body decode e)) in
  one_line from = true -> one_line subject = true -> one_line date = true ->
  searchText (parseEmailData decode e) = text /\
  on_email ps a (parseEmailData decode e) =
  fold_left (on_match from subject date)
            (flat_map (fun pattern => matchAll pattern text) ps) a.
Proof.
  cbv zeta. intros Hf Hs Hd.
  assert (T : searchText (parseEmailData decode e) =
              header_or (email_headers e) (lit "Subject") (lit "No Subject")
              ++ [space] ++ first_line (truncate (email_body decode e))).
  { unfold searchText. rewrite parseEmailData_summary.
    rewrite (@split_summary _ _ _ _ Hf Hs Hd). reflexivity. }
  split; [exact T|].
  unfold on_email, email_matches. rewrite T.
  rewrite parseEmailData_summary, (@split_summary _ _ _ _ Hf Hs Hd). reflexivity.
Qed.
End Parsed.

Definition costly_message : emailData :=
  {| payload := Some {| headers := Some [{| h_name := lit "From";
                                           h_value := Some (lit "$9 shop") |};
                                        {| h_name := lit "Subject";
                                           h_value := Some (lit "Bill") |}];
                        root := Part None (Some [Part (Some (lit "pay $5")) None;
                                                 Part (Some (lit "or $7")) None]) |};
     snippet := None |}.

Lemma on_email_parseEmailData_witness :
  searchText (parseEmailData sample_decode costly_message) = lit "Bill pay $5" /\
  map d_amount (a_details (on_email [money_re] acc0
                                    (parseEmailData sample_decode costly_message)))
  = [5%Q].
Proof.
  destruct (@on_email_parseEmailData sample_decode [money_re] acc0 costly_message)
    as [H1 H2]; try reflexivity.
  split; [exact H1 | rewrite H2; reflexivity].
Defined.

(** *** The currency of the result *)

(** The symbols the currency pattern can read, in the letter case of the
    pattern. *)
Definition currency_symbols : list jsstring :=
  [[rupee]; lit "Rs."; lit "Rs"; lit "INR"; lit "USD"; lit "$"].

Lemma matches_currency_exact w rest c c' :
  matches (currency_re false) w rest c c' -> In w currency_symbols.
Proof.
  intros H.
  apply (matches_alts [chr false rupee; Seq (str false "Rs") (Opt (chr false dot));
                       str false "INR"; str false "USD"; chr false 36]) in H.
  destruct H as (r & Hin & Hm).
  destruct Hin as [<- | [<- | [<- | [<- | [<- | []]]]]].
  - apply matches_chr_exact in Hm. destruct Hm as [-> _]. cbn. auto.
  - inversion Hm as [| |r1 r2 w1 w2 r3 c0 c1 c2 Ha Hb| | | | | |]; subst.
    apply (matches_word_exact (lit "Rs")) in Ha. destruct Ha as [-> _].
    inversion Hb as [| | |r1 r2 w0 r3 c0 c3 Hd|r1 r2 w0 r3 c0 c3 He| | | |]; subst.
    + apply matches_chr_exact in Hd. destruct Hd as [-> _]. cbn. auto.
    + inversion He; subst. cbn. auto.
  - apply (matches_word_exact (lit "INR")) in Hm. destruct Hm as [-> _]. cbn. auto.
  - apply (matches_word_exact (lit "USD")) in Hm. destruct Hm as [-> _]. cbn. auto 7.
  - apply matches_chr_exact in Hm. destruct Hm as [-> _]. cbn. auto 7.
Qed.

(** [currency_of] reads one of the symbols, or nothing. *)
Lemma currency_of_cases (fullMatch : jsstring) :
  currency_of fullMatch = [] \/ In (currency_of fullMatch) currency_symbols.
Proof.
  unfold currency_of, match_first.
  destruct (search (currency_re false) 0 fullMatch) as [[mt rest]|] eqn:E;
    cbn [option_map fst]; [|left; reflexivity].
  right. apply search_sound in E. destruct E as (w & rest' & <- & Hm).
  eapply matches_currency_exact; eauto.
Qed.

Definition known_key (k : jsstring) : Prop := k = [] \/ In k currency_symbols.

Lemma bump_keys (key : jsstring) (counts : list (jsstring * nat)) :
  known_key key -> Forall (fun kv => known_key (fst kv)) counts ->
  Forall (fun kv => known_key (fst kv)) (bump key counts).
Proof.
  intros Hk. induction 1 as [|[k n] t Hkn Ht IH]; cbn [bump].
  - constructor; [exact Hk | constructor].
  - destruct (streq k key); constructor; auto.
Qed.

Lemma on_match_keys from subject date (a : acc) (mt : rmatch) :
  Forall (fun kv => known_key (fst kv)) (a_counts a) ->
  Forall (fun kv => known_key (fst kv)) (a_counts (on_match from subject date a mt)).
Proof.
  intros H. unfold on_match.
  destruct (parseFloat (amount_text mt)); cbn [a_counts];
    apply bump_keys; auto; apply currency_of_cases.
Qed.

Lemma fold_on_match_keys from subject date : forall ms a,
  Forall (fun kv => known_key (fst kv)) (a_counts a) ->
  Forall (fun kv => known_key (fst kv))
         (a_counts (fold_left (on_match from subject date) ms a)).
Proof.
  induction ms as [|mt ms IH]; intros a H; cbn [fold_left]; [exact H|].
  apply IH, on_match_keys, H.
Qed.

Lemma fold_on_email_keys ps : forall emails a,
  Forall (fun kv => known_key (fst kv)) (a_counts a) ->
  Forall (fun kv => known_key (fst kv)) (a_counts (fold_left (on_email ps) emails a)).
Proof.
  induction emails as [|e emails IH]; intros a H; cbn [fold_left]; [exact H|].
  apply IH. unfold on_email. apply fold_on_match_keys, H.
Qed.

Lemma dominant_key (counts : list (jsstring * nat)) :
  Forall (fun kv => known_key (fst kv)) counts -> known_key (dominant counts).
Proof.
  unfold dominant. intros H.
  assert (G : forall (start : nat * jsstring), known_key (snd start) ->
              known_key (snd (fold_left
                (fun (acc : nat * jsstring) (kv : jsstring * nat) =>
                   if fst acc <? snd kv then (snd kv, fst kv) else acc)
                counts start))).
  { induction H as [|kv t Hkv Ht IH]; intros start Hs; cbn [fold_left]; [exact Hs|].
    apply IH. destruct (fst start <? snd kv); [exact Hkv | exact Hs]. }
  apply G. left. reflexivity.
Qed.

(** X5. The currency that calculateSum returns is one of the six symbols
    of the pattern, in its letter case; the currency of a detail row is one
    of them or the empty string. *)
Theorem calculateSum_currency (unicodeLower : jsstring -> jsstring)
        (emails : list jsstring) (category : jsstring) :
  In (currency (calculateSum unicodeLower emails category)) currency_symbols /\
  Forall (fun d => d_currency d = [] \/ In (d_currency d) currency_symbols)
         (details (calculateSum unicodeLower emails category)).
Proof.
  split.
  - unfold calculateSum. cbn [currency].
    assert (K : known_key (dominant (a_counts (run unicodeLower emails category)))).
    { apply dominant_key. unfold run. apply fold_on_email_keys. constructor. }
    destruct K as [-> | K]; [cbn; auto|].
    destruct (dominant _) as [|c s]; [cbn; auto | exact K].
  - unfold calculateSum, run. cbn [details].
    generalize (relevantPatterns unicodeLower category) as ps. intros ps.
    assert (G : forall emails a,
               Forall (fun d => known_key (d_currency d)) (a_details a) ->
               Forall (fun d => known_key (d_currency d))
                      (a_details (fold_left (on_email ps) emails a))).
    { clear emails. induction emails as [|e emails IH]; intros a H; cbn [fold_left]; [exact H|].
      apply IH. unfold on_email.
      generalize (email_matches ps e) as ms.
      generalize (field (split newline e) "From:" 6) as from.
      generalize (field (split newline e) "Subject:" 9) as subject.
      generalize (field (split newline e) "Date:" 6) as date.
      intros date subject from ms. revert a H.
      induction ms as [|mt ms IHm]; intros a H; cbn [fold_left]; [exact H|].
      apply IHm. unfold on_match.
      destruct (parseFloat (amount_text mt)); cbn [a_details]; [|exact H].
      apply Forall_app. split; [exact H|]. constructor; [|constructor].
      cbn [d_currency]. apply currency_of_cases. }
    apply G. constructor.
Qed.

(** No symbol of the pattern holds a line break, so the currency returned
    holds none. *)
Lemma currency_one_line (unicodeLower : jsstring -> jsstring)
      (emails : list jsstring) (category : jsstring) :
  one_line (currency (calculateSum unicodeLower emails category)) = true.
Proof.
  unfold calculateSum. cbn [currency].
  assert (K : known_key (dominant (a_counts (run unicodeLower emails category)))).
  { apply dominant_key. unfold run. apply fold_on_email_keys. constructor. }
  destruct K as [-> | K]; [reflexivity|].
  destruct (dominant _) as [|c s]; [reflexivity|].
  cbn [truthy]. unfold currency_symbols in K. cbn [In] in K.
  destruct K as [<- | [<- | [<- | [<- | [<- | [<- | []]]]]]]; reflexivity.
Qed.

(** *** The most frequent symbol *)

Lemma bump_positive (key : jsstring) (counts : list (jsstring * nat)) :
  Forall (fun kv => 1 <= snd kv) counts ->
  Forall (fun kv => 1 <= snd kv) (bump key counts).
Proof.
  induction 1 as [|[k n] t Hkn Ht IH]; cbn [bump].
  - constructor; [cbn; lia | constructor].
  - destruct (streq k key); constructor; auto. cbn in *. lia.
Qed.

Lemma fold_on_email_positive ps : forall emails a,
  Forall (fun kv => 1 <= snd kv) (a_counts a) ->
  Forall (fun kv => 1 <= snd kv) (a_counts (fold_left (on_email ps) emails a)).
Proof.
  induction emails as [|e emails IH]; intros a H; cbn [fold_left]; [exact H|].
  apply IH. unfold on_email.
  generalize (email_matches ps e) as ms.
  generalize (field (split newline e) "From:" 6) as from.
  generalize (field (split newline e) "Subject:" 9) as subject.
  generalize (field (split newline e) "Date:" 6) as date.
  intros date subject from ms. revert a H.
  induction ms as [|mt ms IHm]; intros a H; cbn [fold_left]; [exact H|].
  apply IHm. unfold on_match.
  destruct (parseFloat (amount_text mt)); cbn [a_counts]; apply bump_positive, H.
Qed.

(** The loop over the counts keeps the first key with the greatest
    count. *)
Lemma dominant_greatest (counts : list (jsstring * nat)) :
  counts <> [] -> Forall (fun kv => 1 <= snd kv) counts ->
  exists n, In (dominant counts, n) counts /\
            Forall (fun kv => snd kv <= n) counts.
Proof.
  intros Hne Hpos. unfold dominant.
  set (f := fun (acc : nat * jsstring) (kv : jsstring * nat) =>
              if fst acc <? snd kv then (snd kv, fst kv) else acc).
  assert (G : forall l start,
             let res := fold_left f l start in
             (res = start /\ Forall (fun kv => snd kv <= fst start) l) \/
             (In (snd res, fst res) l /\ Forall (fun kv => snd kv <= fst res) l /\
              fst start <= fst res)).
  { induction l as [|[k n] l IH]; intros start; cbn zeta; cbn [fold_left].
    - left. split; [reflexivity | constructor].
    - specialize (IH (f start (k, n))). cbn zeta in IH.
      assert (S : (f start (k, n) = (n, k) /\ fst start < n) \/
                  (f start (k, n) = start /\ n <= fst start)).
      { unfold f. cbn [fst snd]. destruct (fst start <? n) eqn:L.
        - left. apply Nat.ltb_lt in L. auto.
        - right. apply Nat.ltb_ge in L. auto. }
      destruct S as [[S L] | [S L]]; rewrite S in *; cbn [fst snd] in *.
      + right. destruct IH as [[E F] | (I & F & Le)].
        * rewrite E. cbn [fst snd]. split; [left; reflexivity|].
          split; [constructor; [cbn; lia | exact F] | lia].
        * split; [right; exact I|]. split; [|lia].
          constructor; [cbn; lia | exact F].
      + destruct IH as [[E F] | (I & F & Le)].
        * left. split; [exact E|]. constructor; [cbn; lia | exact F].
        * right. split; [right; exact I|]. split; [|exact Le].
          constructor; [cbn; lia | exact F]. }
  destruct (G counts (0, [])) as [[E F] | (I & F & _)]; cbn [fst snd] in *.
  - destruct counts as [|[k n] t]; [congruence|].
    inversion F; subst. inversion Hpos; subst. cbn in *. lia.
  - eexists. split; [exact I | exact F].
Qed.

(** X6. When some currency was counted, the symbol the loop over the
    counts keeps has the greatest count, and the currency returned is that
    symbol, or the rupee sign when that symbol is the empty string. *)
Theorem calculateSum_dominant_symbol (unicodeLower : jsstring -> jsstring)
        (emails : list jsstring) (category : jsstring) :
  let counts := a_counts (run unicodeLower emails category) in
  let r := calculateSum unicodeLower emails category in
  counts <> [] ->
  exists n, In (dominant counts, n) counts /\
            Forall (fun kv => snd kv <= n) counts /\
            currency r = if truthy (dominant counts) then dominant counts
                         else [rupee].
Proof.
  cbv zeta. intros Hne.
  destruct (@dominant_greatest (a_counts (run unicodeLower emails category)) Hne)
    as (n & I & F).
  { unfold run. apply fold_on_email_positive. constructor. }
  exists n. split; [exact I|]. split; [exact F | reflexivity].
Qed.

(** *** Amounts are never negative *)

Lemma int_of_digits_nonneg (ds : jsstring) : (0 <= int_of_digits ds)%Z.
Proof.
  unfold int_of_digits.
  assert (G : forall z, (0 <= z)%Z ->
              (0 <= fold_left (fun acc c => (acc * 10 + digit_val c)%Z) ds z)%Z).
  { induction ds as [|c ds IH]; intros z Hz; cbn [fold_left]; [exact Hz|].
    apply IH. unfold digit_val. lia. }
  apply G. lia.
Qed.

Lemma unsigned_decimal_nonneg (s : jsstring) (q : Q) :
  unsigned_decimal s = Some q -> Qle 0 q.
Proof.
  unfold unsigned_decimal.
  set (ip := takeWhile is_digit s).
  set (fp := match dropWhile is_digit s with
             | 46%N :: t => takeWhile is_digit t
             | _ => []
             end).
  assert (H : Qle 0 (Qplus (inject_Z (int_of_digits ip))
                           (Qmake (int_of_digits fp) (pow10 (length fp))))).
  { pose proof (int_of_digits_nonneg ip) as H1.
    pose proof (int_of_digits_nonneg fp) as H2.
    unfold Qle, Qplus, inject_Z. cbn [Qnum Qden]. nia. }
  destruct ip; destruct fp; intros E; inversion E; subst; exact H.
Qed.

(** The amount read from group 1 is not negative. *)
Lemma parseFloat_amount_nonneg (g : jsstring) (q : Q) :
  amount_shape g -> parseFloat (filter not_comma g) = Some q -> Qle 0 q.
Proof.
  intros (a & b & -> & Ha & Hfa & Hb).
  destruct (filter_amount_chars Hfa) as [Hda _].
  rewrite filter_app.
  assert (Hfb : filter not_comma b = b).
  { destruct Hb as [-> | (d & -> & _ & Hfd)]; [reflexivity|].
    simpl. rewrite (filter_digits_id Hfd). reflexivity. }
  rewrite Hfb, parseFloat_unsigned.
  - apply unsigned_decimal_nonneg.
  - destruct (filter not_comma a) as [|c t] eqn:E.
    + simpl. destruct Hb as [-> | (d & -> & _ & _)]; [exact I|].
      unfold dot. split; [reflexivity | split; discriminate].
    + simpl. inversion Hda; subst.
      split; [apply digit_not_space; auto | apply digit_not_sign; auto].
Qed.

Lemma Qsum_nonneg (l : list Q) : Forall (Qle 0) l -> Qle 0 (Qsum l).
Proof.
  induction 1 as [|q l Hq _ IH]; [apply Qle_refl|].
  change (Qle (0 + 0) (q + Qsum l)).
  apply Qplus_le_compat; assumption.
Qed.

(** X7. No amount of a detail row is negative, and neither is the
    total. *)
Theorem calculateSum_nonnegative (unicodeLower : jsstring -> jsstring)
        (emails : list jsstring) (category : jsstring) :
  Forall (fun d => Qle 0 (d_amount d))
         (details (calculateSum unicodeLower emails category)) /\
  Qle 0 (total (calculateSum unicodeLower emails category)).
Proof.
  unfold calculateSum, run. cbn [total details].
  destruct (fold_on_email (relevantPatterns unicodeLower category) emails acc0)
    as (_ & _ & F3 & F4).
  fold (all_matches unicodeLower emails category) in F3, F4.
  cbn [acc0 a_details a_total map app] in F3, F4.
  assert (A : Forall (Qle 0) (amounts (all_matches unicodeLower emails category))).
  { apply Forall_forall. intros q Hq. unfold amounts in Hq.
    apply in_flat_map in Hq. destruct Hq as (mt & Hin & Hq).
    pose proof (all_matches_shape unicodeLower emails category) as S.
    rewrite Forall_forall in S. destruct (S mt Hin) as (g & Hg & Hs).
    destruct (parseFloat (amount_text mt)) as [q0|] eqn:E; [|contradiction].
    destruct Hq as [<- | []].
    unfold amount_text, group1 in E. rewrite Hg in E.
    eapply parseFloat_amount_nonneg; eauto. }
  split.
  - rewrite <- F3 in A. rewrite Forall_map in A. exact A.
  - rewrite F4. change (Qle (0 + 0) (0 + Qsum (amounts (all_matches unicodeLower emails category)))).
    apply Qplus_le_compat; [apply Qle_refl | apply Qsum_nonneg; exact A].
Qed.

(** *** Summaries without a currency symbol *)

Lemma no_symbol_suffix (s : jsstring) : forall pre,
  no_symbol (pre ++ s) = true -> no_symbol s = true.
Proof.
  induction pre as [|x pre IH]; intros H; [exact H|].
  apply IH. eapply no_symbol_tail. exact H.
Qed.

Lemma matches_money_symbol w rest c c' :
  matches money_re w rest c c' -> starts_symbol (w ++ rest) = true.
Proof.
  unfold money_re. intros H.
  inversion H as [| |r1 r2 w1 w2 r3 c0 c1 c2 Ha Hb| | | | | |]; subst.
  apply matches_currency_start in Ha. rewrite <- app_assoc. exact Ha.
Qed.

Lemma matches_bare_symbol w rest c c' :
  matches bare_re w rest c c' -> starts_symbol (w ++ rest) = true.
Proof.
  unfold bare_re. intros H.
  inversion H as [| |r1 r2 w1 w2 r3 c0 c1 c2 Ha Hb| | | | | |]; subst.
  apply matches_currency_start in Ha. rewrite <- app_assoc. exact Ha.
Qed.

Lemma matches_keyword_symbol kws w rest c c' :
  matches (keyword_re kws) w rest c c' ->
  exists w1 w2, w = w1 ++ w2 /\ starts_symbol (w2 ++ rest) = true.
Proof.
  unfold keyword_re. intros H.
  inversion H as [| |r1 r2 w1 w2 r3 c0 c1 c2 Ha Hb| | | | | |]; subst.
  inversion Hb as [| |r1 r2 w3 w4 r3 c0 c3 c4 Hc Hd| | | | | |]; subst.
  apply matches_money_symbol in Hd.
  exists (w1 ++ w3), w4. rewrite <- app_assoc. auto.
Qed.

(** In a text without currency symbol none of the patterns finds a match. *)
Lemma no_symbol_search_all (r : regex) (s : jsstring) (idx : nat) :
  r = money_re \/ r = keyword_re amount_keywords \/
  r = keyword_re plan_keywords \/ r = bare_re ->
  no_symbol s = true -> search r idx s = None.
Proof.
  intros Hr Hs.
  destruct (search r idx s) as [[mt rest]|] eqn:E; [|reflexivity].
  exfalso. apply search_decomp in E. destruct E as (pre & -> & Hm).
  assert (X : exists w1 w2, m_text mt = w1 ++ w2 /\ starts_symbol (w2 ++ rest) = true).
  { destruct Hr as [-> | [-> | [-> | ->]]].
    - exists [], (m_text mt). split; [reflexivity|]. eapply matches_money_symbol; eauto.
    - eapply matches_keyword_symbol; eauto.
    - eapply matches_keyword_symbol; eauto.
    - exists [], (m_text mt). split; [reflexivity|]. eapply matches_bare_symbol; eauto. }
  destruct X as (w1 & w2 & Hw & Hsym). rewrite Hw in Hs.
  replace (pre ++ (w1 ++ w2) ++ rest) with ((pre ++ w1) ++ (w2 ++ rest)) in Hs
    by (rewrite <- !app_assoc; reflexivity).
  apply no_symbol_suffix, no_symbol_start in Hs. congruence.
Qed.

Lemma no_symbol_matchAll (r : regex) (s : jsstring) :
  r = money_re \/ r = keyword_re amount_keywords \/
  r = keyword_re plan_keywords \/ r = bare_re ->
  no_symbol s = true -> matchAll r s = [].
Proof.
  intros Hr Hs. unfold matchAll. cbn [matches_from].
  rewrite (@no_symbol_search_all r s 0 Hr Hs). reflexivity.
Qed.

Section Plain.
Variable unicodeLower : jsstring -> jsstring.

(** The summary has a currency symbol in what calculateSum searches. *)
Definition priced (email : jsstring) : bool := negb (no_symbol (searchText email)).

Lemma on_email_plain (category : jsstring) (a : acc) (email : jsstring) :
  priced email = false ->
  on_email (relevantPatterns unicodeLower category) a email = a.
Proof.
  intros H. apply negb_false_iff in H. unfold on_email, email_matches.
  assert (E : flat_map (fun pattern => matchAll pattern (searchText email))
                       (relevantPatterns unicodeLower category) = []).
  { generalize (@relevantPatterns_cases unicodeLower category).
    induction (relevantPatterns unicodeLower category) as [|r rs IH]; intros Hc;
      [reflexivity|].
    cbn [flat_map]. rewrite (@no_symbol_matchAll r _ (Hc r (or_introl eq_refl)) H).
    apply IH. intros r0 Hin. apply Hc. right. exact Hin. }
  rewrite E. reflexivity.
Qed.

Lemma run_priced (category : jsstring) : forall emails a,
  fold_left (on_email (relevantPatterns unicodeLower category)) emails a =
  fold_left (on_email (relevantPatterns unicodeLower category))
            (filter priced emails) a.
Proof.
  induction emails as [|e emails IH]; intros a; [reflexivity|].
  cbn [fold_left filter]. destruct (priced e) eqn:P.
  - cbn [fold_left]. apply IH.
  - rewrite (on_email_plain category a e P). apply IH.
Qed.

(** X8. Summaries whose searched text holds no currency symbol, in any
    letter case, change nothing: calculateSum gives the same result without
    them, and when no summary holds a symbol the result is the total 0, the
    rupee sign and no detail. *)
Theorem calculateSum_plain_summaries (emails : list jsstring) (category : jsstring) :
  calculateSum unicodeLower emails category =
  calculateSum unicodeLower (filter priced emails) category /\
  (forallb (fun e => negb (priced e)) emails = true ->
   calculateSum unicodeLower emails category =
   {| total := 0%Q; currency := [rupee]; details := [] |}).
Proof.
  assert (E : calculateSum unicodeLower emails category =
              calculateSum unicodeLower (filter priced emails) category).
  { unfold calculateSum, run. rewrite (run_priced category emails acc0). reflexivity. }
  split; [exact E|].
  intros H. rewrite E.
  assert (F : filter priced emails = []).
  { clear E. induction emails as [|e emails IH]; [reflexivity|].
    cbn [forallb] in H. apply andb_prop in H. destruct H as [H1 H2].
    apply negb_true_iff in H1. cbn [filter]. rewrite H1. apply IH, H2. }
  rewrite F. reflexivity.
Qed.

(** *** The line of a sum among the summaries *)

(** A line that starts with "CALCULATED SUM: " and has no line break is
    neither a Subject nor a Content line: it adds nothing to a sum. *)
Lemma sum_line_plain (formattedSum : jsstring)
        (emails : list jsstring) (category : jsstring) :
  one_line formattedSum = true ->
  calculateSum unicodeLower ((lit "CALCULATED SUM: " ++ formattedSum) :: emails)
               category
  = calculateSum unicodeLower emails category.
Proof.
  intros H.
  assert (P : priced (lit "CALCULATED SUM: " ++ formattedSum) = false).
  { unfold priced, searchText.
    rewrite split_one_line by (apply one_line_app; [reflexivity | exact H]).
    reflexivity. }
  unfold calculateSum, run. cbn [fold_left].
  rewrite (on_email_plain category acc0 _ P). reflexivity.
Qed.
End Plain.

Lemma calculateSum_plain_summaries_witness :
  calculateSum no_lower [lit "Subject: Lunch" ++ [newline] ++ lit "Content: see you at noon"]
               (lit "flights")
  = {| total := 0%Q; currency := [rupee]; details := [] |}.
Proof.
  apply (@calculateSum_plain_summaries no_lower). reflexivity.
Defined.

(** Two amounts in lower-case rupees and one in dollars. *)
Definition mixed_email : jsstring :=
  lit "Subject: Bills" ++ [newline] ++ lit "Content: rs 100, rs 200 and USD 5".

Lemma calculateSum_dominant_symbol_witness :
  a_counts (run no_lower [mixed_email] (lit "misc")) = [([], 2); (lit "USD", 1)] /\
  currency (calculateSum no_lower [mixed_email] (lit "misc")) = [rupee] /\
  exists n, In (dominant (a_counts (run no_lower [mixed_email] (lit "misc"))), n)
               (a_counts (run no_lower [mixed_email] (lit "misc"))).
Proof.
  split; [reflexivity|]. split; [reflexivity|].
  destruct (@calculateSum_dominant_symbol no_lower [mixed_email] (lit "misc"))
    as (n & I & _); [discriminate|].
  exists n. exact I.
Defined.

End AggregatorFacts.


(* ================================================================== *)
(** ** calculateSum: an amount behind a keyword in the flight category *)
(* ================================================================== *)

Module KeywordAmounts.
Import JS Regex Parser Aggregator ParserFacts Client AggregatorFacts.

(** *** The matcher on runs of a character class *)

Lemma scan_run (R : Type) (p : N -> bool) (k : cont R) (c : capture) (x : R) :
  forall d rest,
    Forall (fun a => p a = true) d ->
    scan p k rest c = Some x ->
    scan p k (d ++ rest) c = Some x.
Proof.
  induction d as [|a d IH]; intros rest Hd Hk; [exact Hk|].
  inversion Hd; subst. cbn [app scan].
  match goal with H : p a = true |- _ => rewrite H end.
  rewrite (IH rest) by assumption. reflexivity.
Qed.

(** The text does not go on with a character of the class. *)
Definition stops (p : N -> bool) (rest : jsstring) : Prop :=
  match rest with [] => True | a :: _ => p a = false end.

(** A greedy repetition takes the whole run when the continuation accepts
    what follows it. *)
Lemma m_star_run (R : Type) (p : N -> bool) (k : cont R) (c : capture) (x : R)
      (d rest : jsstring) :
  Forall (fun a => p a = true) d -> stops p rest ->
  k rest c = Some x ->
  m (Star (Cls p)) (d ++ rest) c k = Some x.
Proof.
  intros Hd Hs Hk. cbn [m].
  rewrite (@star_loop_scan _ p) by (intros; reflexivity || lia).
  apply scan_run; [exact Hd|].
  destruct rest as [|a rest]; cbn [scan]; [exact Hk|].
  cbn [stops] in Hs. rewrite Hs. exact Hk.
Qed.

Lemma m_plus_run (R : Type) (p : N -> bool) (k : cont R) (c : capture) (x : R)
      (a : N) (d rest : jsstring) :
  p a = true -> Forall (fun b => p b = true) d -> stops p rest ->
  k rest c = Some x ->
  m (Plus (Cls p)) (a :: d ++ rest) c k = Some x.
Proof.
  intros Ha Hd Hs Hk. unfold Plus.
  change (m (Seq (Cls p) (Star (Cls p))) (a :: d ++ rest) c k)
    with (if p a then m (Star (Cls p)) (d ++ rest) c k else None).
  rewrite Ha. apply m_star_run; assumption.
Qed.

(** *** An amount of digits after "Rs. " *)

Lemma ends_amount_stops (p : jsstring) :
  ends_amount p = true -> stops is_amount_char p /\ stops is_digit p.
Proof.
  destruct p as [|c t]; [cbn; auto|]. cbn [ends_amount stops]. intros H.
  apply andb_prop in H. destruct H as [H _]. apply negb_true_iff in H.
  split; [exact H|]. unfold is_amount_char in H. apply orb_false_iff in H. tauto.
Qed.

(** No fraction starts where the amount ends. *)
Lemma no_fraction (R : Type) (p : jsstring) (c : capture) (k : cont R) :
  ends_amount p = true ->
  m (Seq (chr true dot) (Plus (Cls is_digit))) p c k = None.
Proof.
  intros H. destruct p as [|c0 t]; [reflexivity|].
  cbn [ends_amount] in H. apply andb_prop in H. destruct H as [_ H].
  apply negb_true_iff in H.
  unfold chr, Plus. cbn [m]. change (upper_ascii dot) with dot.
  destruct (upper_ascii c0 =? dot)%N eqn:E; [|reflexivity].
  apply N.eqb_eq, upper_ascii_dot in E. subst c0.
  change ((dot =? dot)%N) with true in H. cbn [andb] in H.
  destruct t as [|d0 t]; [reflexivity|]. rewrite H. reflexivity.
Qed.

(** The amount pattern on digits: group 1 takes them all. *)
Lemma m_amount_digits (R : Type) (k : cont R) (c : capture) (x : R)
      (a : N) (d p : jsstring) :
  is_digit a = true -> Forall (fun b => is_digit b = true) d ->
  ends_amount p = true ->
  k p (Some (a :: d)) = Some x ->
  m amount_re (a :: d ++ p) c k = Some x.
Proof.
  intros Ha Hd He Hk. unfold amount_re.
  change (m (Grp ?r) ?s c k)
    with (m r s c (fun s' _ => k s' (Some (firstn (length s - length s') s)))).
  change (m (Seq ?r1 ?r2) ?s c ?k0)
    with (m r1 s c (fun s' c' => m r2 s' c' k0)).
  destruct (ends_amount_stops _ He) as [Hs _].
  apply m_plus_run; auto.
  - unfold is_amount_char. rewrite Ha. reflexivity.
  - eapply Forall_impl; [|exact Hd]. intros b Hb. unfold is_amount_char.
    rewrite Hb. reflexivity.
  - unfold Opt.
    change (m (Alt ?r1 Eps) p c ?k0) with (orelse (m r1 p c k0) (k0 p c)).
    rewrite no_fraction by exact He. cbn [orelse].
    change (a :: d ++ p) with ((a :: d) ++ p). rewrite firstn_consumed. exact Hk.
Qed.

(** The currency pattern reads "Rs." when the continuation accepts what
    follows it. *)
Lemma m_currency_Rs (R : Type) (i : bool) (k : cont R) (c : capture) (x : R)
      (rest : jsstring) :
  k rest c = Some x -> m (currency_re i) (lit "Rs." ++ rest) c k = Some x.
Proof.
  intros Hk. unfold currency_re, rupee. destruct i; cbn; rewrite Hk; reflexivity.
Qed.

Lemma digit_stops_space (a : N) (t : jsstring) :
  is_digit a = true -> stops is_space (a :: t).
Proof. intros H. cbn. apply digit_not_space, H. Qed.

(** The money pattern on "Rs. " and digits. *)
Lemma m_money_digits (R : Type) (k : cont R) (c : capture) (x : R)
      (d p : jsstring) :
  d <> [] -> Forall (fun b => is_digit b = true) d -> ends_amount p = true ->
  k p (Some d) = Some x ->
  m (Seq (Star (Cls is_space)) amount_re) (space :: d ++ p) c k = Some x.
Proof.
  intros Hne Hd He Hk. destruct d as [|a d]; [congruence|].
  inversion Hd; subst.
  change (m (Seq ?r1 ?r2) ?s c ?k0)
    with (m r1 s c (fun s' c' => m r2 s' c' k0)).
  change (space :: (a :: d) ++ p) with ([space] ++ (a :: d ++ p)).
  apply m_star_run.
  - repeat constructor.
  - apply digit_stops_space. assumption.
  - apply m_amount_digits; assumption.
Qed.

Lemma exec_bare_digits (d p : jsstring) :
  d <> [] -> Forall (fun b => is_digit b = true) d -> ends_amount p = true ->
  exec_at bare_re (lit "Rs. " ++ d ++ p) = Some (skipn 1 p, Some d).
Proof.
  intros Hne Hd He. unfold exec_at, bare_re.
  change (m (Seq ?r1 ?r2) ?s None ?k0)
    with (m r1 s None (fun s' c' => m r2 s' c' k0)).
  change (lit "Rs. " ++ d ++ p) with (lit "Rs." ++ (space :: d ++ p)).
  apply m_currency_Rs.
  change (m (Seq (Star (Cls is_space)) (Seq amount_re ?r)) ?s None ?k0)
    with (m (Seq (Star (Cls is_space)) amount_re) s None
            (fun s' c' => m r s' c' k0)).
  apply m_money_digits; auto.
  destruct (ends_amount_stops _ He) as [_ Hs].
  destruct p as [|c0 t]; [reflexivity|].
  cbn [stops] in Hs. cbn [m]. rewrite Hs. reflexivity.
Qed.

(** *** An amount after a keyword *)

(** The keyword alternatives read a keyword that starts the text. *)
Lemma m_keyword_alts (R : Type) (kw : string) (k : cont R) (c : capture) (x : R)
      (rest : jsstring) :
  In kw amount_keywords -> k rest c = Some x ->
  m (alts (map (str true) amount_keywords)) (lit kw ++ rest) c k = Some x.
Proof.
  intros Hin Hk.
  destruct Hin as [<- | [<- | [<- | [<- | [<- | []]]]]];
    cbn; rewrite Hk; reflexivity.
Qed.

Lemma exec_keyword_digits (kw : string) (d p : jsstring) :
  In kw amount_keywords ->
  d <> [] -> Forall (fun b => is_digit b = true) d -> ends_amount p = true ->
  exec_at (keyword_re amount_keywords) (lit kw ++ lit ": Rs. " ++ d ++ p)
  = Some (p, Some d).
Proof.
  intros Hin Hne Hd He. unfold exec_at, keyword_re.
  change (m (Seq ?r1 ?r2) ?s None ?k0)
    with (m r1 s None (fun s' c' => m r2 s' c' k0)).
  apply m_keyword_alts; [exact Hin|].
  change (m (Seq ?r1 ?r2) ?s None ?k0)
    with (m r1 s None (fun s' c' => m r2 s' c' k0)).
  change (lit ": Rs. " ++ d ++ p) with ([colon; space] ++ (lit "Rs." ++ (space :: d ++ p))).
  apply m_star_run; [repeat constructor | reflexivity |].
  unfold money_re.
  change (m (Seq ?r1 ?r2) ?s None ?k0)
    with (m r1 s None (fun s' c' => m r2 s' c' k0)).
  apply m_currency_Rs.
  apply m_money_digits; auto.
Qed.

(** No keyword pattern matches where no keyword starts. *)
Lemma keyword_needs_start (kws : list string) (s : jsstring) :
  (forall k, In k kws -> startsWith_ci s (lit k) = false) ->
  exec_at (keyword_re kws) s = None.
Proof.
  intros H. destruct (exec_at (keyword_re kws) s) as [[rest g]|] eqn:E; [|reflexivity].
  apply exec_at_sound in E. destruct E as (w & -> & Hm).
  apply matches_keyword_start in Hm. destruct Hm as (k & Hin & Hs).
  rewrite (H k Hin) in Hs. discriminate.
Qed.

Lemma keyword_no_space (k : string) :
  In k amount_keywords ->
  lit k <> [] /\
  forallb (fun x => negb (upper_ascii space =? upper_ascii x)%N) (lit k) = true.
Proof.
  intros Hin.
  destruct Hin as [<- | [<- | [<- | [<- | [<- | []]]]]];
    (split; [discriminate | reflexivity]).
Qed.

(** The search runs over a subject without keyword and the space after
    it. *)
Lemma search_keyword_past_subject (rest : jsstring) : forall subject idx,
  no_keyword amount_keywords subject = true ->
  search (keyword_re amount_keywords) idx (subject ++ space :: rest)
  = search (keyword_re amount_keywords) (S (idx + length subject)) rest.
Proof.
  induction subject as [|x s IH]; intros idx H.
  - cbn [app length search].
    rewrite keyword_needs_start.
    + rewrite Nat.add_0_r. reflexivity.
    + intros k Hin. destruct (@keyword_no_space k Hin) as [Hne Hsp].
      change (space :: rest) with ([] ++ space :: rest).
      rewrite (@startsWith_ci_separated space (lit k) [] rest Hsp).
      destruct (lit k); [congruence | reflexivity].
  - cbn [app length search].
    rewrite keyword_needs_start.
    + rewrite IH by (eapply no_keyword_tail; eauto). f_equal. lia.
    + intros k Hin. destruct (@keyword_no_space k Hin) as [Hne Hsp].
      change (x :: s ++ space :: rest) with ((x :: s) ++ space :: rest).
      rewrite (@startsWith_ci_separated space (lit k) (x :: s) rest Hsp).
      eapply no_keyword_here; eauto.
Qed.

(** In a text without keyword before it and without symbol after it, the
    keyword pattern finds the keyword with its amount and nothing else. *)
Lemma matchAll_keyword_digits (kw : string) (subject d post : jsstring) :
  In kw amount_keywords ->
  no_keyword amount_keywords subject = true ->
  d <> [] -> Forall (fun b => is_digit b = true) d ->
  ends_amount post = true -> no_symbol post = true ->
  exists idx,
    matchAll (keyword_re amount_keywords)
             (subject ++ [space] ++ lit kw ++ lit ": Rs. " ++ d ++ post)
    = [{| m_index := idx; m_text := lit kw ++ lit ": Rs. " ++ d;
          m_group := Some d |}].
Proof.
  intros Hin Hk Hne Hd He Hs.
  pose proof (@exec_keyword_digits kw d post Hin Hne Hd He) as Hexec.
  unfold matchAll. cbn [matches_from app].
  rewrite search_keyword_past_subject by exact Hk.
  rewrite (@search_hit _ (S (0 + length subject)) _ _ _ Hexec).
  assert (Etext : firstn (length (lit kw ++ lit ": Rs. " ++ d ++ post) - length post)
                         (lit kw ++ lit ": Rs. " ++ d ++ post)
                  = lit kw ++ lit ": Rs. " ++ d).
  { replace (lit kw ++ lit ": Rs. " ++ d ++ post)
      with ((lit kw ++ lit ": Rs. " ++ d) ++ post)
      by (rewrite <- !app_assoc; reflexivity).
    apply firstn_consumed. }
  rewrite Etext. exists (S (0 + length subject)). f_equal.
  cbn [m_text m_index].
  destruct (lit kw ++ lit ": Rs. " ++ d) as [|y t] eqn:E.
  { destruct (@keyword_no_space kw Hin) as [Hk0 _].
    destruct (lit kw); [congruence | discriminate]. }
  rewrite !length_app. cbn [length]. rewrite !Nat.add_succ_r. cbn [matches_from].
  rewrite no_symbol_search_all; auto.
Qed.

(** *** The currency of a match *)

(** The code unit starts one of the currency symbols, in the letter case of
    the pattern. *)
Definition starts_currency (c : N) : bool :=
  (c =? rupee)%N || (c =? 82)%N || (c =? 73)%N || (c =? 85)%N || (c =? 36)%N.

Lemma exec_currency_none (c : N) (t : jsstring) :
  starts_currency c = false -> exec_at (currency_re false) (c :: t) = None.
Proof.
  unfold starts_currency, rupee. intros H.
  repeat (apply orb_false_iff in H; destruct H as [H ?]).
  unfold exec_at, currency_re, rupee. cbn.
  repeat match goal with E : (_ =? _)%N = false |- _ => rewrite E; clear E end.
  reflexivity.
Qed.

Lemma search_currency_skip (s : jsstring) : forall pre idx,
  forallb (fun c => negb (starts_currency c)) pre = true ->
  search (currency_re false) idx (pre ++ s)
  = search (currency_re false) (idx + length pre) s.
Proof.
  induction pre as [|c pre IH]; intros idx H.
  - cbn [app length]. rewrite Nat.add_0_r. reflexivity.
  - cbn [forallb] in H. apply andb_prop in H. destruct H as [Hc Hp].
    apply negb_true_iff in Hc. cbn [app length search].
    rewrite (@exec_currency_none c _ Hc), IH by exact Hp. f_equal. lia.
Qed.

(** The currency read from a match: "Rs." when nothing before it starts a
    symbol. *)
Lemma currency_of_Rs_after (pre rest : jsstring) :
  forallb (fun c => negb (starts_currency c)) pre = true ->
  currency_of (pre ++ lit "Rs." ++ rest) = lit "Rs.".
Proof.
  intros H. unfold currency_of, match_first.
  rewrite search_currency_skip by exact H.
  assert (E : exec_at (currency_re false) (lit "Rs." ++ rest) = Some (rest, None))
    by (apply m_currency_Rs; reflexivity).
  rewrite (@search_hit _ _ _ _ _ E). cbn [option_map fst m_text].
  apply firstn_consumed.
Qed.

Lemma keyword_plain (kw : string) :
  In kw amount_keywords ->
  one_line (lit kw ++ lit ": ") = true /\
  no_symbol (lit kw ++ lit ": ") = true /\
  forallb (fun c => negb (starts_currency c)) (lit kw ++ lit ": ") = true.
Proof.
  intros Hin.
  destruct Hin as [<- | [<- | [<- | [<- | [<- | []]]]]]; repeat split; reflexivity.
Qed.

Lemma digits_one_line (d : jsstring) :
  Forall (fun b => is_digit b = true) d -> one_line d = true.
Proof.
  unfold one_line. induction 1 as [|a d Ha _ IH]; [reflexivity|].
  cbn [forallb]. rewrite IH, andb_true_r. apply negb_true_iff, N.eqb_neq.
  unfold is_digit, in_range in Ha. apply andb_prop in Ha. destruct Ha as [H1 _].
  apply N.leb_le in H1. unfold newline. lia.
Qed.

(** parseFloat on digits gives their value. *)
Lemma parseFloat_digits (d : jsstring) :
  d <> [] -> Forall (fun b => is_digit b = true) d ->
  parseFloat (filter not_comma d)
  = Some (Qplus (inject_Z (int_of_digits d)) (Qmake 0 1)).
Proof.
  intros Hne Hd. rewrite (filter_digits_id Hd).
  rewrite parseFloat_unsigned.
  - assert (D : dropWhile is_digit d = []).
    { rewrite <- (app_nil_r d). rewrite (dropWhile_all _ _ Hd). reflexivity. }
    unfold unsigned_decimal. rewrite (takeWhile_id _ Hd), D.
    destruct d; [congruence | reflexivity].
  - destruct d as [|a d]; [exact I|]. inversion Hd; subst.
    split; [apply digit_not_space; auto | apply digit_not_sign; auto].
Qed.

Section Twice.
Variable unicodeLower : jsstring -> jsstring.

(** X10. In the flight category an amount that follows an amount keyword
    is counted twice: for a summary whose subject holds no keyword and no
    symbol and whose content is a keyword, ": Rs. ", digits and a rest
    without symbol, both patterns find the amount, the details hold it
    twice and the total is twice its value. *)
Theorem calculateSum_counts_keyword_amount_twice
        (kw : string) (from subject date d post : jsstring) :
  In kw amount_keywords ->
  one_line from = true -> one_line subject = true -> one_line date = true ->
  one_line post = true ->
  no_keyword amount_keywords subject = true -> no_symbol subject = true ->
  no_symbol post = true -> ends_amount post = true ->
  d <> [] -> Forall (fun b => is_digit b = true) d ->
  let email := summary from subject date (lit kw ++ lit ": Rs. " ++ d ++ post) in
  let r := calculateSum unicodeLower [email] (lit "flights") in
  let amount := inject_Z (int_of_digits d) in
  map d_text (details r)
  = [lit kw ++ lit ": Rs. " ++ d; lit "Rs. " ++ d ++ firstn 1 post] /\
  Forall (fun x => Qeq x amount) (map d_amount (details r)) /\
  Qeq (total r) (2 * amount) /\
  currency r = lit "Rs.".
Proof.
  intros Hin Hf Hs Hdt Hp Ks Ss Sp He Hne Hd. cbv zeta.
  destruct (@keyword_plain kw Hin) as (Lk & Sk & Ck).
  pose proof (@digits_one_line d Hd) as Ld.
  destruct (@matchAll_keyword_digits kw subject d post Hin Ks Hne Hd He Sp)
    as (idx & MK).
  destruct (@matchAll_one_marker (lit "Rs. " ++ d) d subject (lit kw ++ lit ": ") post)
    as (mb & MB & TB & GB); auto.
  { intros p Hp0. rewrite <- app_assoc. apply exec_bare_digits; auto. }
  { exists (space :: d). reflexivity. }
  unfold calculateSum, run. rewrite relevantPatterns_flights.
  cbn [total currency details fold_left]. unfold on_email, email_matches.
  rewrite searchText_summary; auto.
  2:{ replace (lit kw ++ lit ": Rs. " ++ d ++ post)
        with ((lit kw ++ lit ": ") ++ lit "Rs. " ++ d ++ post)
        by (rewrite <- !app_assoc; reflexivity).
      apply one_line_app; [exact Lk|]. apply one_line_app; [reflexivity|].
      apply one_line_app; assumption. }
  cbn [flat_map]. rewrite MK.
  replace (subject ++ [space] ++ lit kw ++ lit ": Rs. " ++ d ++ post)
    with (subject ++ [space] ++ (lit kw ++ lit ": ") ++ (lit "Rs. " ++ d) ++ post)
    by (rewrite <- !app_assoc; reflexivity).
  rewrite MB. cbn [app fold_left].
  unfold on_match, amount_text, group1. cbn [m_text m_group]. rewrite TB, GB.
  rewrite (@parseFloat_digits d Hne Hd).
  replace (lit kw ++ lit ": Rs. " ++ d)
    with ((lit kw ++ lit ": ") ++ lit "Rs." ++ (space :: d))
    by (rewrite <- !app_assoc; reflexivity).
  rewrite (@currency_of_Rs_after _ _ Ck).
  replace ((lit "Rs. " ++ d) ++ firstn 1 post)
    with ([] ++ lit "Rs." ++ (space :: d ++ firstn 1 post))
    by (rewrite <- !app_assoc; reflexivity).
  rewrite (@currency_of_Rs_after [] _ eq_refl).
  cbn [a_counts a_details a_total acc0 app map d_text d_amount].
  split; [|split; [|split]].
  - reflexivity.
  - constructor; [ring|]. constructor; [ring | constructor].
  - ring.
  - reflexivity.
Qed.
End Twice.

Lemma calculateSum_counts_keyword_amount_twice_witness :
  let r := calculateSum no_lower
             [summary (lit "bookings@air.example") (lit "Your booking") (lit "Mon")
                      (lit "total" ++ lit ": Rs. " ++ lit "4500" ++ lit " paid")]
             (lit "flights") in
  map d_text (details r) = [lit "total: Rs. 4500"; lit "Rs. 4500 "] /\
  Qeq (total r) 9000.
Proof.
  cbv zeta.
  destruct (@calculateSum_counts_keyword_amount_twice no_lower "total"
              (lit "bookings@air.example") (lit "Your booking") (lit "Mon")
              (lit "4500") (lit " paid"))
    as (H1 & _ & H3 & _);
    try reflexivity; try (left; reflexivity); try discriminate.
  - repeat constructor.
  - split; [exact H1 | rewrite H3; reflexivity].
Defined.

End KeywordAmounts.


(* ================================================================== *)
(** ** searchEmails: what one search fetches *)
(* ================================================================== *)

Module SearchFacts.
Import JS Regex Parser World World.Notations Search.

(** *** The messages a search fetches *)

(** The ids of the [messages.get] calls among some events. *)
Definition fetched (evs : list event) : list jsstring :=
  flat_map (fun ev => match ev with EvGet id => [id] | _ => [] end) evs.

Lemma fetched_gets (ids : list jsstring) : fetched (map EvGet ids) = ids.
Proof.
  induction ids as [|id ids IH]; [reflexivity|].
  change (fetched (map EvGet (id :: ids))) with (id :: fetched (map EvGet ids)).
  rewrite IH. reflexivity.
Qed.

Lemma fetched_app (a b : list event) : fetched (a ++ b) = fetched a ++ fetched b.
Proof. unfold fetched. apply flat_map_app. Qed.

Lemma existsb_streq_false (id : jsstring) (l : list jsstring) :
  existsb (streq id) l = false -> ~ In id l.
Proof.
  intros H Hin.
  assert (X : existsb (streq id) l = true)
    by (apply existsb_exists; exists id; split; [exact Hin | apply streq_refl]).
  congruence.
Qed.

Section Fetch.
Variable decode : jsstring -> option jsstring.
Variable env : Env.

(** The loop fetches ids it has not processed, each once, until five
    summaries are there. *)
Lemma fetch_spec : forall messages processedIds emails st,
  NoDup processedIds -> length emails = length processedIds -> length emails < 5 ->
  exists ids,
    log (snd (fetch decode env messages processedIds emails st))
    = log st ++ map EvGet ids /\
    NoDup (processedIds ++ ids) /\ length (processedIds ++ ids) <= 5 /\
    incl ids messages /\
    (forall l, fst (fetch decode env messages processedIds emails st) = Returns l ->
               length l = length (processedIds ++ ids)).
Proof.
  induction messages as [|id rest IH]; intros processedIds emails st Hnd Hlen Hlt.
  - exists []. cbn. rewrite !app_nil_r. repeat split; auto; try lia.
    + apply incl_refl.
    + intros l H. inversion H; subst. exact Hlen.
  - cbn [fetch]. destruct (existsb (streq id) processedIds) eqn:Hex.
    + destruct (IH processedIds emails st Hnd Hlen Hlt) as (ids & Hl & Hn & Hb & Hi & Hr).
      exists ids. repeat split; auto. apply incl_tl. exact Hi.
    + apply existsb_streq_false in Hex.
      assert (Hnd' : NoDup (processedIds ++ [id])).
      { apply NoDup_app; [exact Hnd | repeat constructor; intros [] |].
        intros x Hx [<- | []]. exact (Hex Hx). }
      cbv beta iota delta [bind messages_get tick of_sum throw ret advanced logged].
      destruct (gmail_get env (clock st) id) as [e|email];
        cbn [fst snd clock log previousQueries].
      * exists [id]. split; [reflexivity|]. split; [exact Hnd'|].
        split; [rewrite length_app; cbn; lia|].
        split; [intros x [<- | []]; left; reflexivity|].
        intros l H. discriminate.
      * destruct (5 <=? length (emails ++ [parseEmailData decode email])) eqn:H5;
          cbn [fst snd clock log previousQueries].
        -- exists [id]. split; [reflexivity|]. split; [exact Hnd'|].
           split; [rewrite length_app; cbn; lia|].
           split; [intros x [<- | []]; left; reflexivity|].
           intros l H. inversion H; subst. rewrite !length_app. cbn. lia.
        -- apply Nat.leb_gt in H5.
           match goal with |- context [fetch decode env rest ?p ?e ?s] =>
             destruct (IH p e s) as (ids & Hl & Hn & Hb & Hi & Hr) end;
             [exact Hnd' | rewrite !length_app; cbn; lia | exact H5 |].
           exists (id :: ids). cbn [log] in Hl.
           rewrite <- !app_assoc in Hn, Hb, Hr. cbn [app] in Hn, Hb, Hr.
           split; [rewrite Hl, <- app_assoc; reflexivity|].
           split; [exact Hn|]. split; [exact Hb|].
           split; [intros x [<- | Hx]; [left; reflexivity | right; apply Hi, Hx]|].
           intros l H. rewrite (Hr l H). reflexivity.
Qed.

(** Every summary of the loop is the parse of a message the store gave. *)
Definition delivered (summary : jsstring) : Prop :=
  exists t id email, gmail_get env t id = inr email /\
                     summary = parseEmailData decode email.

Lemma fetch_delivered : forall messages processedIds emails st l,
  Forall delivered emails ->
  fst (fetch decode env messages processedIds emails st) = Returns l ->
  Forall delivered l.
Proof.
  induction messages as [|id rest IH]; intros processedIds emails st l He.
  - cbn. intros H. inversion H; subst. exact He.
  - cbn [fetch]. destruct (existsb (streq id) processedIds); [apply IH; exact He|].
    cbv beta iota delta [bind messages_get tick of_sum throw ret advanced logged].
    destruct (gmail_get env (clock st) id) as [e|email] eqn:G;
      cbn [fst snd clock log previousQueries]; [discriminate|].
    assert (He' : Forall delivered (emails ++ [parseEmailData decode email])).
    { apply Forall_app. split; [exact He|]. constructor; [|constructor].
      exists (clock st), id, email. auto. }
    destruct (5 <=? length (emails ++ [parseEmailData decode email])).
    + cbn [fst]. intros H. inversion H; subst. exact He'.
    + apply IH. exact He'.
Qed.

Lemma searchEmails_delivered (query : jsstring) (st : state) (l : list jsstring) :
  fst (searchEmails decode env query st) = Returns l -> Forall delivered l.
Proof.
  cbv beta iota delta [searchEmails bind emit messages_list tick of_sum throw ret
                       advanced logged].
  cbn [fst snd clock log previousQueries].
  destruct (gmail_list env (clock st) (tier1_query query)) as [e|[ms|]];
    cbn [fst snd clock log previousQueries]; [discriminate| |].
  - apply fetch_delivered. constructor.
  - destruct (gmail_list env (S (clock st)) (tier2_query query)) as [e|[ms|]];
      cbn [fst snd clock log previousQueries]; [discriminate| |].
    + apply fetch_delivered. constructor.
    + intros H. inversion H; subst. constructor.
Qed.

Lemma searchEmails_gets (query : jsstring) (st : state) :
  let out := searchEmails decode env query st in
  let ids := fetched (added st (snd out)) in
  NoDup ids /\ length ids <= 5 /\
  (forall l, fst out = Returns l -> length l = length ids).
Proof.
  cbv zeta.
  assert (F : forall ms st1 pre,
             log st1 = log st ++ pre -> fetched pre = [] ->
             let out := fetch decode env ms [] [] st1 in
             NoDup (fetched (added st (snd out))) /\
             length (fetched (added st (snd out))) <= 5 /\
             (forall l, fst out = Returns l ->
                        length l = length (fetched (added st (snd out))))).
  { intros ms st1 pre Hpre Hf. cbv zeta.
    destruct (@fetch_spec ms [] [] st1) as (ids & Hl & Hn & Hb & _ & Hr);
      [constructor | reflexivity | cbn; lia |].
    cbn [app] in Hn, Hb, Hr.
    rewrite (@added_app st _ (pre ++ map EvGet ids))
      by (rewrite Hl, Hpre, <- app_assoc; reflexivity).
    rewrite fetched_app, Hf, fetched_gets. cbn [app]. auto. }
  cbv beta iota delta [searchEmails bind emit messages_list tick of_sum throw ret
                       advanced logged].
  cbn [fst snd clock log previousQueries].
  destruct (gmail_list env (clock st) (tier1_query query)) as [e|[ms|]];
    cbn [fst snd clock log previousQueries].
  - rewrite (@added_app st _ [EvSearch query; EvList (tier1_query query)])
      by (cbn; rewrite <- app_assoc; reflexivity).
    cbn. repeat split; [constructor | lia | discriminate].
  - apply (F ms _ [EvSearch query; EvList (tier1_query query)]);
      [cbn [log]; rewrite <- app_assoc; reflexivity | reflexivity].
  - destruct (gmail_list env (S (clock st)) (tier2_query query)) as [e|[ms|]];
      cbn [fst snd clock log previousQueries].
    + rewrite (@added_app st _ [EvSearch query; EvList (tier1_query query);
                                EvList (tier2_query query)])
        by (cbn; rewrite <- !app_assoc; reflexivity).
      cbn. repeat split; [constructor | lia | discriminate].
    + apply (F ms _ [EvSearch query; EvList (tier1_query query);
                     EvList (tier2_query query)]);
        [cbn [log]; rewrite <- !app_assoc; reflexivity | reflexivity].
    + rewrite (@added_app st _ [EvSearch query; EvList (tier1_query query);
                                EvList (tier2_query query)])
        by (cbn; rewrite <- !app_assoc; reflexivity).
      cbn. repeat split; [constructor | lia |].
      intros l H. inversion H; subst. reflexivity.
Qed.

(** X11. A search fetches no message id twice and at most five ids; when
    it returns, it returns one summary for each fetch, each the parse of a
    message the store delivered. *)
Theorem searchEmails_fetches (query : jsstring) (st : state) :
  let out := searchEmails decode env query st in
  let ids := fetched (added st (snd out)) in
  NoDup ids /\ length ids <= 5 /\
  (forall l, fst out = Returns l ->
             length l = length ids /\ Forall delivered l).
Proof.
  cbv zeta. destruct (searchEmails_gets query st) as (H1 & H2 & H3).
  split; [exact H1|]. split; [exact H2|].
  intros l H. split; [apply H3; exact H | eapply searchEmails_delivered; exact H].
Qed.

(** A search returns at most five summaries. *)
Lemma searchEmails_length (query : jsstring) (st : state) (l : list jsstring) :
  fst (searchEmails decode env query st) = Returns l -> length l <= 5.
Proof.
  intros H. destruct (searchEmails_gets query st) as (_ & Hb & Hr).
  rewrite (Hr l H). exact Hb.
Qed.
End Fetch.

(** *** The second query *)

Lemma split_Forall (P : N -> Prop) (sep : N) : forall s,
  Forall P s -> Forall (Forall P) (split sep s).
Proof.
  induction 1 as [|c s Hc Hs IH]; cbn [split]; [repeat constructor|].
  destruct (c =? sep)%N; [constructor; [constructor | exact IH]|].
  destruct (split sep s) as [|w ws]; [repeat constructor; exact Hc|].
  inversion IH; subst. constructor; [constructor; assumption | assumption].
Qed.

Lemma split_no_sep (sep : N) : forall s,
  Forall (fun w => ~ In sep w) (split sep s).
Proof.
  induction s as [|c s IH]; cbn [split]; [repeat constructor; intros []|].
  destruct (c =? sep)%N eqn:E; [constructor; [intros [] | exact IH]|].
  apply N.eqb_neq in E.
  destruct (split sep s) as [|w ws]; [repeat constructor; intros [H | []]; congruence|].
  inversion IH; subst. constructor; [|assumption].
  intros [H | H]; [congruence | contradiction].
Qed.

Lemma join_Forall (P : N -> Prop) (sep : jsstring) : forall ws,
  Forall P sep -> Forall (Forall P) ws -> Forall P (join sep ws).
Proof.
  intros ws Hsep. induction 1 as [|w ws Hw Hws IH]; cbn [join]; [constructor|].
  destruct ws as [|w' ws']; [exact Hw|].
  apply Forall_app. split; [exact Hw|]. apply Forall_app. split; [exact Hsep | exact IH].
Qed.

(** X12. Every term of the second query has at least two code units, no
    space, no parenthesis, no colon and no double quote; the second query
    holds no parenthesis, colon or double quote. *)
Theorem tier2_query_plain (query : jsstring) :
  Forall (fun term => 2 <= length term /\ ~ In space term /\
                      Forall (fun c => is_stripped c = false) term)
         (terms query) /\
  Forall (fun c => is_stripped c = false) (tier2_query query).
Proof.
  assert (C : Forall (fun c => is_stripped c = false) (cleanQuery query)).
  { unfold cleanQuery. apply Forall_forall. intros c H.
    apply in_map_iff in H. destruct H as (x & <- & _).
    destruct (is_stripped x) eqn:E; [reflexivity | exact E]. }
  assert (T : Forall (Forall (fun c => is_stripped c = false)) (terms query)).
  { unfold terms. apply Forall_forall. intros w H. apply filter_In in H.
    destruct H as [H _]. pose proof (split_Forall space C) as S.
    rewrite Forall_forall in S. apply S, H. }
  split.
  - apply Forall_forall. intros w H. split; [|split].
    + unfold terms in H. apply filter_In in H. destruct H as [_ H].
      apply Nat.ltb_lt in H. lia.
    + unfold terms in H. apply filter_In in H. destruct H as [H _].
      pose proof (split_no_sep space (cleanQuery query)) as S.
      rewrite Forall_forall in S. apply S, H.
    + rewrite Forall_forall in T. apply T, H.
  - unfold tier2_query. apply join_Forall; [|exact T].
    repeat constructor.
Qed.

(** A mail store that lists three ids, the first one twice. *)
Definition doubled_store : Env :=
  {| llm := fun _ _ => LlmContent None;
     gmail_list := fun _ _ => inr (Some [lit "m1"; lit "m1"; lit "m2"]);
     gmail_get := fun _ _ => inr sample_message;
     random := fun _ => 0%Q;
     refreshAccessToken := fun _ _ => None |}.

Lemma searchEmails_fetches_witness :
  fetched (added state0 (snd (searchEmails sample_decode doubled_store
                                           (lit "from:alice") state0)))
  = [lit "m1"; lit "m2"] /\
  exists l, fst (searchEmails sample_decode doubled_store (lit "from:alice") state0)
            = Returns l /\ length l = 2.
Proof.
  split; [reflexivity|]. eexists. split; [reflexivity|].
  apply (searchEmails_fetches sample_decode doubled_store (lit "from:alice") state0).
  reflexivity.
Defined.

End SearchFacts.


(* ================================================================== *)
(** ** The gateway, the loop and the handler: what every run keeps *)
(* ================================================================== *)

Module AgentFacts.
Import JS Regex Parser Aggregator World World.Notations Search Agent SearchFacts.

Section Gateway.
Variable unicodeLower : jsstring -> jsstring.
Variable JSON_parse : jsstring -> option AgentPlan.
Variable env : Env.

(** The lower-cased query of a plan, as the gateway records it. *)
Definition recorded (plan : AgentPlan) : jsstring :=
  toLowerCase unicodeLower (or_else (plan_query plan) []).

(** The plan is a search or a refinement that carries a query. *)
Definition asks (plan : AgentPlan) : bool :=
  is_search_or_refine plan && is_set (plan_query plan).

(** The state once [q] is added to the tried queries. *)
Definition tried (q : jsstring) (st : state) : state :=
  {| clock := clock st; previousQueries := previousQueries st ++ [q];
     log := log st |}.

(** *** The gateway under [forceFinal] *)

Lemma force_final (plan : AgentPlan) : action_is "final" (force true plan) = true.
Proof.
  unfold force. destruct (action_is "final" plan) eqn:E; cbn [andb negb]; [exact E|].
  destruct (negb (is_set _)); reflexivity.
Qed.

(** What the statements after the parse do, case by case. *)
Lemma after_parse_cases (forceFinal : bool) (plan : AgentPlan) (st : state) :
  after_parse unicodeLower forceFinal plan st =
  if asks plan then
    if existsb (streq (recorded plan)) (previousQueries st)
    then (Returns Reprompt, logged EvReprompt st)
    else (Returns (Return_ (force forceFinal plan)), tried (recorded plan) st)
  else (Returns (Return_ (force forceFinal plan)), st).
Proof.
  unfold after_parse, asks, recorded.
  destruct (is_search_or_refine plan && is_set (plan_query plan)); [|reflexivity].
  cbv beta iota delta [bind get_previous emit set_previous ret].
  destruct (existsb _ (previousQueries st)); reflexivity.
Qed.

(** One turn of the while loop, by what the call gives. *)
Lemma attempts_turn (again : Prompt -> nat -> bool -> M AgentPlan)
      (prompt : Prompt) (maxRetries : nat) (forceFinal : bool)
      (budget retries : nat) (st : state) :
  retries < maxRetries ->
  attempts unicodeLower JSON_parse env again prompt maxRetries forceFinal
           (S budget) retries st =
  let st1 := advanced (EvLlm prompt) st in
  match receive JSON_parse (llm env (clock st) prompt) with
  | inl e =>
      if isOverloaded e then
        if maxRetries <=? S retries then (Returns exhausted_plan, st1)
        else attempts unicodeLower JSON_parse env again prompt maxRetries
                      forceFinal budget (S retries)
                      (logged (EvSleep (backoff (S retries) (random env (clock st1))))
                              st1)
      else (Throws e, st1)
  | inr plan =>
      if asks plan then
        if existsb (streq (recorded plan)) (previousQueries st)
        then again (with_note prompt) (maxRetries - retries) forceFinal
                   (logged EvReprompt st1)
        else (Returns (force forceFinal plan), tried (recorded plan) st1)
      else (Returns (force forceFinal plan), st1)
  end.
Proof.
  intros Hlt. cbv zeta.
  destruct (receive JSON_parse (llm env (clock st) prompt)) as [e|plan] eqn:Hr.
  - destruct (isOverloaded e) eqn:Ho.
    + rewrite (@attempts_overloaded _ _ _ _ _ _ _ _ _ _ e Hlt Hr Ho).
      destruct (maxRetries <=? S retries); reflexivity.
    + apply (@attempts_other_error _ _ _ _ _ _ _ _ _ _ e Hlt Hr Ho).
  - apply Nat.ltb_lt in Hlt. cbn [attempts]. rewrite Hlt.
    unfold bind at 1, try_catch, bind at 1. rewrite call_llm_run, Hr.
    rewrite after_parse_cases. cbn [previousQueries advanced].
    destruct (asks plan); [|reflexivity].
    destruct (existsb _ (previousQueries st)); reflexivity.
Qed.

(** Under [forceFinal] a returned plan has the action final, and it has an
    answer unless it is a reply of the service that is itself final. *)
Definition forced (plan : AgentPlan) : Prop :=
  action_is "final" plan = true /\
  (is_set (plan_finalAnswer plan) = true \/
   exists t prompt, receive JSON_parse (llm env t prompt) = inr plan).

Lemma forced_exhausted : forced exhausted_plan.
Proof. split; [reflexivity | left; reflexivity]. Qed.

Lemma forced_force (plan : AgentPlan) (t : nat) (prompt : Prompt) :
  receive JSON_parse (llm env t prompt) = inr plan -> forced (force true plan).
Proof.
  intros Hr. split; [apply force_final|].
  unfold force. destruct (action_is "final" plan); cbn [andb negb].
  - right. eauto.
  - left. destruct (negb (is_set _)) eqn:A; [reflexivity|].
    apply negb_false_iff in A. exact A.
Qed.

Lemma attempts_forced (again : Prompt -> nat -> bool -> M AgentPlan)
      (maxRetries : nat)
      (Hagain : forall prompt mr st plan st',
          again prompt mr true st = (Returns plan, st') -> forced plan) :
  forall budget retries prompt st plan st',
    attempts unicodeLower JSON_parse env again prompt maxRetries true
             budget retries st = (Returns plan, st') ->
    forced plan.
Proof.
  induction budget as [|budget IH]; intros retries prompt st plan st' H.
  - cbn [attempts] in H. destruct (retries <? maxRetries); [discriminate|].
    inversion H; subst. apply forced_exhausted.
  - destruct (retries <? maxRetries) eqn:Hlt.
    + apply Nat.ltb_lt in Hlt. rewrite attempts_turn in H by exact Hlt.
      cbv zeta in H.
      destruct (receive JSON_parse (llm env (clock st) prompt)) as [e|p] eqn:Hr.
      * destruct (isOverloaded e); [|discriminate].
        destruct (maxRetries <=? S retries).
        -- inversion H; subst. apply forced_exhausted.
        -- eapply IH; eauto.
      * destruct (asks p).
        -- destruct (existsb _ _).
           ++ eapply Hagain; eauto.
           ++ inversion H; subst. eapply forced_force; eauto.
        -- inversion H; subst. eapply forced_force; eauto.
    + cbn [attempts] in H. rewrite Hlt in H. inversion H; subst.
      apply forced_exhausted.
Qed.

Lemma gateway_forced_final :
  forall (fuel : nat) (prompt : Prompt) (maxRetries : nat) (st : state)
         (plan : AgentPlan) (st' : state),
    callAgentWithRetry unicodeLower JSON_parse env fuel prompt maxRetries true st
    = (Returns plan, st') ->
    action_is "final" plan = true.
Proof.
  assert (G : forall fuel prompt maxRetries st plan st',
             callAgentWithRetry unicodeLower JSON_parse env fuel prompt maxRetries
                                true st = (Returns plan, st') -> forced plan).
  { induction fuel as [|fuel IH]; intros prompt maxRetries st plan st' H.
    - discriminate.
    - cbn [callAgentWithRetry] in H. eapply attempts_forced; [|exact H].
      intros p mr s pl s'. apply IH. }
  intros fuel prompt maxRetries st plan st' H. apply G in H. apply H.
Qed.

(** X13. With [forceFinal] set, every plan the gateway returns has the
    action final; it carries an answer, or it is a reply of the service
    handed on as it was parsed. *)
Theorem callAgentWithRetry_forced_final :
  forall (fuel : nat) (prompt : Prompt) (maxRetries : nat) (st : state)
         (plan : AgentPlan) (st' : state),
    callAgentWithRetry unicodeLower JSON_parse env fuel prompt maxRetries true st
    = (Returns plan, st') ->
    action_is "final" plan = true /\
    (is_set (plan_finalAnswer plan) = true \/
     exists t prompt', receive JSON_parse (llm env t prompt') = inr plan).
Proof.
  induction fuel as [|fuel IH]; intros prompt maxRetries st plan st' H.
  - discriminate.
  - cbn [callAgentWithRetry] in H.
    eapply attempts_forced; [|exact H].
    intros p mr s pl s' Hp. exact (IH p mr s pl s' Hp).
Qed.

(** *** Queries the gateway lets pass *)

(** What a returned plan shows about the set of tried queries. *)
Definition records_fresh (st : state) (plan : AgentPlan) (st' : state) : Prop :=
  if asks plan
  then ~ In (recorded plan) (previousQueries st) /\
       previousQueries st' = previousQueries st ++ [recorded plan]
  else previousQueries st' = previousQueries st.

Lemma attempts_fresh (again : Prompt -> nat -> bool -> M AgentPlan)
      (maxRetries : nat)
      (Hagain : forall prompt mr st plan st',
          again prompt mr false st = (Returns plan, st') ->
          records_fresh st plan st') :
  forall budget retries prompt st plan st',
    attempts unicodeLower JSON_parse env again prompt maxRetries false
             budget retries st = (Returns plan, st') ->
    records_fresh st plan st'.
Proof.
  induction budget as [|budget IH]; intros retries prompt st plan st' H.
  - cbn [attempts] in H. destruct (retries <? maxRetries); [discriminate|].
    inversion H; subst. reflexivity.
  - destruct (retries <? maxRetries) eqn:Hlt.
    + apply Nat.ltb_lt in Hlt. rewrite attempts_turn in H by exact Hlt.
      cbv zeta in H.
      destruct (receive JSON_parse (llm env (clock st) prompt)) as [e|p].
      * destruct (isOverloaded e); [|discriminate].
        destruct (maxRetries <=? S retries).
        -- inversion H; subst. reflexivity.
        -- apply IH in H. exact H.
      * change (force false p) with p in H.
        destruct (asks p) eqn:A.
        -- destruct (existsb _ _) eqn:Ex.
           ++ apply Hagain in H. exact H.
           ++ inversion H; subst. unfold records_fresh. rewrite A.
              cbn [previousQueries advanced tried]. split; [|reflexivity].
              apply existsb_streq_false. exact Ex.
        -- inversion H; subst. unfold records_fresh. rewrite A. reflexivity.
    + cbn [attempts] in H. rewrite Hlt in H. inversion H; subst. reflexivity.
Qed.

(** X14. Without [forceFinal], a returned plan that is a search or a
    refinement with a query carries a query whose lower-cased text was not
    tried before, and that text is the one entry added to the tried
    queries; any other returned plan leaves the tried queries as they
    were. *)
Theorem callAgentWithRetry_fresh_query :
  forall (fuel : nat) (prompt : Prompt) (maxRetries : nat) (st : state)
         (plan : AgentPlan) (st' : state),
    callAgentWithRetry unicodeLower JSON_parse env fuel prompt maxRetries false st
    = (Returns plan, st') ->
    (asks plan = true ->
     ~ In (recorded plan) (previousQueries st) /\
     previousQueries st' = previousQueries st ++ [recorded plan]) /\
    (asks plan = false -> previousQueries st' = previousQueries st).
Proof.
  assert (G : forall fuel prompt maxRetries st plan st',
             callAgentWithRetry unicodeLower JSON_parse env fuel prompt maxRetries
                                false st = (Returns plan, st') ->
             records_fresh st plan st').
  { induction fuel as [|fuel IH]; intros prompt maxRetries st plan st' H.
    - discriminate.
    - cbn [callAgentWithRetry] in H.
      eapply attempts_fresh; [|exact H].
      intros p mr s pl s'. apply IH. }
  intros fuel prompt maxRetries st plan st' H. apply G in H.
  unfold records_fresh in H. destruct (asks plan); split; auto; discriminate.
Qed.

(** *** A reply that is not JSON *)

Definition parse_failure (text : jsstring) : JsError :=
  Error (lit "Failed to parse agent response as JSON: " ++ text).

(** The message of the parse failure carries the overload marker exactly
    when the reply does. *)
Lemma parse_failure_overloaded (text : jsstring) :
  isOverloaded (parse_failure text) = includes text (lit "Overloaded").
Proof.
  unfold isOverloaded, parse_failure, Error.
  cbn [e_status e_type e_message orb]. vm_compute. reflexivity.
Qed.

(** Every turn of the while loop starts with a call to the service. *)
Lemma attempts_first_call (fuel : nat) (prompt : Prompt) (maxRetries : nat)
      (forceFinal : bool) (budget retries : nat) (st : state) :
  retries < maxRetries ->
  exists rest,
    log (snd (attempts unicodeLower JSON_parse env
                       (callAgentWithRetry unicodeLower JSON_parse env fuel)
                       prompt maxRetries forceFinal (S budget) retries st))
    = log st ++ EvLlm prompt :: rest.
Proof.
  intros Hlt. rewrite attempts_turn by exact Hlt. cbv zeta.
  assert (R : forall b r s,
             exists new,
               log (snd (attempts unicodeLower JSON_parse env
                           (callAgentWithRetry unicodeLower JSON_parse env fuel)
                           prompt maxRetries forceFinal b r s)) = log s ++ new).
  { intros b r s.
    destruct (@attempts_run unicodeLower JSON_parse env
                (callAgentWithRetry unicodeLower JSON_parse env fuel)
                maxRetries forceFinal
                (fun p mr s0 => callAgentWithRetry_run unicodeLower JSON_parse env
                                  fuel p mr forceFinal s0)
                b r prompt s) as (new & Hl & _).
    exists new. exact Hl. }
  destruct (receive JSON_parse (llm env (clock st) prompt)) as [e|plan].
  - destruct (isOverloaded e).
    + destruct (maxRetries <=? S retries).
      * exists []. reflexivity.
      * match goal with |- context [attempts _ _ _ _ _ _ _ ?b ?r ?s] =>
          destruct (R b r s) as (new & Hl) end.
        rewrite Hl. cbn [log logged advanced]. rewrite <- !app_assoc.
        eexists. reflexivity.
    + exists []. reflexivity.
  - destruct (asks plan); [|exists []; reflexivity].
    destruct (existsb _ _); [|exists []; reflexivity].
    match goal with |- context [callAgentWithRetry _ _ _ ?f ?p ?mr ?ff ?s] =>
      destruct (callAgentWithRetry_run unicodeLower JSON_parse env f p mr ff s)
        as (new & Hl & _) end.
    rewrite Hl. cbn [log logged advanced]. rewrite <- !app_assoc.
    eexists. reflexivity.
Qed.

(** X15. A reply that is not JSON makes the gateway throw the parse
    failure at once, after one call, unless the reply holds the text
    "Overloaded": then the failure counts as the overload signal, a timer
    is set and the service is called again. *)
Theorem callAgentWithRetry_unparsable_reply
        (fuel : nat) (prompt : Prompt) (forceFinal : bool) (st : state)
        (text : jsstring) :
  llm env (clock st) prompt = LlmContent (Some text) ->
  JSON_parse (trim text) = None ->
  let run := callAgentWithRetry unicodeLower JSON_parse env (S fuel) prompt 3
                                forceFinal st in
  (includes (trim text) (lit "Overloaded") = false ->
   run = (Throws (parse_failure (trim text)), advanced (EvLlm prompt) st)) /\
  (includes (trim text) (lit "Overloaded") = true ->
   exists rest,
     added st (snd run) =
     EvLlm prompt :: EvSleep (backoff 1 (random env (S (clock st))))
     :: EvLlm prompt :: rest).
Proof.
  intros Hllm Hparse. cbv zeta.
  assert (Hr : receive JSON_parse (llm env (clock st) prompt)
               = inl (parse_failure (trim text))).
  { rewrite Hllm. unfold receive, parseAgentResponse. rewrite Hparse. reflexivity. }
  cbn [callAgentWithRetry]. rewrite attempts_turn by lia. cbv zeta.
  rewrite Hr, parse_failure_overloaded.
  split; intros Ho; rewrite Ho; [reflexivity|].
  cbn [Nat.leb].
  match goal with |- context [attempts _ _ _ _ _ _ _ ?b ?r ?s] =>
    destruct (@attempts_first_call fuel prompt 3 forceFinal 1 1 s) as (rest & Hl);
      [lia|] end.
  exists rest. apply added_app. rewrite Hl.
  cbn [log logged advanced clock]. rewrite <- !app_assoc. reflexivity.
Qed.

End Gateway.

(** *** The iterations of the loop *)

Lemma action_final (plan : AgentPlan) :
  action_is "final" plan = true -> plan_action plan = Some (lit "final").
Proof.
  unfold action_is. destruct (plan_action plan) as [a|]; [|discriminate].
  intros H. apply streq_true in H. subst. reflexivity.
Qed.

(** A plan that has its action is left as it is. *)
Lemma normalize_set (plan : AgentPlan) :
  is_set (plan_action plan) = true -> normalize plan = plan.
Proof.
  intros H. unfold normalize.
  destruct (plan_final plan) as [[[|]|[a|]]|] eqn:F; rewrite ?H; cbn [negb];
    rewrite ?F;
    (destruct (plan_search plan) as [q1|]; rewrite ?H, ?andb_false_r);
    (destruct (plan_refine plan) as [q2|]; rewrite ?H, ?andb_false_r);
    rewrite ?F, ?H; reflexivity.
Qed.

Section Loop.
Variable decode : jsstring -> option jsstring.
Variable unicodeLower : jsstring -> jsstring.
Variable JSON_parse : jsstring -> option AgentPlan.
Variable toLocaleString : Q -> jsstring.
Variable env : Env.

(** The emails of the batch, none when there is no batch. *)
Definition shown (current : option (list jsstring)) : list jsstring :=
  match current with Some l => l | None => [] end.

(** How the dispatch can end: with the answer of the plan and the batch, or
    with the variables of the next iteration. *)
Lemma dispatch_returns (plan : AgentPlan) (ls : loop_state)
      (current : option (list jsstring)) (st st' : state) (s : step) :
  dispatch decode unicodeLower toLocaleString env plan ls current st = (Returns s, st') ->
  match s with
  | Done r =>
      action_is "final" plan = true /\
      answer r <> [] /\ plan_finalAnswer plan = Some (answer r) /\
      emails r = shown current
  | Next ls' =>
      action_is "final" plan = false /\
      iterations ls' = S (iterations ls) /\
      forall l, currentEmails ls' = Some l ->
                length l <= S (Nat.max 5 (length (shown current)))
  end.
Proof.
  unfold dispatch.
  destruct (is_search_or_refine plan) eqn:SR.
  { assert (NF : action_is "final" plan = false).
    { unfold is_search_or_refine, action_is in *.
      destruct (plan_action plan) as [a|]; [|reflexivity].
      destruct (streq a (lit "final")) eqn:E; [|reflexivity].
      apply streq_true in E. subst a. discriminate. }
    unfold on_search. destruct (negb (is_set (plan_query plan))); [discriminate|].
    unfold bind.
    destruct (searchEmails decode env (or_else (plan_query plan) []) st)
      as [[results|e|] st1] eqn:S; try discriminate.
    assert (L : length results <= 5).
    { apply (@searchEmails_length decode env (or_else (plan_query plan) []) st).
      rewrite S. reflexivity. }
    unfold ret.
    set (all := allProcessedEmails ls ++ results).
    set (cur := if (length results =? 0) && (0 <? length all)
                then firstn 5 all else results).
    assert (C : length cur <= 5).
    { subst cur. destruct ((length results =? 0) && _); [|exact L].
      rewrite length_firstn. lia. }
    clearbody cur all.
    intros H. inversion H; subst. cbn [iterations currentEmails].
    split; [exact NF|]. split; [reflexivity|].
    intros l Hl. inversion Hl; subst. lia. }
  destruct (action_is "sum" plan) eqn:SU.
  { assert (NF : action_is "final" plan = false).
    { unfold action_is in *.
      destruct (plan_action plan) as [a|]; [|reflexivity].
      destruct (streq a (lit "final")) eqn:E; [|reflexivity].
      apply streq_true in E. subst a. discriminate. }
    unfold on_sum, bind.
    destruct (no_emails current) eqn:NE.
    - destruct (searchEmails decode env _ st) as [[results|e|] st1] eqn:S;
        try discriminate.
      intros H. inversion H; subst. cbn [iterations currentEmails].
      split; [exact NF|]. split; [reflexivity|].
      intros l Hl. inversion Hl; subst. cbn [length].
      assert (L : length results <= 5).
      { eapply searchEmails_length. rewrite S. reflexivity. }
      lia.
    - unfold ret. intros H. inversion H; subst. cbn [iterations currentEmails].
      split; [exact NF|]. split; [reflexivity|].
      intros l Hl. inversion Hl; subst. cbn [length]. unfold shown. lia. }
  destruct (action_is "final" plan) eqn:F; [|discriminate].
  unfold on_final. destruct (is_set (plan_finalAnswer plan)) eqn:A; [|discriminate].
  unfold ret. intros H. inversion H; subst. cbn [answer emails].
  split; [reflexivity|].
  unfold is_set in A. destruct (plan_finalAnswer plan) as [a|]; [|discriminate].
  cbn [or_else]. rewrite A. split; [apply truthy_nonempty; exact A|].
  split; reflexivity.
Qed.

(** An iteration that returns has a plan from the gateway and dispatches
    it. *)
Lemma iteration_returns (fuel : nat) (userQuery : jsstring) (ls : loop_state)
      (st st' : state) (s : step) :
  iteration decode unicodeLower JSON_parse toLocaleString env fuel userQuery ls st
  = (Returns s, st') ->
  exists prompt plan st0 st1,
    callAgentWithRetry unicodeLower JSON_parse env fuel prompt 3
                       (iterations ls =? maxIterations - 1) st0
    = (Returns plan, st1) /\
    dispatch decode unicodeLower toLocaleString env (normalize plan) ls (batch ls) st1
    = (Returns s, st').
Proof.
  unfold iteration. unfold bind at 1, emit. unfold bind at 1.
  unfold callAgent. unfold bind at 1, get_previous.
  match goal with |- context [callAgentWithRetry _ _ _ _ ?p _ ?f ?s0] =>
    destruct (callAgentWithRetry unicodeLower JSON_parse env fuel p 3 f s0)
      as [[plan|e|] st1] eqn:C; try discriminate;
    intros H; exists p, plan, s0, st1; split; [exact C | exact H]
  end.
Qed.

(** X16. An iteration that hands over to the next one leaves the counter
    one higher and still below [maxIterations]: the fifth iteration always
    ends the run, so the condition of the loop never fails. *)
Theorem iteration_never_exhausts (fuel : nat) (userQuery : jsstring)
        (ls ls' : loop_state) (st st' : state) :
  iterations ls < maxIterations ->
  iteration decode unicodeLower JSON_parse toLocaleString env fuel userQuery ls st
  = (Returns (Next ls'), st') ->
  iterations ls' = S (iterations ls) /\ iterations ls' < maxIterations.
Proof.
  intros Hlt H. apply iteration_returns in H.
  destruct H as (prompt & plan & st0 & st1 & C & D).
  apply dispatch_returns in D. destruct D as (NF & It & _).
  split; [exact It|]. rewrite It.
  destruct (iterations ls =? maxIterations - 1) eqn:Last.
  - apply gateway_forced_final in C.
    pose proof (action_final _ C) as A.
    rewrite normalize_set in NF by (rewrite A; reflexivity). congruence.
  - apply Nat.eqb_neq in Last. unfold maxIterations in *. lia.
Qed.

(** The current emails are at most five, plus one line for each iteration
    done. *)
Definition bounded (ls : loop_state) : Prop :=
  length (shown (currentEmails ls)) <= 5 + iterations ls.

Lemma batch_bounded (ls : loop_state) :
  bounded ls -> length (shown (batch ls)) <= 5 + iterations ls.
Proof.
  unfold bounded, batch. intros H.
  destruct (no_emails (currentEmails ls) && _); [|exact H].
  cbn [shown]. rewrite length_firstn. lia.
Qed.

Lemma after_loop_returns (ls : loop_state) (st st' : state) (r : result) :
  after_loop ls st = (Returns r, st') ->
  answer r <> [] /\ length (emails r) <= 5.
Proof.
  unfold after_loop. destruct (0 <? _); [|discriminate].
  assert (L : length (firstn 5 (allProcessedEmails ls)) <= 5)
    by (rewrite length_firstn; lia).
  set (l := firstn 5 (allProcessedEmails ls)) in *. clearbody l.
  unfold ret. intros H. inversion H; subst. cbn [answer emails].
  split; [discriminate | exact L].
Qed.

Lemma agent_loop_returns (fuel : nat) (userQuery : jsstring) :
  forall turns ls st st' r,
    bounded ls ->
    agent_loop decode unicodeLower JSON_parse toLocaleString env turns fuel userQuery ls st
    = (Returns r, st') ->
    answer r <> [] /\ length (emails r) <= 9.
Proof.
  induction turns as [|turns IH]; intros ls st st' r B H.
  - cbn [agent_loop] in H. destruct (iterations ls <? maxIterations);
      [discriminate|].
    apply after_loop_returns in H. destruct H. split; [assumption | lia].
  - destruct (iterations ls <? maxIterations) eqn:G.
    + apply Nat.ltb_lt in G. rewrite agent_loop_step in H by exact G.
      destruct (iteration decode unicodeLower JSON_parse toLocaleString env fuel
                          userQuery ls st) as [[[r0|ls']|e|] st1] eqn:I;
        try discriminate.
      * inversion H; subst. apply iteration_returns in I.
        destruct I as (prompt & plan & st0 & st2 & _ & D).
        apply dispatch_returns in D. destruct D as (_ & A & _ & E).
        split; [exact A|]. rewrite E.
        pose proof (batch_bounded B). unfold maxIterations in G. lia.
      * apply (IH ls' st1 st' r); [|exact H].
        apply iteration_returns in I.
        destruct I as (prompt & plan & st0 & st2 & _ & D).
        apply dispatch_returns in D. destruct D as (_ & It & L).
        unfold bounded. rewrite It.
        pose proof (batch_bounded B).
        destruct (currentEmails ls') as [l|]; cbn [shown length]; [|lia].
        specialize (L l eq_refl). lia.
    + cbn [agent_loop] in H. rewrite G in H.
      apply after_loop_returns in H. destruct H. split; [assumption | lia].
Qed.

(** X17. Whenever agentSolveQuery returns, the answer is not the empty
    string and the result holds at most nine emails. *)
Theorem agentSolveQuery_result (fuel : nat) (userQuery : jsstring)
        (st st' : state) (r : result) :
  agentSolveQuery decode unicodeLower JSON_parse toLocaleString env
                  fuel userQuery st = (Returns r, st') ->
  answer r <> [] /\ length (emails r) <= 9.
Proof.
  unfold agentSolveQuery. unfold bind, set_previous. intros H.
  apply agent_loop_returns in H; [exact H|].
  unfold bounded. cbn. lia.
Qed.


(** The category the sum action reads off the plan. *)
Definition sum_category (plan : AgentPlan) : jsstring :=
  or_else (plan_sumCategory plan)
          (or_else (match plan_sum plan with Some c => c | None => None end)
                   (lit "default")).

(** X9. When the category of the plan holds no line break, and the formatted
    number holds none, the sum action hands over the emails it summed with
    one line before them, "CALCULATED SUM: Based on the emails, the total
    (category) amount is (currency)(total)", and that line changes no later
    sum: calculateSum gives the same result over the new list as over the
    emails alone, for every category. *)
Theorem on_sum_line_ignored (plan : AgentPlan) (ls ls' : loop_state)
        (current : option (list jsstring)) (st st' : state) :
  (forall x, one_line (toLocaleString x) = true) ->
  one_line (sum_category plan) = true ->
  on_sum decode unicodeLower toLocaleString env plan ls current st
  = (Returns (Next ls'), st') ->
  exists emails,
    let sumResult := calculateSum unicodeLower emails (sum_category plan) in
    let line := lit "CALCULATED SUM: "
                ++ lit "Based on the emails, the total " ++ sum_category plan
                ++ lit " amount is " ++ currency sumResult
                ++ toLocaleString (total sumResult) in
    currentEmails ls' = Some (line :: emails) /\
    forall category,
      calculateSum unicodeLower (line :: emails) category
      = calculateSum unicodeLower emails category.
Proof.
  intros Hn Hc. unfold on_sum, bind.
  set (first := if no_emails current
                then searchEmails decode env
                       (or_else (plan_sumCategory plan)
                                (or_else (plan_query plan) (lit "default")))
                else ret (match current with Some l => l | None => [] end)).
  destruct (first st) as [[emails|e|] st1]; try discriminate.
  unfold ret. intros H. injection H as H1 H2. subst ls' st'.
  exists emails. cbv zeta. cbn [currentEmails].
  fold (sum_category plan).
  split; [reflexivity|].
  intros category.
  apply (@AggregatorFacts.sum_line_plain unicodeLower).
  apply one_line_app; [reflexivity|].
  apply one_line_app; [exact Hc|].
  apply one_line_app; [reflexivity|].
  apply one_line_app; [apply AggregatorFacts.currency_one_line | apply Hn].
Qed.
End Loop.

(** *** The calls to the mail store *)

(** At most [n] searches among the events, with two queries and five
    fetches each at most. *)
Definition within (n : nat) (evs : list event) : Prop :=
  length (searches evs) <= n /\ length (issued evs) <= 2 * n /\
  length (fetched evs) <= 5 * n.

Lemma searches_app (a b : list event) : searches (a ++ b) = searches a ++ searches b.
Proof. unfold searches. apply flat_map_app. Qed.

Lemma issued_app (a b : list event) : issued (a ++ b) = issued a ++ issued b.
Proof. unfold issued. apply flat_map_app. Qed.

Lemma within_app (n m : nat) (a b : list event) :
  within n a -> within m b -> within (n + m) (a ++ b).
Proof.
  unfold within. intros (A1 & A2 & A3) (B1 & B2 & B3).
  rewrite searches_app, issued_app, fetched_app, !length_app. lia.
Qed.

Lemma within_le (n m : nat) (evs : list event) :
  n <= m -> within n evs -> within m evs.
Proof. unfold within. intros H (A1 & A2 & A3). lia. Qed.

Lemma within_nil (n : nat) : within n [].
Proof. unfold within. cbn. lia. Qed.

(** The events of the gateway are no calls to the mail store. *)
Lemma within_gateway (evs : list event) :
  forallb is_gateway_event evs = true -> within 0 evs.
Proof.
  induction evs as [|ev evs IH]; [intros; apply within_nil|].
  cbn [forallb]. intros H. apply andb_prop in H. destruct H as [H1 H2].
  specialize (IH H2). unfold within in *.
  destruct ev; try discriminate; cbn; exact IH.
Qed.

(** Fetches are no searches and no queries. *)
Lemma gets_quiet (ids : list jsstring) :
  length (searches (map EvGet ids)) = 0 /\ length (issued (map EvGet ids)) = 0.
Proof. induction ids as [|id ids IH]; [auto | exact IH]. Qed.

Section Budget.
Variable decode : jsstring -> option jsstring.
Variable unicodeLower : jsstring -> jsstring.
Variable JSON_parse : jsstring -> option AgentPlan.
Variable toLocaleString : Q -> jsstring.
Variable env : Env.

(** One search: its entry, one or two queries, five fetches at most. *)
Lemma searchEmails_within (query : jsstring) (st : state) :
  exists new, log (snd (searchEmails decode env query st)) = log st ++ new /\
              within 1 new.
Proof.
  assert (F : forall ms st1,
             exists new, log (snd (fetch decode env ms [] [] st1)) = log st1 ++ new /\
                         length (searches new) = 0 /\ length (issued new) = 0 /\
                         length (fetched new) <= 5).
  { intros ms st1.
    destruct (@fetch_spec decode env ms [] [] st1) as (ids & Hl & _ & Hb & _);
      [constructor | reflexivity | cbn; lia |].
    exists (map EvGet ids). split; [exact Hl|]. cbn [app] in Hb.
    rewrite fetched_gets.
    destruct (gets_quiet ids) as [W1 W2]. auto. }
  cbv beta iota delta [searchEmails bind emit messages_list tick of_sum throw ret
                       advanced logged].
  cbn [fst snd clock log previousQueries].
  destruct (gmail_list env (clock st) (tier1_query query)) as [e|[ms|]];
    cbn [fst snd clock log previousQueries].
  - exists [EvSearch query; EvList (tier1_query query)].
    rewrite <- app_assoc. split; [reflexivity|]. unfold within. cbn. lia.
  - match goal with |- context [fetch decode env ms [] [] ?s] =>
      destruct (F ms s) as (new & Hl & W1 & W2 & W3) end.
    exists ([EvSearch query; EvList (tier1_query query)] ++ new).
    rewrite Hl. cbn [log]. rewrite <- !app_assoc. split; [reflexivity|].
    unfold within. rewrite searches_app, issued_app, fetched_app, !length_app.
    cbn. lia.
  - destruct (gmail_list env (S (clock st)) (tier2_query query)) as [e|[ms|]];
      cbn [fst snd clock log previousQueries].
    + exists [EvSearch query; EvList (tier1_query query); EvList (tier2_query query)].
      rewrite <- !app_assoc. split; [reflexivity|]. unfold within. cbn. lia.
    + match goal with |- context [fetch decode env ms [] [] ?s] =>
        destruct (F ms s) as (new & Hl & W1 & W2 & W3) end.
      exists ([EvSearch query; EvList (tier1_query query);
               EvList (tier2_query query)] ++ new).
      rewrite Hl. cbn [log]. rewrite <- !app_assoc. split; [reflexivity|].
      unfold within. rewrite searches_app, issued_app, fetched_app, !length_app.
      cbn. lia.
    + exists [EvSearch query; EvList (tier1_query query); EvList (tier2_query query)].
      rewrite <- !app_assoc. split; [reflexivity|]. unfold within. cbn. lia.
Qed.

(** The dispatch searches once at most, and not at all for a final plan. *)
Lemma dispatch_within (plan : AgentPlan) (ls : loop_state)
      (current : option (list jsstring)) (st : state) :
  exists new,
    log (snd (dispatch decode unicodeLower toLocaleString env plan ls current st))
    = log st ++ new /\
    within (if action_is "final" plan then 0 else 1) new.
Proof.
  assert (Z : forall n, exists new : list event, log st = log st ++ new /\ within n new).
  { intros n. exists []. rewrite app_nil_r. split; [reflexivity | apply within_nil]. }
  unfold dispatch.
  destruct (is_search_or_refine plan) eqn:SR.
  { assert (NF : action_is "final" plan = false).
    { unfold is_search_or_refine, action_is in *.
      destruct (plan_action plan) as [a|]; [|reflexivity].
      destruct (streq a (lit "final")) eqn:E; [|reflexivity].
      apply streq_true in E. subst a. discriminate. }
    rewrite NF. unfold on_search.
    destruct (negb (is_set (plan_query plan))); [apply Z|].
    unfold bind.
    destruct (searchEmails_within (or_else (plan_query plan) []) st) as (new & Hl & W).
    destruct (searchEmails decode env (or_else (plan_query plan) []) st)
      as [[results|e|] st1]; cbn [fst snd] in *; exists new; auto. }
  destruct (action_is "sum" plan) eqn:SU.
  { assert (NF : action_is "final" plan = false).
    { unfold action_is in *.
      destruct (plan_action plan) as [a|]; [|reflexivity].
      destruct (streq a (lit "final")) eqn:E; [|reflexivity].
      apply streq_true in E. subst a. discriminate. }
    rewrite NF. unfold on_sum, bind.
    destruct (no_emails current); [|apply Z].
    match goal with |- context [searchEmails decode env ?q st] =>
      destruct (searchEmails_within q st) as (new & Hl & W);
      destruct (searchEmails decode env q st) as [[results|e|] st1]
    end; cbn [fst snd] in *; exists new; auto. }
  destruct (action_is "final" plan).
  - unfold on_final. destruct (is_set _); apply Z.
  - apply Z.
Qed.

(** An iteration searches once at most, and the fifth not at all. *)
Lemma iteration_within (fuel : nat) (userQuery : jsstring) (ls : loop_state)
      (st : state) :
  exists new,
    log (snd (iteration decode unicodeLower JSON_parse toLocaleString env
                        fuel userQuery ls st)) = log st ++ new /\
    within (if iterations ls =? maxIterations - 1 then 0 else 1) new.
Proof.
  unfold iteration. unfold bind at 1, emit. unfold bind at 1.
  unfold callAgent. unfold bind at 1, get_previous.
  match goal with |- context [callAgentWithRetry _ _ _ _ ?p _ ?f ?s0] =>
    destruct (callAgentWithRetry_run unicodeLower JSON_parse env fuel p 3 f s0)
      as (new1 & Hl1 & Hg & _);
    pose proof (@gateway_forced_final unicodeLower JSON_parse env fuel p 3 s0) as FF;
    destruct (callAgentWithRetry unicodeLower JSON_parse env fuel p 3 f s0)
      as [[plan|e|] st1] eqn:C
  end; cbn [fst snd log logged] in *.
  - destruct (dispatch_within (normalize plan) ls (batch ls) st1) as (new2 & Hl2 & W2).
    exists ((EvIteration (S (iterations ls)) :: new1) ++ new2).
    split; [rewrite Hl2, Hl1, <- !app_assoc; reflexivity|].
    apply within_gateway in Hg.
    assert (W1 : within 0 (EvIteration (S (iterations ls)) :: new1))
      by (unfold within in *; cbn; exact Hg).
    destruct (iterations ls =? maxIterations - 1) eqn:Last.
    + specialize (FF plan st1 C). pose proof (action_final _ FF) as A.
      rewrite normalize_set in W2 by (rewrite A; reflexivity). rewrite FF in W2.
      apply (@within_app 0 0); assumption.
    + apply (@within_app 0 1); [exact W1|].
      destruct (action_is "final" (normalize plan));
        [eapply within_le; [|exact W2]; lia | exact W2].
  - exists (EvIteration (S (iterations ls)) :: new1).
    split; [rewrite Hl1, <- !app_assoc; reflexivity|].
    apply within_gateway in Hg. eapply within_le with (n := 0); [lia|].
    unfold within in *; cbn; exact Hg.
  - exists (EvIteration (S (iterations ls)) :: new1).
    split; [rewrite Hl1, <- !app_assoc; reflexivity|].
    apply within_gateway in Hg. eapply within_le with (n := 0); [lia|].
    unfold within in *; cbn; exact Hg.
Qed.

Lemma agent_loop_within (fuel : nat) (userQuery : jsstring) :
  forall turns ls st,
  exists new,
    log (snd (agent_loop decode unicodeLower JSON_parse toLocaleString env
                         turns fuel userQuery ls st)) = log st ++ new /\
    within (maxIterations - 1 - iterations ls) new.
Proof.
  induction turns as [|turns IH]; intros ls st.
  - exists []. rewrite app_nil_r. split; [|apply within_nil].
    cbn [agent_loop]. destruct (iterations ls <? maxIterations); [reflexivity|].
    unfold after_loop. destruct (0 <? _); reflexivity.
  - destruct (iterations ls <? maxIterations) eqn:G.
    + apply Nat.ltb_lt in G. rewrite agent_loop_step by exact G.
      destruct (iteration_within fuel userQuery ls st) as (new1 & Hl1 & W1).
      assert (W1' : within (maxIterations - 1 - iterations ls) new1).
      { destruct (iterations ls =? maxIterations - 1) eqn:Last.
        - eapply within_le; [|exact W1]. lia.
        - apply Nat.eqb_neq in Last. eapply within_le; [|exact W1].
          unfold maxIterations in *. lia. }
      destruct (iteration decode unicodeLower JSON_parse toLocaleString env
                          fuel userQuery ls st) as [[[r|ls']|e|] st1] eqn:I;
        cbn [fst snd] in *; try (exists new1; split; assumption).
      destruct (IH ls' st1) as (new2 & Hl2 & W2).
      exists (new1 ++ new2). split; [rewrite Hl2, Hl1, <- app_assoc; reflexivity|].
      apply iteration_returns in I.
      destruct I as (prompt & plan & st0 & st2 & C & D).
      apply dispatch_returns in D. destruct D as (_ & It & _).
      rewrite It in W2.
      destruct (iterations ls =? maxIterations - 1) eqn:Last.
      * apply Nat.eqb_eq in Last.
        replace (maxIterations - 1 - iterations ls) with (0 + 0)
          by (unfold maxIterations in *; lia).
        apply within_app; [exact W1|].
        eapply within_le; [|exact W2]. unfold maxIterations in *. lia.
      * apply Nat.eqb_neq in Last.
        replace (maxIterations - 1 - iterations ls)
          with (1 + (maxIterations - 1 - S (iterations ls)))
          by (unfold maxIterations in *; lia).
        apply within_app; assumption.
    + exists []. rewrite app_nil_r. split; [|apply within_nil].
      cbn [agent_loop]. rewrite G.
      unfold after_loop. destruct (0 <? _); reflexivity.
Qed.

(** X18. One run of agentSolveQuery searches at most four times, sends at
    most eight queries to the mail store and fetches at most twenty
    messages. *)
Theorem agentSolveQuery_mail_budget (fuel : nat) (userQuery : jsstring) (st : state) :
  let new := added st (snd (agentSolveQuery decode unicodeLower JSON_parse
                                            toLocaleString env fuel userQuery st)) in
  length (searches new) <= 4 /\ length (issued new) <= 8 /\
  length (fetched new) <= 20.
Proof.
  cbv zeta. unfold agentSolveQuery. unfold bind, set_previous.
  match goal with |- context [agent_loop _ _ _ _ _ ?t ?f ?q ?ls ?s] =>
    destruct (agent_loop_within f q t ls s) as (new & Hl & W) end.
  cbn [log iterations] in Hl, W.
  rewrite (@added_app st _ new) by exact Hl.
  unfold within, maxIterations in W. cbn in W. exact W.
Qed.
End Budget.

(** *** The answers of the handler *)

Section Handler.
Variable decode : jsstring -> option jsstring.
Variable unicodeLower : jsstring -> jsstring.
Variable JSON_parse : jsstring -> option AgentPlan.
Variable toLocaleString : Q -> jsstring.
Variable env : Env.
Variable decodeURIComponent : jsstring -> JsError + jsstring.

(** The body has the field [answer] with a text that is not empty. *)
Definition answers (r : Response) : Prop :=
  exists a, field_of "answer" r = Some (JString a) /\ a <> [].

(** The [catch] block answers every error, with the status 403 or 500. *)
Lemma on_failure_returns (error : JsError) (st : state) :
  exists r, on_failure error st = (Returns r, st) /\
            (status r = 403 \/ status r = 500) /\ answers r.
Proof.
  unfold on_failure.
  destruct (_ && _); eexists; (split; [reflexivity|]); cbn [status];
    (split; [auto|]); eexists; (split; [reflexivity | discriminate]).
Qed.

(** What the [try] block of the handler returns. *)
Lemma POST_body_returns (fuel : nat) (req : JsError + RequestBody)
      (st st' : state) (r : Response) :
  (let* body := of_sum req in
   match body_token body with
   | None =>
       ret {| status := 401;
              fields := [("message"%string,
                          JString (lit "Authentication required"))] |}
   | Some token =>
       if negb (is_set (refreshToken token)) then
         throw (Error (lit "Refresh token is missing!"))
       else
         let* refresh_token :=
           of_sum (decodeURIComponent (or_else (refreshToken token) [])) in
         if negb (truthy refresh_token) then
           throw (Error (lit "Refresh token is still missing after setting credentials."))
         else
           let* t := tick EvRefresh in
           match refreshAccessToken env t refresh_token with
           | Some e => throw e
           | None =>
               let* r := agentSolveQuery decode unicodeLower JSON_parse
                                         toLocaleString env fuel (body_query body) in
               ret {| status := 200;
                      fields := [("answer"%string, JString (answer r));
                                 ("emails"%string, JStrings (emails r))] |}
           end
   end) st = (Returns r, st') ->
  (status r = 401 /\ field_of "answer" r = None /\ st' = st /\
   exists query, req = inr {| body_query := query; body_token := None |}) \/
  (status r = 200 /\
   exists a es, fields r = [("answer"%string, JString a);
                            ("emails"%string, JStrings es)] /\
                a <> [] /\ length es <= 9 /\
   exists body token, req = inr body /\ body_token body = Some token /\
                      is_set (refreshToken token) = true).
Proof.
  destruct req as [e|[query [token|]]];
    cbv beta iota delta [bind of_sum throw ret body_token body_query];
    [discriminate| |].
  - destruct (negb (is_set (refreshToken token))) eqn:T; [discriminate|].
    apply negb_false_iff in T.
    destruct (decodeURIComponent _) as [e|rt]; [discriminate|].
    destruct (negb (truthy rt)); [discriminate|].
    cbv beta iota delta [tick]. 
    destruct (refreshAccessToken env (clock st) rt); [discriminate|].
    destruct (agentSolveQuery _ _ _ _ _ _ _ _) as [[res|e|] st1] eqn:A;
      try discriminate.
    intros H. inversion H; subst. right. cbn [status fields].
    split; [reflexivity|].
    exists (answer res), (emails res). split; [reflexivity|].
    unfold agentSolveQuery in A. unfold bind, set_previous in A.
    apply agent_loop_returns in A; [|unfold bounded; cbn; lia].
    destruct A as [A1 A2]. split; [exact A1|]. split; [exact A2|].
    eexists; eexists. split; [reflexivity|]. split; [reflexivity | exact T].
  - intros H. inversion H; subst. left. cbn [status].
    split; [reflexivity|]. split; [reflexivity|]. split; [reflexivity|].
    eexists. reflexivity.
Qed.

(** X19. The handler never throws; it answers with the status 401 exactly
    when the body has no token, and then without the field [answer]; every
    other answer has the status 200, 403 or 500 and a field [answer] that is
    not empty; an answer with the status 200 has the fields [answer] and
    [emails], with at most nine emails. *)
Theorem POST_responses (fuel : nat) (req : JsError + RequestBody) (st : state) :
  let run := POST decode unicodeLower JSON_parse toLocaleString env
                  decodeURIComponent fuel req st in
  (forall e, fst run <> Throws e) /\
  (forall r, fst run = Returns r ->
     (status r = 401 /\ field_of "answer" r = None) \/
     ((status r = 200 \/ status r = 403 \/ status r = 500) /\ answers r)) /\
  (forall r, fst run = Returns r ->
     (status r = 401 <->
      exists query, req = inr {| body_query := query; body_token := None |})) /\
  (forall r, fst run = Returns r -> status r = 200 ->
     exists a es, fields r = [("answer"%string, JString a);
                              ("emails"%string, JStrings es)] /\
                  a <> [] /\ length es <= 9).
Proof.
  cbv zeta. unfold POST, try_catch.
  match goal with |- context [match ?body st with _ => _ end] =>
    pose proof (fun st' r => @POST_body_returns fuel req st st' r) as B;
    destruct (body st) as [[r0|e0|] st1] eqn:E
  end; cbn [fst].
  - specialize (B st1 r0 eq_refl).
    split; [discriminate|]. split; [|split].
    + intros r H. inversion H; subst.
      destruct B as [(S & F & _) | (S & a & es & Fi & Ha & _)].
      * left. auto.
      * right. split; [auto|]. exists a. unfold field_of. rewrite Fi.
        split; [reflexivity | exact Ha].
    + intros r H. inversion H; subst.
      destruct B as [(S & _ & _ & Q) | (S & a & es & Fi & Ha & He & body & token & Rq & Tk & T)].
      * split; auto.
      * split; [intros X; congruence|].
        intros (query & Q). rewrite Rq in Q. inversion Q; subst body.
        discriminate Tk.
    + intros r H S. inversion H; subst.
      destruct B as [(S' & _) | (_ & a & es & Fi & Ha & He & _)]; [congruence|].
      exists a, es. auto.
  - destruct (on_failure_returns e0 st1) as (r & Hr & Hs & Ha).
    rewrite Hr. cbn [fst].
    split; [discriminate|]. split; [|split].
    + intros r' H. inversion H; subst. right. split; [tauto | exact Ha].
    + intros r' H. inversion H; subst. split.
      * intros X. destruct Hs; congruence.
      * intros (query & Q). subst req.
        cbv in E. discriminate.
    + intros r' H S. inversion H; subst. destruct Hs; congruence.
  - split; [discriminate|]. split; [|split]; intros r H; discriminate.
Qed.

(** X20. For a token without refresh token the handler answers with the
    status 500, the generic answer and the error "Refresh token is
    missing!", and calls no service. *)
Theorem POST_without_refresh_token (fuel : nat) (query : jsstring)
        (token : Token) (st : state) :
  is_set (refreshToken token) = false ->
  POST decode unicodeLower JSON_parse toLocaleString env decodeURIComponent fuel
       (inr {| body_query := query; body_token := Some token |}) st
  = (Returns {| status := 500;
                fields := [("answer"%string,
                            JString (lit "An error occurred while processing your query."));
                           ("error"%string,
                            JString (lit "Refresh token is missing!"))] |}, st).
Proof.
  intros H. unfold POST, try_catch.
  cbv beta iota delta [bind of_sum throw ret body_token body_query].
  rewrite H. reflexivity.
Qed.

End Handler.

(** *** Sample runs *)

(** The text of a search for Goa, and [JSON.parse] extended to it. *)
Definition json_search_Goa : jsstring :=
  lit "{" ++ quoted "action" ++ lit ": " ++ quoted "search" ++ lit ", "
  ++ quoted "query" ++ lit ": " ++ quoted "Goa" ++ lit "}".

Definition search_parse (text : jsstring) : option AgentPlan :=
  if streq text json_search_Goa then Some (search_plan (lit "Goa"))
  else sample_parse text.

(** Services whose mail store lists six ids, one of them twice, for every
    query, and whose reasoning service searches for Goa first and then
    gives its answer. *)
Definition stocked : Env :=
  {| llm := fun _ p => nth (p_iteration p - 1)
                           [LlmContent (Some json_search_Goa);
                            LlmContent (Some json_final_done)]
                           (LlmContent None);
     gmail_list := fun _ _ =>
       inr (Some [lit "m1"; lit "m1"; lit "m2"; lit "m3"; lit "m4"; lit "m5";
                  lit "m6"]);
     gmail_get := fun _ _ => inr sample_message;
     random := fun _ => (1 # 2)%Q;
     refreshAccessToken := fun _ _ => None |}.

Lemma callAgentWithRetry_forced_final_witness :
  exists plan st',
    callAgentWithRetry no_lower sample_parse
                       (answering (LlmContent (Some json_nested_foo)))
                       1 sample_prompt 3 true state0 = (Returns plan, st') /\
    action_is "final" plan = true /\
    plan_finalAnswer plan = Some forced_answer.
Proof.
  eexists. eexists. split; [reflexivity|]. split; [|reflexivity].
  eapply (@callAgentWithRetry_forced_final no_lower sample_parse
            (answering (LlmContent (Some json_nested_foo)))
            1 sample_prompt 3 state0).
  reflexivity.
Defined.

Lemma callAgentWithRetry_fresh_query_witness :
  exists st',
    callAgentWithRetry no_lower search_parse
                       (answering (LlmContent (Some json_search_Goa)))
                       1 sample_prompt 3 false state0
    = (Returns (search_plan (lit "Goa")), st') /\
    ~ In (lit "goa") (previousQueries state0) /\
    previousQueries st' = [lit "goa"].
Proof.
  eexists. split; [reflexivity|].
  eapply (@callAgentWithRetry_fresh_query no_lower search_parse
            (answering (LlmContent (Some json_search_Goa)))
            1 sample_prompt 3 state0 (search_plan (lit "Goa")));
    reflexivity.
Defined.

Lemma callAgentWithRetry_unparsable_reply_witness :
  callAgentWithRetry no_lower sample_parse
                     (answering (LlmContent (Some (lit " not json "))))
                     1 sample_prompt 3 false state0
  = (Throws (parse_failure (lit "not json")), advanced (EvLlm sample_prompt) state0) /\
  exists rest,
    added state0
          (snd (callAgentWithRetry no_lower sample_parse
                  (answering (LlmContent (Some (lit "Overloaded, sorry"))))
                  1 sample_prompt 3 false state0))
    = EvLlm sample_prompt :: EvSleep (backoff 1 (1 # 2)) :: EvLlm sample_prompt :: rest.
Proof.
  split.
  - apply (@callAgentWithRetry_unparsable_reply no_lower sample_parse
             (answering (LlmContent (Some (lit " not json "))))
             0 sample_prompt false state0 (lit " not json ")); reflexivity.
  - apply (@callAgentWithRetry_unparsable_reply no_lower sample_parse
             (answering (LlmContent (Some (lit "Overloaded, sorry"))))
             0 sample_prompt false state0 (lit "Overloaded, sorry")); reflexivity.
Defined.

Definition loop_start : loop_state :=
  {| currentEmails := None; allProcessedEmails := []; iterations := 0 |}.

Lemma iteration_never_exhausts_witness :
  exists ls' st',
    iteration sample_decode no_lower search_parse sample_locale stocked
              1 (lit "trip to Goa") loop_start state0 = (Returns (Next ls'), st') /\
    iterations ls' = 1 /\ iterations ls' < maxIterations /\
    length (shown (currentEmails ls')) = 5.
Proof.
  eexists. eexists. split; [lazy; reflexivity|].
  assert (H : 0 < maxIterations) by (unfold maxIterations; lia).
  destruct (@iteration_never_exhausts sample_decode no_lower search_parse
              sample_locale stocked 1 (lit "trip to Goa") loop_start _ state0 _
              H eq_refl) as [H1 H2].
  split; [exact H1|]. split; [exact H2 | reflexivity].
Defined.

(** The plan that asks for the sum of the flights. *)
Definition sum_flights : AgentPlan :=
  {| plan_action := Some (lit "sum"); plan_query := None;
     plan_finalAnswer := None; plan_sumCategory := Some (lit "flights");
     plan_final := None; plan_search := None; plan_refine := None;
     plan_sum := None |}.

Lemma on_sum_line_ignored_witness :
  exists line st',
    on_sum sample_decode no_lower (fun _ => lit "7,700") stocked sum_flights
           loop_start (Some [flight_email_1; flight_email_2]) state0
    = (Returns (Next {| currentEmails :=
                          Some (line :: [flight_email_1; flight_email_2]);
                        allProcessedEmails := []; iterations := 1 |}), st') /\
    line = lit "CALCULATED SUM: Based on the emails, the total flights amount is Rs.7,700" /\
    calculateSum no_lower (line :: [flight_email_1; flight_email_2]) (lit "flights")
    = calculateSum no_lower [flight_email_1; flight_email_2] (lit "flights").
Proof.
  eexists. eexists. split; [lazy; reflexivity|].
  split; [vm_compute; reflexivity|].
  destruct (@on_sum_line_ignored sample_decode no_lower (fun _ => lit "7,700")
              stocked sum_flights loop_start _
              (Some [flight_email_1; flight_email_2]) state0 _
              (fun _ => eq_refl) eq_refl eq_refl) as (emails & E & C).
  cbv zeta in E, C. cbn [currentEmails] in E. injection E as E1 E2. subst emails.
  exact (C (lit "flights")).
Defined.

Lemma agentSolveQuery_result_witness :
  exists r st',
    agentSolveQuery sample_decode no_lower search_parse sample_locale stocked
                    1 (lit "trip to Goa") state0 = (Returns r, st') /\
    answer r = lit "done" /\ length (emails r) = 5 /\
    answer r <> [] /\ length (emails r) <= 9.
Proof.
  eexists. eexists. split; [reflexivity|]. split; [reflexivity|].
  split; [reflexivity|].
  eapply (@agentSolveQuery_result sample_decode no_lower search_parse
            sample_locale stocked 1 (lit "trip to Goa") state0).
  reflexivity.
Defined.

Definition sample_uri (s : jsstring) : JsError + jsstring := inr s.

Definition sample_token : Token :=
  {| accessToken := Some (lit "at"); refreshToken := Some (lit "rt") |}.

Lemma POST_responses_witness :
  exists r st',
    POST sample_decode no_lower search_parse sample_locale stocked sample_uri 1
         (inr {| body_query := lit "trip to Goa"; body_token := Some sample_token |})
         state0 = (Returns r, st') /\
    status r = 200 /\
    exists a es, fields r = [("answer"%string, JString a);
                             ("emails"%string, JStrings es)] /\
                 a <> [] /\ length es <= 9.
Proof.
  eexists. eexists. split; [lazy; reflexivity|]. split; [reflexivity|].
  destruct (@POST_responses sample_decode no_lower search_parse sample_locale
              stocked sample_uri 1
              (inr {| body_query := lit "trip to Goa";
                      body_token := Some sample_token |}) state0)
    as (_ & _ & _ & H).
  eapply H; reflexivity.
Defined.

Lemma POST_without_refresh_token_witness :
  POST sample_decode no_lower search_parse sample_locale stocked sample_uri 1
       (inr {| body_query := lit "trip to Goa";
               body_token := Some {| accessToken := Some (lit "at");
                                     refreshToken := None |} |}) state0
  = (Returns {| status := 500;
                fields := [("answer"%string,
                            JString (lit "An error occurred while processing your query."));
                           ("error"%string,
                            JString (lit "Refresh token is missing!"))] |}, state0).
Proof.
  apply (@POST_without_refresh_token sample_decode no_lower search_parse
           sample_locale stocked sample_uri 1 (lit "trip to Goa")
           {| accessToken := Some (lit "at"); refreshToken := None |} state0).
  reflexivity.
Defined.

End AgentFacts.


(* ================================================================== *)
(** ** The session: middleware, tokens route, client request, callback *)
(* ================================================================== *)

Module Session.
Import JS Parser Aggregator World Search Agent AgentFacts.

(** *** middleware.ts *)

(** What the middleware answers: a redirect to a path of the same origin, or
    [NextResponse.next()]. *)
Inductive verdict : Type :=
| Redirect (path : jsstring)
| Pass.

(** [middleware(request)], by the path of the request and its cookie
    [access_token] ([None] when the request has none). *)
Definition middleware (pathname : jsstring) (accessToken : option jsstring) : verdict :=
  let present := match accessToken with Some _ => true | None => false end in
  if startsWith pathname (lit "/dashboard") && negb present then Redirect (lit "/")
  else if streq pathname (lit "/") && present then Redirect (lit "/dashboard")
  else Pass.

(** *** The tokens route and the client that posts the query *)

(** [req.cookies.get(name)?.value || null] *)
Definition cookie_value (cookie : option jsstring) : option jsstring :=
  match cookie with
  | Some v => if truthy v then Some v else None
  | None => None
  end.

(** [GET] of the tokens route: the body it answers with. *)
Definition tokens_GET (access_cookie refresh_cookie : option jsstring) : Token :=
  {| accessToken := cookie_value access_cookie;
     refreshToken := cookie_value refresh_cookie |}.

(** [handleSubmit]: the body of the request it sends, none for a blank
    input. *)
Definition handleSubmit (input : jsstring) (token : Token) : option RequestBody :=
  if negb (truthy (trim input)) then None
  else Some {| body_query := input; body_token := Some token |}.

(** X22. A redirect of the middleware leads to a path that the middleware
    lets pass with the same cookie; and a path under /dashboard passes only
    with the cookie. *)
Theorem middleware_settles (pathname : jsstring) (accessToken : option jsstring) :
  (forall target, middleware pathname accessToken = Redirect target ->
                  middleware target accessToken = Pass) /\
  (startsWith pathname (lit "/dashboard") = true ->
   middleware pathname accessToken = Pass -> accessToken <> None).
Proof.
  unfold middleware. split.
  - intros target.
    destruct (startsWith pathname (lit "/dashboard") && _) eqn:A.
    + intros H. inversion H; subst.
      apply andb_prop in A. destruct A as [_ A]. destruct accessToken; [discriminate|].
      reflexivity.
    + destruct (streq pathname (lit "/") && _) eqn:B; [|discriminate].
      intros H. inversion H; subst.
      apply andb_prop in B. destruct B as [_ B]. destruct accessToken; [|discriminate].
      reflexivity.
  - intros S. rewrite S. destruct accessToken; [discriminate|]. discriminate.
Qed.

Lemma middleware_settles_witness :
  middleware (lit "/dashboard/inbox") None = Redirect (lit "/") /\
  middleware (lit "/") None = Pass /\
  middleware (lit "/") (Some (lit "at")) = Redirect (lit "/dashboard") /\
  middleware (lit "/dashboard") (Some (lit "at")) = Pass.
Proof.
  split; [reflexivity|]. split; [|split; [reflexivity|]].
  - apply (middleware_settles (lit "/dashboard/inbox") None). reflexivity.
  - apply (middleware_settles (lit "/") (Some (lit "at"))). reflexivity.
Defined.

Section Posted.
Variable decode : jsstring -> option jsstring.
Variable unicodeLower : jsstring -> jsstring.
Variable JSON_parse : jsstring -> option AgentPlan.
Variable toLocaleString : Q -> jsstring.
Variable env : Env.
Variable decodeURIComponent : jsstring -> JsError + jsstring.

(** X21. The request the client sends carries the token object of the
    tokens route, so the handler never answers it with the status 401;
    without a refresh cookie the answer has the status 500 and the error
    "Refresh token is missing!". *)
Theorem POST_from_client (fuel : nat) (input : jsstring)
        (access_cookie refresh_cookie : option jsstring) (body : RequestBody)
        (st : state) :
  handleSubmit input (tokens_GET access_cookie refresh_cookie) = Some body ->
  let run := POST decode unicodeLower JSON_parse toLocaleString env
                  decodeURIComponent fuel (inr body) st in
  (forall r, fst run = Returns r -> status r <> 401) /\
  (cookie_value refresh_cookie = None ->
   run = (Returns {| status := 500;
                     fields := [("answer"%string,
                                 JString (lit "An error occurred while processing your query."));
                                ("error"%string,
                                 JString (lit "Refresh token is missing!"))] |}, st)).
Proof.
  unfold handleSubmit. destruct (negb (truthy (trim input))); [discriminate|].
  intros H. inversion H; subst. cbv zeta. split.
  - intros r Hr.
    unfold POST, try_catch in Hr.
    match type of Hr with context [match ?b st with _ => _ end] =>
      pose proof (fun st' r' => @POST_body_returns decode unicodeLower JSON_parse
                                  toLocaleString env decodeURIComponent fuel
                                  (inr {| body_query := input;
                                          body_token := Some (tokens_GET access_cookie
                                                                         refresh_cookie) |})
                                  st st' r') as B;
      destruct (b st) as [[r0|e0|] st1] eqn:E
    end; cbn [fst] in Hr.
    + inversion Hr; subst.
      destruct (B st1 r eq_refl) as [(_ & _ & _ & q & Q) | (S & _)];
        [discriminate Q | congruence].
    + destruct (on_failure_returns e0 st1) as (r' & Hr' & Hs & _).
      rewrite Hr' in Hr. cbn [fst] in Hr. inversion Hr; subst.
      destruct Hs; congruence.
    + discriminate.
  - intros Hc. unfold POST, try_catch.
    cbv beta iota delta [bind of_sum throw ret body_token body_query].
    unfold tokens_GET. cbn [refreshToken]. rewrite Hc. reflexivity.
Qed.
End Posted.

Lemma POST_from_client_witness :
  POST sample_decode no_lower search_parse sample_locale stocked sample_uri 1
       (inr {| body_query := lit "trip to Goa";
               body_token := Some (tokens_GET (Some (lit "at")) None) |}) state0
  = (Returns {| status := 500;
                fields := [("answer"%string,
                            JString (lit "An error occurred while processing your query."));
                           ("error"%string,
                            JString (lit "Refresh token is missing!"))] |}, state0).
Proof.
  apply (@POST_from_client sample_decode no_lower search_parse sample_locale
           stocked sample_uri 1 (lit "trip to Goa") (Some (lit "at")) None);
    reflexivity.
Defined.

(** *** The OAuth callback *)

(** [tokens] of [oauth2Client.getToken(code)], by the two fields read. *)
Record Tokens : Type := {
  access_token : option jsstring;
  refresh_token : option jsstring
}.

(** A cookie set on the response, with its options. *)
Record cookie : Type := {
  c_name : string;
  c_value : jsstring;
  c_httpOnly : bool;
  c_secure : bool;
  c_sameSite : string;
  c_maxAge : N
}.


Section Callback.
(** [process.env.NEXT_PUBLIC_APP_URL], and [NODE_ENV === 'production']. *)
Variable APP_URL : jsstring.
Variable production : bool.
(** [oauth2Client.getToken(code)]; [inl] when it throws. *)
Variable getToken : jsstring -> JsError + Tokens.





End Callback.


End Session.


(* ================================================================== *)
(** ** The older query route: processDynamicQuery *)
(* ================================================================== *)

Module Legacy.
Import JS Parser World World.Notations Search SearchFacts.

Section Route.
Variable decode : jsstring -> option jsstring.
Variable env : Env.
(** [anthropic.messages.create] of the extraction, by the clock and the text
    of the prompt. *)
Variable create : nat -> jsstring -> llm_reply.

(** A call to the service: the clock advances (these calls are not
    logged). *)
Definition asked : M nat :=
  fun st => (Returns (clock st),
             {| clock := S (clock st); previousQueries := previousQueries st;
                log := log st |}).

(** The summary of [llmExtractInfo]. *)
Definition emailContent (e : emailData) : jsstring :=
  let hs := email_headers e in
  let subject := header_or hs (lit "Subject") (lit "No Subject") in
  let from := header_or hs (lit "From") (lit "Unknown Sender") in
  let date := header_or hs (lit "Date") (lit "No Date") in
  lit "Email from: " ++ from ++ nl ++ lit "Subject: " ++ subject ++ nl
  ++ lit "Date: " ++ date ++ nl ++ lit "Content: " ++ truncate (email_body decode e).

(** [llmExtractInfo(emailData, extractionInstructions)] *)
Definition llmExtractInfo (e : emailData) (extractionInstructions : jsstring)
  : M jsstring :=
  let prompt := extractionInstructions ++ nl ++ nl ++ emailContent e in
  let* t := asked in
  match create t prompt with
  | LlmContent (Some text) => ret (trim text)
  | LlmContent None => ret (emailContent e)
  | LlmThrows _ => ret (emailContent e)
  end.

(** The three queries of [processDynamicQuery]. *)
Definition phraseQuery (searchQuery : jsstring) : jsstring :=
  [dquote] ++ searchQuery ++ [dquote].

Definition orQuery (searchQuery : jsstring) : jsstring :=
  join (lit " OR ") (split space searchQuery).

Definition firstTerm (searchQuery : jsstring) : jsstring :=
  hd [] (split space searchQuery).

(** The loop over [response.data.messages]. *)
Fixpoint extract_all (messages : list jsstring) (extractionInstructions : jsstring)
         (aggregatedResults : list jsstring) : M (list jsstring) :=
  match messages with
  | [] => ret aggregatedResults
  | id :: rest =>
      let* email := messages_get env id in
      let* extractedInfo := llmExtractInfo email extractionInstructions in
      extract_all rest extractionInstructions (aggregatedResults ++ [extractedInfo])
  end.

(** [processDynamicQuery(gmail, searchQuery, extractionInstructions, _)] *)
Definition processDynamicQuery (searchQuery extractionInstructions : jsstring)
  : M (list jsstring) :=
  let* r1 := messages_list env (phraseQuery searchQuery) in
  let* r2 := match r1 with
             | None => messages_list env (orQuery searchQuery)
             | Some _ => ret r1
             end in
  let* r3 := match r2 with
             | None => messages_list env (firstTerm searchQuery)
             | Some _ => ret r2
             end in
  match r3 with
  | None => ret []
  | Some messages => extract_all messages extractionInstructions []
  end.

Lemma llmExtractInfo_falls_back (e : emailData) (instructions : jsstring)
        (st : state) :
  exists info,
    fst (llmExtractInfo e instructions st) = Returns info /\
    log (snd (llmExtractInfo e instructions st)) = log st /\
    match create (clock st) (instructions ++ nl ++ nl ++ emailContent e) with
    | LlmContent (Some text) => info = trim text
    | _ => info = emailContent e
    end.
Proof.
  unfold llmExtractInfo, bind, asked. cbv zeta.
  destruct (create (clock st) _) as [err|[text|]]; eexists; repeat split.
Qed.

(** The loop sends no query, and fetches the messages one by one. *)
Lemma extract_all_log (instructions : jsstring) : forall messages acc st,
  exists ids,
    log (snd (extract_all messages instructions acc st)) = log st ++ map EvGet ids /\
    (forall l, fst (extract_all messages instructions acc st) = Returns l ->
               ids = messages /\ length l = length acc + length messages).
Proof.
  induction messages as [|id rest IH]; intros acc st.
  - exists []. cbn. rewrite app_nil_r. split; [reflexivity|].
    intros l H. inversion H; subst. split; [reflexivity | lia].
  - cbn [extract_all].
    cbv beta iota delta [bind messages_get tick of_sum throw ret advanced].
    destruct (gmail_get env (clock st) id) as [err|email].
    + exists [id]. cbn. split; [reflexivity | discriminate].
    + destruct (llmExtractInfo_falls_back email instructions
                  {| clock := S (clock st); previousQueries := previousQueries st;
                     log := log st ++ [EvGet id] |}) as (info & Hi & Hl & _).
      destruct (llmExtractInfo email instructions _) as [o st1].
      cbn [fst snd] in Hi, Hl. subst o.
      destruct (IH (acc ++ [info]) st1) as (ids & Hl2 & Hr).
      exists (id :: ids). cbn [map]. rewrite Hl2, Hl. cbn [log].
      rewrite <- app_assoc. split; [reflexivity|].
      intros l H. destruct (Hr l H) as [E1 E2]. subst ids.
      split; [reflexivity|]. rewrite E2, length_app. cbn. lia.
Qed.

Lemma issued_gets (ids : list jsstring) : issued (map EvGet ids) = [].
Proof. induction ids as [|id ids IH]; [reflexivity | exact IH]. Qed.

(** X24. The older route sends the query between double quotes; the terms
    joined with " OR " only when that answer lists no messages; the first
    term only when neither does; and it returns the empty list when the
    three answers list no messages. *)
Theorem processDynamicQuery_ladder (searchQuery instructions : jsstring) (st : state) :
  let q1 := phraseQuery searchQuery in
  let q2 := orQuery searchQuery in
  let q3 := firstTerm searchQuery in
  let out := processDynamicQuery searchQuery instructions st in
  let qs := issued (added st (snd out)) in
  (qs = [q1] \/ qs = [q1; q2] \/ qs = [q1; q2; q3]) /\
  (qs = [q1] <-> gmail_list env (clock st) q1 <> inr None) /\
  (qs = [q1; q2; q3] <->
   gmail_list env (clock st) q1 = inr None /\
   gmail_list env (S (clock st)) q2 = inr None) /\
  (gmail_list env (clock st) q1 = inr None ->
   gmail_list env (S (clock st)) q2 = inr None ->
   gmail_list env (S (S (clock st))) q3 = inr None ->
   fst out = Returns []).
Proof.
  cbv zeta.
  assert (F : forall ms st1 pre,
             log st1 = log st ++ pre ->
             issued (added st (snd (extract_all ms instructions [] st1)))
             = issued pre).
  { intros ms st1 pre Hpre.
    destruct (extract_all_log instructions ms [] st1) as (ids & Hl & _).
    rewrite (@added_app st _ (pre ++ map EvGet ids))
      by (rewrite Hl, Hpre, <- app_assoc; reflexivity).
    unfold issued. rewrite flat_map_app. fold (issued (map EvGet ids)).
    rewrite issued_gets. apply app_nil_r. }
  cbv beta iota delta [processDynamicQuery bind messages_list tick of_sum throw ret
                       advanced].
  cbn [fst snd clock log previousQueries].
  destruct (gmail_list env (clock st) (phraseQuery searchQuery)) as [e|[ms|]] eqn:E1;
    cbn [fst snd clock log previousQueries].
  - rewrite (@added_app st _ [EvList (phraseQuery searchQuery)]) by reflexivity.
    cbn. repeat split; auto; try discriminate; try (intros [H _]; discriminate).
  - rewrite (F ms _ [EvList (phraseQuery searchQuery)]) by reflexivity.
    cbn. repeat split; auto; try discriminate; try (intros [H _]; discriminate).
  - destruct (gmail_list env (S (clock st)) (orQuery searchQuery)) as [e|[ms|]] eqn:E2;
      cbn [fst snd clock log previousQueries].
    + rewrite (@added_app st _ [EvList (phraseQuery searchQuery);
                                EvList (orQuery searchQuery)])
        by (cbn; rewrite <- !app_assoc; reflexivity).
      cbn. repeat split; auto; try discriminate; try congruence;
        try (intros [_ H]; discriminate).
    + rewrite (F ms _ [EvList (phraseQuery searchQuery); EvList (orQuery searchQuery)])
        by (cbn [log]; rewrite <- !app_assoc; reflexivity).
      cbn. repeat split; auto; try discriminate; try congruence;
        try (intros [_ H]; discriminate).
    + destruct (gmail_list env (S (S (clock st))) (firstTerm searchQuery))
        as [e|[ms|]] eqn:E3; cbn [fst snd clock log previousQueries].
      * rewrite (@added_app st _ [EvList (phraseQuery searchQuery);
                                  EvList (orQuery searchQuery);
                                  EvList (firstTerm searchQuery)])
          by (cbn; rewrite <- !app_assoc; reflexivity).
        cbn. repeat split; auto; try discriminate; try congruence.
      * rewrite (F ms _ [EvList (phraseQuery searchQuery);
                         EvList (orQuery searchQuery);
                         EvList (firstTerm searchQuery)])
          by (cbn [log]; rewrite <- !app_assoc; reflexivity).
        cbn. repeat split; auto; try discriminate; try congruence.
      * rewrite (@added_app st _ [EvList (phraseQuery searchQuery);
                                  EvList (orQuery searchQuery);
                                  EvList (firstTerm searchQuery)])
          by (cbn; rewrite <- !app_assoc; reflexivity).
        cbn. repeat split; auto; try discriminate; try congruence.
Qed.

(** X25. When the first answer lists messages, the older route fetches
    every listed id in order, repeated ids included, and returns one entry
    for each. *)
Theorem processDynamicQuery_every_message (searchQuery instructions : jsstring)
        (st : state) (messages l : list jsstring) :
  gmail_list env (clock st) (phraseQuery searchQuery) = inr (Some messages) ->
  fst (processDynamicQuery searchQuery instructions st) = Returns l ->
  length l = length messages /\
  fetched (added st (snd (processDynamicQuery searchQuery instructions st)))
  = messages.
Proof.
  intros E1.
  cbv beta iota delta [processDynamicQuery bind messages_list tick of_sum throw ret
                       advanced].
  cbn [fst snd clock log previousQueries]. rewrite E1.
  cbn [fst snd clock log previousQueries].
  match goal with |- context [extract_all messages instructions [] ?s] =>
    destruct (extract_all_log instructions messages [] s) as (ids & Hl & Hr) end.
  intros H. destruct (Hr l H) as [-> Hlen]. split; [exact Hlen|].
  rewrite (@added_app st _ ([EvList (phraseQuery searchQuery)] ++ map EvGet messages))
    by (rewrite Hl; cbn [log]; rewrite <- app_assoc; reflexivity).
  rewrite fetched_app, fetched_gets. reflexivity.
Qed.

(** The loop fails only when the mail store does. *)
Lemma extract_all_throws (instructions : jsstring) : forall messages acc st e,
  fst (extract_all messages instructions acc st) = Throws e ->
  exists t id, gmail_get env t id = inl e.
Proof.
  induction messages as [|id rest IH]; intros acc st e; [discriminate|].
  cbn [extract_all].
  cbv beta iota delta [bind messages_get tick of_sum throw ret advanced].
  destruct (gmail_get env (clock st) id) as [err|email] eqn:G.
  - cbn [fst]. intros H. inversion H; subst. eauto.
  - match goal with |- context [llmExtractInfo email instructions ?s] =>
      destruct (llmExtractInfo_falls_back email instructions s) as (info & Hi & _);
      destruct (llmExtractInfo email instructions s) as [o st1]
    end.
    cbn [fst] in Hi. subst o. apply IH.
Qed.

(** X26. The older route fails only with an error of the mail store: a
    failure of the extraction service is replaced by the raw summary. *)
Theorem processDynamicQuery_failures (searchQuery instructions : jsstring)
        (st : state) (e : JsError) :
  fst (processDynamicQuery searchQuery instructions st) = Throws e ->
  (exists t q, gmail_list env t q = inl e) \/
  (exists t id, gmail_get env t id = inl e).
Proof.
  cbv beta iota delta [processDynamicQuery bind messages_list tick of_sum throw ret
                       advanced].
  cbn [fst snd clock log previousQueries].
  destruct (gmail_list env (clock st) (phraseQuery searchQuery)) as [e1|[ms|]] eqn:E1;
    cbn [fst snd clock log previousQueries].
  - intros H. inversion H; subst. left. eauto.
  - intros H. right. eapply extract_all_throws; eauto.
  - destruct (gmail_list env (S (clock st)) (orQuery searchQuery)) as [e2|[ms|]] eqn:E2;
      cbn [fst snd clock log previousQueries].
    + intros H. inversion H; subst. left. eauto.
    + intros H. right. eapply extract_all_throws; eauto.
    + destruct (gmail_list env (S (S (clock st))) (firstTerm searchQuery))
        as [e3|[ms|]] eqn:E3; cbn [fst snd clock log previousQueries].
      * intros H. inversion H; subst. left. eauto.
      * intros H. right. eapply extract_all_throws; eauto.
      * discriminate.
Qed.
End Route.

(** A mail store that lists the same message three times for one word. *)
Definition echo_store : Env :=
  {| llm := fun _ _ => LlmContent None;
     gmail_list := fun _ q =>
       if streq q (lit "flight")
       then inr (Some [lit "m1"; lit "m1"; lit "m1"; lit "m1"; lit "m1"; lit "m1"])
       else inr None;
     gmail_get := fun _ _ => inr sample_message;
     random := fun _ => 0%Q;
     refreshAccessToken := fun _ _ => None |}.

Definition silent (t : nat) (prompt : jsstring) : llm_reply := LlmContent None.

Definition overloaded : JsError :=
  {| e_status := Some 529%Z; e_type := None; e_message := None;
     e_code := None; e_detail := None |}.

Lemma processDynamicQuery_ladder_witness :
  issued (added state0 (snd (processDynamicQuery sample_decode echo_store silent
                                                 (lit "flight ticket") [] state0)))
  = [phraseQuery (lit "flight ticket"); lit "flight OR ticket"; lit "flight"]
  /\ length (fetched (added state0
                        (snd (processDynamicQuery sample_decode echo_store silent
                                                  (lit "flight ticket") [] state0))))
     = 6.
Proof.
  split; [|reflexivity].
  apply (processDynamicQuery_ladder sample_decode echo_store silent
           (lit "flight ticket") [] state0).
  split; reflexivity.
Defined.

(** A mail store that lists the same message six times for every query. *)
Definition repeating_store : Env :=
  {| llm := fun _ _ => LlmContent None;
     gmail_list := fun _ _ =>
       inr (Some [lit "m1"; lit "m1"; lit "m1"; lit "m1"; lit "m1"; lit "m1"]);
     gmail_get := fun _ _ => inr sample_message;
     random := fun _ => 0%Q;
     refreshAccessToken := fun _ _ => None |}.

Lemma processDynamicQuery_every_message_witness :
  exists l,
    fst (processDynamicQuery sample_decode repeating_store silent (lit "flight") []
                             state0)
    = Returns l /\ length l = 6.
Proof.
  eexists. split; [reflexivity|].
  eapply (@processDynamicQuery_every_message sample_decode repeating_store silent
            (lit "flight") [] state0
            [lit "m1"; lit "m1"; lit "m1"; lit "m1"; lit "m1"; lit "m1"]);
    reflexivity.
Defined.

Definition quota_error : JsError :=
  {| e_status := None; e_type := None; e_message := Some (lit "Quota exceeded");
     e_code := Some 429%Z; e_detail := None |}.

(** A mail store that lists one message and fails to deliver it, and an
    extraction service that always fails. *)
Definition failing_store : Env :=
  {| llm := fun _ _ => LlmContent None;
     gmail_list := fun _ _ => inr (Some [lit "m1"]);
     gmail_get := fun _ _ => inl quota_error;
     random := fun _ => 0%Q;
     refreshAccessToken := fun _ _ => None |}.

Definition failing (t : nat) (prompt : jsstring) : llm_reply :=
  LlmThrows overloaded.

Lemma processDynamicQuery_failures_witness :
  fst (processDynamicQuery sample_decode failing_store failing (lit "flight") [] state0)
  = Throws quota_error /\
  ((exists t q, gmail_list failing_store t q = inl quota_error) \/
   (exists t id, gmail_get failing_store t id = inl quota_error)) /\
  fst (processDynamicQuery sample_decode repeating_store failing (lit "flight") []
                           state0)
  = Returns (repeat (emailContent sample_decode sample_message) 6).
Proof.
  split; [reflexivity|]. split; [|reflexivity].
  apply (@processDynamicQuery_failures sample_decode failing_store failing
           (lit "flight") [] state0 quota_error).
  reflexivity.
Defined.

End Legacy.
